(** * AuthorizedSearchEngine: an authorization-aware wrapper of a search engine

    Shallow embedding of
    [plugins/search-backend/src/service/AuthorizedSearchEngine.ts]
    and the properties of its page cursor codec, its type-level gate, its
    result filter and its backfill loop.

    Layout:
    - [JsNumber]   the ECMAScript Number type as far as the file uses it
                   ([Number(string)], template-literal printing, [+], [-],
                   [*], [<], [===], [isNaN], [Array.prototype.slice]);
    - [Buffer]     base64 and UTF-8 as Node's [Buffer] performs them;
    - the cursor codec [decodePageCursor] / [encodePageCursor];
    - the collaborators (search engine, permission authorizer, clock) as
      state transformers over an abstract world, with a log of every call;
    - [DataLoader] batching and caching as the [dataloader] package does it;
    - the class [AuthorizedSearchEngine];
    - the theorems. *)

From Stdlib Require Import ZArith Lia List Bool Ascii String.
From stdpp Require Import base option list gmap strings.

Local Open Scope Z_scope.

(* ===================================================================== *)
(** * ECMAScript numbers *)
(* ===================================================================== *)

Module JsNumber.

(** A Number is an IEEE-754 binary64 value.  A finite value is kept as
    sign, mantissa and binary exponent, [(-1)^neg * m * 2^e], in the
    canonical form where [m] is odd, or [m = 0] and [e = 0] (the two
    zeros).  Canonical forms make Leibniz equality coincide with
    [Object.is]. *)
Inductive number : Type :=
| NaN
| Inf (neg : bool)
| Fin (neg : bool) (m : Z) (e : Z).

Definition number_eqb (x y : number) : bool :=
  match x, y with
  | NaN, NaN => true
  | Inf s, Inf t => Bool.eqb s t
  | Fin s m e, Fin t n f => Bool.eqb s t && (m =? n) && (e =? f)
  | _, _ => false
  end.

Fixpoint strip2 (p : positive) (e : Z) : positive * Z :=
  match p with
  | xO p' => strip2 p' (e + 1)
  | _ => (p, e)
  end.

(** Canonical form of [m * 2^e]. *)
Definition normal (neg : bool) (m e : Z) : number :=
  match m with
  | Zpos p => let '(p', e') := strip2 p e in Fin neg (Zpos p') e'
  | _ => Fin neg 0 0
  end.

(** [floor (log2 (a / b))] for positive [a] and [b]. *)
Definition ilog2_rat (a b : Z) : Z :=
  let l := Z.log2 a - Z.log2 b in
  let below := if 0 <=? l then a <? b * 2 ^ l else a * 2 ^ (- l) <? b in
  if below then l - 1 else l.

(** Round the non-negative rational [a / b] to the nearest binary64,
    ties to even: 53 bits of precision, least exponent -1074 (subnormals),
    overflow to infinity from [2^1024]. *)
Definition round (neg : bool) (a b : Z) : number :=
  if a =? 0 then Fin neg 0 0 else
  let e := Z.max (ilog2_rat a b - 52) (-1074) in
  let num := if 0 <=? e then a else a * 2 ^ (- e) in
  let den := if 0 <=? e then b * 2 ^ e else b in
  let q := num / den in
  let r := num mod den in
  let q' := if 2 * r <? den then q
            else if den <? 2 * r then q + 1
            else if Z.even q then q else q + 1 in
  if q' =? 0 then Fin neg 0 0
  else if 1024 <=? Z.log2 q' + e then Inf neg
  else normal neg q' e.

(** The exact value [m * 2^e] as a fraction. *)
Definition frac (m e : Z) : Z * Z :=
  if 0 <=? e then (m * 2 ^ e, 1) else (m, 2 ^ (- e)).

(** An integer as a Number (exact up to [2^53]). *)
Definition of_Z (z : Z) : number := round (z <? 0) (Z.abs z) 1.

Definition of_nat (n : nat) : number := of_Z (Z.of_nat n).

Definition isNaN (x : number) : bool :=
  match x with NaN => true | _ => false end.

Definition isFinite (x : number) : bool :=
  match x with Fin _ _ _ => true | _ => false end.

Definition opp (x : number) : number :=
  match x with
  | NaN => NaN
  | Inf s => Inf (negb s)
  | Fin s m e => Fin (negb s) m e
  end.

Definition signed (neg : bool) (m : Z) : Z := if neg then - m else m.

(** Both mantissas over the common exponent [Z.min e1 e2]. *)
Definition align (m1 e1 m2 e2 : Z) : Z * Z * Z :=
  let e := Z.min e1 e2 in (m1 * 2 ^ (e1 - e), m2 * 2 ^ (e2 - e), e).

(** [x + y] *)
Definition add (x y : number) : number :=
  match x, y with
  | NaN, _ | _, NaN => NaN
  | Inf s, Inf t => if Bool.eqb s t then Inf s else NaN
  | Inf s, Fin _ _ _ => Inf s
  | Fin _ _ _, Inf t => Inf t
  | Fin s1 m1 e1, Fin s2 m2 e2 =>
      let '(a1, a2, e) := align m1 e1 m2 e2 in
      let sum := signed s1 a1 + signed s2 a2 in
      if sum =? 0 then Fin (s1 && s2) 0 0
      else let '(a, b) := frac (Z.abs sum) e in round (sum <? 0) a b
  end.

(** [x - y] *)
Definition sub (x y : number) : number := add x (opp y).

(** [x * y] *)
Definition mul (x y : number) : number :=
  match x, y with
  | NaN, _ | _, NaN => NaN
  | Inf s, Inf t => Inf (xorb s t)
  | Inf s, Fin t m _ | Fin t m _, Inf s =>
      if m =? 0 then NaN else Inf (xorb s t)
  | Fin s1 m1 e1, Fin s2 m2 e2 =>
      let '(a, b) := frac (m1 * m2) (e1 + e2) in round (xorb s1 s2) a b
  end.

(** Numeric comparison; [None] when an operand is NaN. *)
Definition compare (x y : number) : option comparison :=
  match x, y with
  | NaN, _ | _, NaN => None
  | Inf s, Inf t =>
      Some (if Bool.eqb s t then Eq else if s then Lt else Gt)
  | Inf s, Fin _ _ _ => Some (if s then Lt else Gt)
  | Fin _ _ _, Inf t => Some (if t then Gt else Lt)
  | Fin s1 m1 e1, Fin s2 m2 e2 =>
      let '(a1, a2, _) := align m1 e1 m2 e2 in
      Some (signed s1 a1 ?= signed s2 a2)
  end.

(** [x < y] *)
Definition lt (x y : number) : bool :=
  match compare x y with Some Lt => true | _ => false end.

(** [x > y] *)
Definition gt (x y : number) : bool := lt y x.

(** [x === y] on Numbers: NaN differs from itself, the zeros are equal. *)
Definition strict_eq (x y : number) : bool :=
  match compare x y with Some Eq => true | _ => false end.

Definition zero : number := Fin false 0 0.
Definition one : number := Fin false 1 0.

(** ** ToIntegerOrInfinity and [Array.prototype.slice] *)

Inductive integer_or_infinity : Type :=
| MinusInfinity
| Integer (z : Z)
| PlusInfinity.

Definition ToIntegerOrInfinity (x : number) : integer_or_infinity :=
  match x with
  | NaN => Integer 0
  | Inf s => if s then MinusInfinity else PlusInfinity
  | Fin s m e =>
      Integer (signed s (if 0 <=? e then m * 2 ^ e else m / 2 ^ (- e)))
  end.

Definition relative_index (len : Z) (r : integer_or_infinity) : Z :=
  match r with
  | MinusInfinity => 0
  | PlusInfinity => len
  | Integer z => if z <? 0 then Z.max (len + z) 0 else Z.min z len
  end.

(** [l.slice(start, end)] with both arguments given. *)
Definition slice {A} (l : list A) (start end_ : number) : list A :=
  let len := Z.of_nat (length l) in
  let k := relative_index len (ToIntegerOrInfinity start) in
  let final := relative_index len (ToIntegerOrInfinity end_) in
  take (Z.to_nat (final - k)) (drop (Z.to_nat k) l).

(** ** [Number(string)]: StringToNumber

    Text is a list of code points.  The grammar is StringNumericLiteral:
    surrounding white space is trimmed, the empty text is [+0], then one of
    a signed decimal literal (digits, fraction, exponent, or [Infinity]) or
    an unsigned [0x], [0o], [0b] integer; anything else is NaN. *)

Definition is_white_space (c : Z) : bool :=
  existsb (Z.eqb c)
    [9; 10; 11; 12; 13; 32; 160; 5760; 8232; 8233; 8239; 8287; 12288; 65279]
  || ((8192 <=? c) && (c <=? 8202)).

Fixpoint drop_while {A} (f : A -> bool) (l : list A) : list A :=
  match l with
  | x :: r => if f x then drop_while f r else l
  | [] => []
  end.

Definition trim (l : list Z) : list Z :=
  rev (drop_while is_white_space (rev (drop_while is_white_space l))).

(** Value of a digit in the given radix (letters in either case). *)
Definition digit_value (radix c : Z) : option Z :=
  let v := if (48 <=? c) && (c <=? 57) then c - 48
           else if (97 <=? c) && (c <=? 122) then c - 87
           else if (65 <=? c) && (c <=? 90) then c - 55
           else radix in
  if v <? radix then Some v else None.

(** All of [l] as digits, most significant first; [None] on a non-digit. *)
Fixpoint digits_value (radix acc : Z) (l : list Z) : option Z :=
  match l with
  | [] => Some acc
  | c :: r =>
      match digit_value radix c with
      | Some d => digits_value radix (acc * radix + d) r
      | None => None
      end
  end.

Definition is_digit (c : Z) : bool := (48 <=? c) && (c <=? 57).

Definition digit (c : Z) : Prop := 48 <= c <= 57.

Fixpoint span_digits (l : list Z) : list Z * list Z :=
  match l with
  | c :: r =>
      if is_digit c then let '(d, t) := span_digits r in (c :: d, t)
      else ([], l)
  | [] => ([], [])
  end.

(** ExponentPart: [e] or [E], an optional sign, one digit or more. *)
Definition parse_exponent (l : list Z) : option Z :=
  match l with
  | [] => Some 0
  | c :: r =>
      if (c =? 101) || (c =? 69) then
        let '(neg, ds) :=
          match r with
          | 45 :: t => (true, t)
          | 43 :: t => (false, t)
          | _ => (false, r)
          end in
        match ds with
        | [] => None
        | _ => x ← digits_value 10 0 ds; Some (signed neg x)
        end
      else None
  end.

Definition Infinity_text : list Z := [73; 110; 102; 105; 110; 105; 116; 121].

(** StrUnsignedDecimalLiteral with the sign already read. *)
Definition parse_unsigned_decimal (neg : bool) (l : list Z) : number :=
  if bool_decide (l = Infinity_text) then Inf neg else
  let '(ip, r1) := span_digits l in
  let '(fp, r2) := match r1 with
                   | 46 :: t => span_digits t
                   | _ => ([], r1)
                   end in
  match ip ++ fp with
  | [] => NaN
  | ds =>
      match digits_value 10 0 ds, parse_exponent r2 with
      | Some m, Some x =>
          let scale := x - Z.of_nat (length fp) in
          if 0 <=? scale then round neg (m * 10 ^ scale) 1
          else round neg m (10 ^ (- scale))
      | _, _ => NaN
      end
  end.

Definition parse_radix (radix : Z) (ds : list Z) : number :=
  match ds with
  | [] => NaN
  | _ => match digits_value radix 0 ds with
         | Some m => round false m 1
         | None => NaN
         end
  end.

Definition StringToNumber (text : list Z) : number :=
  match trim text with
  | [] => zero
  | 48 :: 120 :: ds | 48 :: 88 :: ds => parse_radix 16 ds
  | 48 :: 111 :: ds | 48 :: 79 :: ds => parse_radix 8 ds
  | 48 :: 98 :: ds | 48 :: 66 :: ds => parse_radix 2 ds
  | 45 :: l => parse_unsigned_decimal true l
  | 43 :: l => parse_unsigned_decimal false l
  | l => parse_unsigned_decimal false l
  end.

(** ** Number::toString, radix 10 (what a template literal applies) *)

(** Decimal digits of a non-negative integer, most significant first. *)
Fixpoint digits_below (fuel : nat) (z : Z) (acc : list Z) : list Z :=
  match fuel with
  | O => acc
  | S f =>
      let acc' := (48 + z mod 10) :: acc in
      if z <? 10 then acc' else digits_below f (z / 10) acc'
  end.

Definition decimal (z : Z) : list Z :=
  digits_below (S (Z.to_nat (Z.log2 z))) z [].

(** [floor (log10 (a / b))] for positive [a] and [b]. *)
Fixpoint ilog10_up (fuel : nat) (a b : Z) : Z :=
  match fuel with
  | O => 0
  | S f => if a <? 10 * b then 0 else 1 + ilog10_up f a (10 * b)
  end.

Fixpoint ilog10_down (fuel : nat) (a b : Z) : Z :=
  match fuel with
  | O => 0
  | S f => if b <=? a then 0 else ilog10_down f (10 * a) b - 1
  end.

Definition ilog10_rat (a b : Z) : Z :=
  if b <=? a then ilog10_up (S (Z.to_nat (Z.log2 a))) a b
  else ilog10_down (S (Z.to_nat (Z.log2 b))) a b.

(** [s * 10^(n - k)] as a fraction. *)
Definition scaled (s n k : Z) : Z * Z :=
  if 0 <=? n - k then (s * 10 ^ (n - k), 1) else (s, 10 ^ (k - n)).

Definition rounds_to (x : number) (s n k : Z) : bool :=
  let '(c, d) := scaled s n k in number_eqb (round false c d) x.

(** The [k]-digit candidates for the positive value [x = a / b] with
    [10^(n-1) <= a/b < 10^n]: the two [k]-digit decimals around it. *)
Definition candidate (x : number) (a b n k : Z) : option (Z * Z) :=
  let s_lo := if 0 <=? k - n then a * 10 ^ (k - n) / b
              else a / (b * 10 ^ (n - k)) in
  let '(n_hi, s_hi) := if s_lo + 1 <? 10 ^ k then (n, s_lo + 1)
                       else (n + 1, 10 ^ (k - 1)) in
  let ok_lo := rounds_to x s_lo n k in
  let ok_hi := rounds_to x s_hi n_hi k in
  if ok_lo && ok_hi then
    (* both round to x: the closer one, the even one on a tie *)
    let '(c_lo, d_lo) := scaled s_lo n k in
    let '(c_hi, d_hi) := scaled s_hi n_hi k in
    (* a/b - c_lo/d_lo  against  c_hi/d_hi - a/b, over b*d_lo*d_hi *)
    let below := (a * d_lo - c_lo * b) * d_hi in
    let above := (c_hi * b - a * d_hi) * d_lo in
    if below <? above then Some (n, s_lo)
    else if above <? below then Some (n_hi, s_hi)
    else if Z.even s_lo then Some (n, s_lo) else Some (n_hi, s_hi)
  else if ok_lo then Some (n, s_lo)
  else if ok_hi then Some (n_hi, s_hi)
  else None.

(** The least [k] with a [k]-digit decimal that rounds to [x]; 17 digits
    always suffice for a binary64. *)
Fixpoint shortest (fuel : nat) (x : number) (a b n k : Z) : Z * Z * Z :=
  match candidate x a b n k with
  | Some (n', s) => (n', k, s)
  | None =>
      match fuel with
      | O => (n, k, if 0 <=? k - n then a * 10 ^ (k - n) / b
                    else a / (b * 10 ^ (n - k)))
      | S f => shortest f x a b n (k + 1)
      end
  end.

Definition zeros (n : Z) : list Z := repeat 48 (Z.to_nat n).

(** Steps 6 to 10 of Number::toString for the decimal [s * 10^(n-k)]. *)
Definition render (n k s : Z) : list Z :=
  let ds := decimal s in
  if (k <=? n) && (n <=? 21) then ds ++ zeros (n - k)
  else if (0 <? n) && (n <=? 21) then
    take (Z.to_nat n) ds ++ [46] ++ drop (Z.to_nat n) ds
  else if (-6 <? n) && (n <=? 0) then [48; 46] ++ zeros (- n) ++ ds
  else
    let e := n - 1 in
    let sign := if e <? 0 then 45 else 43 in
    match ds with
    | [d] => [d; 101; sign] ++ decimal (Z.abs e)
    | d :: rest => d :: 46 :: rest ++ [101; sign] ++ decimal (Z.abs e)
    | [] => []
    end.

Definition toString (x : number) : list Z :=
  match x with
  | NaN => [78; 97; 78]
  | Inf s => if s then 45 :: Infinity_text else Infinity_text
  | Fin s m e =>
      if m =? 0 then [48] else
      let '(a, b) := frac m e in
      let '(n, k, d) :=
        shortest 16 (Fin false m e) a b (ilog10_rat a b + 1) 1 in
      (if s then [45] else []) ++ render n k d
  end.

(** The integer a finite Number with a non-negative exponent stands for
    (used to state exactness on integers). *)
Definition int_value (x : number) : Z :=
  match x with
  | Fin s m e => signed s (m * 2 ^ e)
  | _ => 0
  end.

(** [x] is the integer [z], as either zero when [z = 0]. *)
Definition represents (x : number) (z : Z) : Prop :=
  exists s m e, x = Fin s m e /\ 0 <= m /\ 0 <= e /\ z = signed s (m * 2 ^ e).

End JsNumber.

(* ===================================================================== *)
(** * Node's Buffer: base64 and UTF-8 *)
(* ===================================================================== *)

Module Buffer.

(** A buffer is a list of octets.  A base64 text is a [string]: every
    character of the alphabet is one code unit below 128. *)
Definition bytes := list Z.

Definition code (c : ascii) : Z := Z.of_N (N_of_ascii c).
Definition char (z : Z) : ascii := ascii_of_N (Z.to_N z).

(** The character of a sextet in the standard alphabet. *)
Definition sextet_char (v : Z) : ascii :=
  char (if v <? 26 then 65 + v
        else if v <? 52 then 97 + (v - 26)
        else if v <? 62 then 48 + (v - 52)
        else if v =? 62 then 43 else 47).

(** The sextet of a character; Node also reads the URL-safe [-] and [_]. *)
Definition char_sextet (c : ascii) : option Z :=
  let z := code c in
  if (65 <=? z) && (z <=? 90) then Some (z - 65)
  else if (97 <=? z) && (z <=? 122) then Some (z - 97 + 26)
  else if (48 <=? z) && (z <=? 57) then Some (z - 48 + 52)
  else if (z =? 43) || (z =? 45) then Some 62
  else if (z =? 47) || (z =? 95) then Some 63
  else None.

(** [buf.toString('base64')]: RFC 4648 with padding. *)
Fixpoint toString_base64 (bs : bytes) : string :=
  match bs with
  | a :: b :: c :: r =>
      String (sextet_char (Z.shiftr a 2))
        (String (sextet_char (Z.lor (Z.shiftl (Z.land a 3) 4) (Z.shiftr b 4)))
           (String (sextet_char (Z.lor (Z.shiftl (Z.land b 15) 2)
                                   (Z.shiftr c 6)))
              (String (sextet_char (Z.land c 63)) (toString_base64 r))))
  | [a; b] =>
      String (sextet_char (Z.shiftr a 2))
        (String (sextet_char (Z.lor (Z.shiftl (Z.land a 3) 4) (Z.shiftr b 4)))
           (String (sextet_char (Z.shiftl (Z.land b 15) 2)) "="))
  | [a] =>
      String (sextet_char (Z.shiftr a 2))
        (String (sextet_char (Z.shiftl (Z.land a 3) 4)) "==")
  | [] => EmptyString
  end.

(** The sextets Node's decoder reads: a character outside the alphabet is
    skipped, the first [=] ends the input. *)
Fixpoint sextets (s : string) : list Z :=
  match s with
  | EmptyString => []
  | String c r =>
      match char_sextet c with
      | Some v => v :: sextets r
      | None => if Ascii.eqb c "="%char then [] else sextets r
      end
  end.

(** Four sextets give three octets; a tail of two gives one octet, a tail
    of three gives two, a lone sextet gives none. *)
Fixpoint octets (vs : list Z) : bytes :=
  match vs with
  | a :: b :: c :: d :: r =>
      Z.lor (Z.shiftl a 2) (Z.shiftr b 4)
      :: Z.lor (Z.shiftl (Z.land b 15) 4) (Z.shiftr c 2)
      :: Z.lor (Z.shiftl (Z.land c 3) 6) d
      :: octets r
  | [a; b; c] =>
      [Z.lor (Z.shiftl a 2) (Z.shiftr b 4);
       Z.lor (Z.shiftl (Z.land b 15) 4) (Z.shiftr c 2)]
  | [a; b] => [Z.lor (Z.shiftl a 2) (Z.shiftr b 4)]
  | _ => []
  end.

(** [Buffer.from(text, 'base64')] *)
Definition from_base64 (text : string) : bytes := octets (sextets text).

Definition continuation (b : Z) : bool := (128 <=? b) && (b <=? 191).

(** [buf.toString('utf-8')]: code points of the octets; an octet that
    starts no well-formed sequence becomes U+FFFD.  (Node emits one U+FFFD
    for a whole truncated sequence where this emits one per octet; a code
    point above U+FFFF stands for its surrogate pair.) *)
Fixpoint toString_utf8 (bs : bytes) : list Z :=
  match bs with
  | [] => []
  | b0 :: r =>
      if b0 <? 128 then b0 :: toString_utf8 r else
      let bad := 65533 :: toString_utf8 r in
      match r with
      | b1 :: r1 =>
          if (194 <=? b0) && (b0 <=? 223) then
            if continuation b1
            then ((b0 - 192) * 64 + (b1 - 128)) :: toString_utf8 r1
            else bad
          else
          match r1 with
          | b2 :: r2 =>
              if (224 <=? b0) && (b0 <=? 239) then
                let cp := (b0 - 224) * 4096 + (b1 - 128) * 64 + (b2 - 128) in
                if continuation b1 && continuation b2 && (2048 <=? cp)
                   && negb ((55296 <=? cp) && (cp <=? 57343))
                then cp :: toString_utf8 r2
                else bad
              else
              match r2 with
              | b3 :: r3 =>
                  let cp := (b0 - 240) * 262144 + (b1 - 128) * 4096
                            + (b2 - 128) * 64 + (b3 - 128) in
                  if (240 <=? b0) && (b0 <=? 244) && continuation b1
                     && continuation b2 && continuation b3
                     && (65536 <=? cp) && (cp <=? 1114111)
                  then cp :: toString_utf8 r3
                  else bad
              | [] => bad
              end
          | [] => bad
          end
      | [] => bad
      end
  end.

(** [Buffer.from(text, 'utf-8')] on a text of code points (no lone
    surrogates). *)
Definition utf8_of_code_point (c : Z) : bytes :=
  if c <? 128 then [c]
  else if c <? 2048 then [192 + c / 64; 128 + c mod 64]
  else if c <? 65536 then
    [224 + c / 4096; 128 + (c / 64) mod 64; 128 + c mod 64]
  else [240 + c / 262144; 128 + (c / 4096) mod 64;
        128 + (c / 64) mod 64; 128 + c mod 64].

Definition from_utf8 (text : list Z) : bytes :=
  flat_map utf8_of_code_point text.

(** An octet. *)
Definition octet (b : Z) : Prop := 0 <= b < 256.

(** The integers [0 .. n-1]. *)
Definition below (n : nat) : list Z := map Z.of_nat (seq 0 n).

(** The sextets of a group of three octets. *)
Definition sextet0 (a : Z) : Z := Z.shiftr a 2.
Definition sextet1 (a b : Z) : Z :=
  Z.lor (Z.shiftl (Z.land a 3) 4) (Z.shiftr b 4).
Definition sextet2 (b c : Z) : Z :=
  Z.lor (Z.shiftl (Z.land b 15) 2) (Z.shiftr c 6).
Definition sextet3 (c : Z) : Z := Z.land c 63.

(** What decoding asks of the sextets of two neighbouring octets. *)
Definition check_first (a b : Z) : bool :=
  (sextet0 a <? 64) && (0 <=? sextet0 a)
  && (sextet1 a b <? 64) && (0 <=? sextet1 a b)
  && (Z.lor (Z.shiftl (sextet0 a) 2) (Z.shiftr (sextet1 a b) 4) =? a)
  && (Z.land (sextet1 a b) 15 =? Z.shiftr b 4)
  && (Z.lor (Z.shiftl (sextet0 a) 2)
        (Z.shiftr (Z.shiftl (Z.land a 3) 4) 4) =? a)
  && (Z.shiftl (Z.land a 3) 4 <? 64) && (0 <=? Z.shiftl (Z.land a 3) 4).

Definition check_last (b c : Z) : bool :=
  (sextet2 b c <? 64) && (0 <=? sextet2 b c)
  && (sextet3 c <? 64) && (0 <=? sextet3 c)
  && (Z.lor (Z.shiftl (Z.land (sextet2 b c) 3) 6) (sextet3 c) =? c)
  && (Z.shiftr (sextet2 b c) 2 =? Z.land b 15)
  && (Z.lor (Z.shiftl (Z.shiftr b 4) 4) (Z.land b 15) =? b)
  && (Z.shiftr (Z.shiftl (Z.land b 15) 2) 2 =? Z.land b 15)
  && (Z.shiftl (Z.land b 15) 2 <? 64) && (0 <=? Z.shiftl (Z.land b 15) 2).

Definition check_sextet (v : Z) : bool :=
  match char_sextet (sextet_char v) with
  | Some v' => v' =? v
  | None => false
  end.

End Buffer.

(* ===================================================================== *)
(** * The page cursor codec *)
(* ===================================================================== *)

Import JsNumber.

(** What an [async] function or a throwing function gives back. *)
Inductive outcome (A : Type) : Type :=
| Returned (a : A)
| Threw (message : string).
Arguments Returned {A} a.
Arguments Threw {A} message.

Definition map_outcome {A B} (f : A -> B) (o : outcome A) : outcome B :=
  match o with
  | Returned a => Returned (f a)
  | Threw message => Threw message
  end.

(** A JS string is falsy exactly when it is absent or empty. *)
Definition truthy (s : option string) : bool :=
  match s with
  | Some (String _ _) => true
  | _ => false
  end.

(** [Number(Buffer.from(pageCursor, 'base64').toString('utf-8'))] *)
Definition decoded (pageCursor : string) : number :=
  StringToNumber (Buffer.toString_utf8 (Buffer.from_base64 pageCursor)).

(** [decodePageCursor(pageCursor?)]: the record [{ page }] is its field. *)
Definition decodePageCursor (pageCursor : option string) : outcome number :=
  match pageCursor with
  | Some (String _ _ as cursor) =>
      let page := decoded cursor in
      if isNaN page then Threw "Invalid cursor"
      else if lt page zero then Threw "Invalid cursor"
      else Returned page
  | _ => Returned zero
  end.

(** [encodePageCursor({ page })] *)
Definition encodePageCursor (page : number) : string :=
  Buffer.toString_base64 (Buffer.from_utf8 (toString page)).

(* ===================================================================== *)
(** * The data model: the types the source imports *)
(* ===================================================================== *)

(** [@backstage/plugin-permission-common]: the source imports its types,
    their declarations are not among the sources. *)
Module PermissionCommon.

(** Modelled from the spec: the enum [AuthorizeResult], missing from the
    sources.  Section 3 has ALLOW and DENY and a conditional outcome; the
    source compares with [AuthorizeResult.ALLOW] and [AuthorizeResult.DENY]
    only. *)
Inductive AuthorizeResult : Type := DENY | ALLOW | CONDITIONAL.

Global Instance AuthorizeResult_eq_dec : EqDecision AuthorizeResult.
Proof. solve_decision. Defined.

(** Modelled from the spec: the type [Permission], missing from the
    sources; "a permission identifier".  A permission is an object, so it
    is never falsy; its name identifies it. *)
Record Permission : Type := { name : string }.

(** Modelled from the spec: the type [AuthorizeQuery], missing from the
    sources; "a permission identifier plus an optional resource
    reference". *)
Record AuthorizeQuery : Type :=
  { permission : Permission; resourceRef : option string }.

(** Modelled from the spec: the type [AuthorizeDecision], missing from the
    sources.  The source reads its [result] only. *)
Record AuthorizeDecision : Type := { result : AuthorizeResult }.

Global Instance Permission_eq_dec : EqDecision Permission.
Proof. solve_decision. Defined.

Global Instance AuthorizeQuery_eq_dec : EqDecision AuthorizeQuery.
Proof. solve_decision. Defined.

Global Instance AuthorizeDecision_eq_dec : EqDecision AuthorizeDecision.
Proof. solve_decision. Defined.

End PermissionCommon.

(** [@backstage/search-common]: the source imports its types, their
    declarations are not among the sources. *)
Module SearchCommon.

(** Modelled from the spec: the type [IndexableDocument], missing from the
    sources; a document payload that "may carry an optional authorization
    resource reference".  [authorization] holds the [resourceRef] the
    source reads as [document.authorization?.resourceRef]. *)
Record IndexableDocument : Type :=
  { title : string; text : string; location : string;
    authorization : option string }.

(** Modelled from the spec: the type [SearchResult], missing from the
    sources; "a type tag and a document payload". *)
Record SearchResult : Type :=
  { type : string; document : IndexableDocument }.

(** Modelled from the spec: the type [SearchQuery], missing from the
    sources; criteria, optional requested [types], optional incoming page
    cursor.  [filters] is an opaque JSON object. *)
Record SearchQuery : Type :=
  { term : string; filters : option string;
    types : option (list string); pageCursor : option string }.

(** Modelled from the spec: the type [SearchResultSet], missing from the
    sources; [{ results, previousPageCursor?, nextPageCursor? }]. *)
Record SearchResultSet : Type :=
  { results : list SearchResult;
    nextPageCursor : option string;
    previousPageCursor : option string }.

(** Modelled from the spec: the type [QueryRequestOptions], missing from
    the sources; the caller's context, passed through unchanged. *)
Record QueryRequestOptions : Type := { token : option string }.

Global Instance IndexableDocument_eq_dec : EqDecision IndexableDocument.
Proof. solve_decision. Defined.

Global Instance SearchResult_eq_dec : EqDecision SearchResult.
Proof. solve_decision. Defined.

(** A settled promise. *)
Inductive Promise (A : Type) : Type :=
| Fulfilled (a : A)
| Rejected (reason : string).
Arguments Fulfilled {A} a.
Arguments Rejected {A} reason.

(** [await p] *)
Definition await {A} (p : Promise A) : outcome A :=
  match p with
  | Fulfilled a => Returned a
  | Rejected reason => Threw reason
  end.

(** Modelled from the spec: the interface [SearchEngine], missing from the
    sources, with the three operations of section 6.  An implementation
    acts on the outside world [World] (its index, the network, the clock).  [index] returns a
    promise or throws before returning one; [query] is always awaited by
    the source, so its promise and its outcome are one. *)
Record SearchEngine (World QueryTranslator : Type) : Type :=
  { setTranslator : QueryTranslator -> World -> outcome unit * World;
    index : string -> list IndexableDocument -> World ->
            outcome (Promise unit) * World;
    query : SearchQuery -> QueryRequestOptions -> World ->
            outcome SearchResultSet * World }.
Arguments setTranslator {World QueryTranslator} _ _ _.
Arguments index {World QueryTranslator} _ _ _ _.
Arguments query {World QueryTranslator} _ _ _ _.

End SearchCommon.

(** [PermissionAuthorizer] of [@backstage/plugin-permission-common] *)
Module PermissionAuthorizer.
Import PermissionCommon SearchCommon.

(** Modelled from the spec: the interface [PermissionAuthorizer], missing
    from the sources; [authorize(requests[], options) -> decisions[]],
    awaited by the loader. *)
Record t (World : Type) : Type :=
  { authorize : list AuthorizeQuery -> QueryRequestOptions -> World ->
                outcome (list AuthorizeDecision) * World }.
Arguments authorize {World} _ _ _ _.

End PermissionAuthorizer.

(** [DocumentTypeInfo] of [@backstage/plugin-search-backend-node] *)
Module SearchBackendNode.
Import PermissionCommon.

(** Modelled from the spec: the type [DocumentTypeInfo], missing from the
    sources; "per-type metadata, primarily an optional visibility
    permission". *)
Record DocumentTypeInfo : Type :=
  { visibilityPermission : option Permission }.

End SearchBackendNode.

(* ===================================================================== *)
(** * The class AuthorizedSearchEngine *)
(* ===================================================================== *)

Module AuthorizedSearchEngine.
Import PermissionCommon SearchCommon SearchBackendNode.

Record AuthorizedSearchEngineConfig : Type :=
  { queryLatencyBudgetMs : number; pageSize : number }.

(** [Partial<AuthorizedSearchEngineConfig>]: a key is given or not. *)
Record PartialConfig : Type :=
  { given_queryLatencyBudgetMs : option number;
    given_pageSize : option number }.

(** A call the wrapper makes to one of its two collaborators. *)
Inductive Call : Type :=
| Authorize (requests : list AuthorizeQuery) (options : QueryRequestOptions)
| Query (query : SearchQuery) (options : QueryRequestOptions).

(** A JS object: its identity and its fields.  Two evaluations of an object
    literal give two objects, whatever their fields. *)
Definition Object (A : Type) : Type := (nat * A)%type.

(** What a callback under [Promise.all] returns: a plain value, or the
    promise of [authorizer.load(key)] followed by a [then]. *)
Inductive awaitable (A : Type) : Type :=
| Value (a : A)
| Load (key : Object AuthorizeQuery) (then_ : AuthorizeDecision -> A).
Arguments Value {A} a.
Arguments Load {A} key then_.

Section Engine.

Context {World QueryTranslator : Type}.

(** [Date.now()]: reading the clock is itself a step of the world. *)
Variable Date_now : World -> Z * World.

Record t : Type :=
  { searchEngine : SearchEngine World QueryTranslator;
    types : list (string * DocumentTypeInfo);
    permissions : PermissionAuthorizer.t World;
    config : AuthorizedSearchEngineConfig }.

(** [{ queryLatencyBudgetMs: 1000, pageSize: 25, ...config }] *)
Definition constructor (searchEngine : SearchEngine World QueryTranslator)
    (types : list (string * DocumentTypeInfo))
    (permissions : PermissionAuthorizer.t World)
    (config : option PartialConfig) : t :=
  {| searchEngine := searchEngine;
     types := types;
     permissions := permissions;
     config :=
       {| queryLatencyBudgetMs :=
            default (of_Z 1000) (config ≫= given_queryLatencyBudgetMs);
          pageSize := default (of_Z 25) (config ≫= given_pageSize) |} |}.

(** ** The state one [query] runs in

    The outside world, the calls made so far, the allocator of object
    identities, and the cache of the query's DataLoader: a [Map] from key
    to settled value.  The loader is built without [cacheKeyFn], so the
    key of the [Map] is the key object itself, compared by identity. *)
Record State : Type :=
  { world : World;
    calls : list Call;
    next_object : nat;
    cacheMap : gmap nat AuthorizeDecision }.

(** A computation either needs more iterations than it was given ([None]),
    or ends by returning or throwing. *)
Definition M (A : Type) : Type := State -> option (outcome A * State).

Definition ret {A} (a : A) : M A := fun st => Some (Returned a, st).

Definition throw {A} (message : string) : M A :=
  fun st => Some (Threw message, st).

Definition bind {A B} (c : M A) (k : A -> M B) : M B :=
  fun st =>
    match c st with
    | Some (Returned a, st') => k a st'
    | Some (Threw message, st') => Some (Threw message, st')
    | None => None
    end.

Notation "x <- c ;; k" := (bind c (fun x => k))
  (at level 100, c at next level, right associativity).

Definition lift {A} (o : outcome A) : M A := fun st => Some (o, st).

Fixpoint mapM {A B} (f : A -> M B) (l : list A) : M (list B) :=
  match l with
  | [] => ret []
  | x :: r => y <- f x ;; ys <- mapM f r ;; ret (y :: ys)
  end.

Definition now : M Z :=
  fun st =>
    let '(time, w) := Date_now (world st) in
    Some (Returned time,
          {| world := w; calls := calls st;
             next_object := next_object st; cacheMap := cacheMap st |}).

(** [this.permissions.authorize(requests, options)], awaited. *)
Definition call_authorize (this : t) (requests : list AuthorizeQuery)
    (options : QueryRequestOptions) : M (list AuthorizeDecision) :=
  fun st =>
    let '(o, w) :=
      PermissionAuthorizer.authorize (permissions this) requests options
        (world st) in
    Some (o, {| world := w;
                calls := calls st ++ [Authorize requests options];
                next_object := next_object st; cacheMap := cacheMap st |}).

(** [this.searchEngine.query(query, options)], awaited. *)
Definition call_query (this : t) (query : SearchQuery)
    (options : QueryRequestOptions) : M SearchResultSet :=
  fun st =>
    let '(o, w) := SearchCommon.query (searchEngine this) query options
                     (world st) in
    Some (o, {| world := w;
                calls := calls st ++ [Query query options];
                next_object := next_object st; cacheMap := cacheMap st |}).

(** An object literal: a fresh identity. *)
Definition new_object {A} (fields : A) : M (Object A) :=
  fun st =>
    Some (Returned (next_object st, fields),
          {| world := world st; calls := calls st;
             next_object := S (next_object st); cacheMap := cacheMap st |}).

(** ** DataLoader

    The [dataloader] package with its default options, as the source builds
    it: batching on, no limit on the batch, caching on, [cacheKeyFn] the
    identity and [cacheMap] a [Map].  [load(key)] looks [key] up in the
    [Map]: a hit shares the cached promise, a miss puts the key in the
    current batch and its promise in the [Map].  The batch is dispatched
    once, after the current synchronous block; a batch function that
    fails, or answers with the wrong number of values, rejects every load
    of the batch. *)

(** [new DataLoader(batchFn)]: an empty cache. *)
Definition new_DataLoader : M unit :=
  fun st =>
    Some (Returned tt,
          {| world := world st; calls := calls st;
             next_object := next_object st; cacheMap := ∅ |}).

Definition loads {A} (items : list (awaitable A))
    : list (Object AuthorizeQuery) :=
  omap (fun item => match item with
                    | Load key _ => Some key
                    | Value _ => None
                    end) items.

(** [load(key)] for each key in call order: a key found in the cache, or
    already in the batch, shares the promise it finds; any other key joins
    the batch. *)
Fixpoint enqueue (cached : gmap nat AuthorizeDecision)
    (batch keys : list (Object AuthorizeQuery))
    : list (Object AuthorizeQuery) :=
  match keys with
  | [] => batch
  | key :: rest =>
      if bool_decide (is_Some (cached !! key.1))
         || bool_decide (key.1 ∈ map fst batch)
      then enqueue cached batch rest
      else enqueue cached (batch ++ [key]) rest
  end.

Definition prime (cached : gmap nat AuthorizeDecision)
    (batch : list (Object AuthorizeQuery)) (values : list AuthorizeDecision)
    : gmap nat AuthorizeDecision :=
  foldl (fun m kv => <[kv.1.1 := kv.2]> m) cached (zip batch values).

Definition settle {A} (cached : gmap nat AuthorizeDecision)
    (item : awaitable A) : option A :=
  match item with
  | Value a => Some a
  | Load key then_ => then_ <$> cached !! key.1
  end.

Definition length_mismatch : string :=
  "DataLoader must be constructed with a function which accepts Array<key> and returns Promise<Array<value>>, but the function did not return a Promise of an Array of the same length as the Array of keys.".

(** The batch function answered with [values]: each key of the batch is
    cached with its value. *)
Definition prime_cache (batch : list (Object AuthorizeQuery))
    (values : list AuthorizeDecision) : M unit :=
  fun st =>
    Some (Returned tt,
          {| world := world st; calls := calls st;
             next_object := next_object st;
             cacheMap := prime (cacheMap st) batch values |}).

(** Every awaited item settles: a load with the value cached for its key. *)
Definition settle_all {A} (items : list (awaitable A)) : M (list A) :=
  fun st =>
    mapM (fun item => lift (match settle (cacheMap st) item with
                            | Some a => Returned a
                            | None => Threw "unsettled"
                            end)) items st.

(** [await Promise.all(items)] where the promises among [items] are loads
    issued in one synchronous block: the loader dispatches their batch once,
    on the next tick, by one call of the batch function
    [requests => this.permissions.authorize(requests.slice(), options)],
    unless the batch is empty. *)
Definition Promise_all {A} (this : t) (options : QueryRequestOptions)
    (items : list (awaitable A)) : M (list A) :=
  fun st =>
    let batch := enqueue (cacheMap st) [] (loads items) in
    match batch with
    | [] => settle_all items st
    | _ =>
        (values <- call_authorize this (map snd batch) options ;;
         if (length values =? length batch)%nat
         then _ <- prime_cache batch values ;; settle_all items
         else throw length_mismatch) st
    end.

(** ** Helpers on plain objects *)

(** [object[key]] on an object given by its own properties in order. *)
Fixpoint property {V} (object : list (string * V)) (key : string)
    : option V :=
  match object with
  | [] => None
  | (k, v) :: rest => if bool_decide (k = key) then Some v
                      else property rest key
  end.

Definition Object_keys {V} (object : list (string * V)) : list string :=
  map fst object.

(** lodash [zipObject(props, values)]: a later duplicate overwrites. *)
Definition zipObject {V} (props : list string) (values : list V)
    : gmap string V :=
  foldl (fun m kv => <[kv.1 := kv.2]> m) ∅ (zip props values).

(** lodash [compact] on an array of objects and [undefined]. *)
Definition compact {A} (l : list (option A)) : list A := omap id l.

(** [this.types[type]?.visibilityPermission] *)
Definition visibilityPermissionOf (this : t) (type : string)
    : option Permission :=
  property (types this) type ≫= visibilityPermission.

(** ** [setTranslator] and [index] *)

Definition setTranslator (this : t) (translator : QueryTranslator)
    : World -> outcome unit * World :=
  SearchCommon.setTranslator (searchEngine this) translator.

(** [async index(type, documents) { this.searchEngine.index(type, documents); }]
    The promise of the inner call is dropped: the body neither returns nor
    awaits it.  The promise of the wrapper is rejected only when the inner
    call throws before it returns its promise. *)
Definition index (this : t) (type : string)
    (documents : list IndexableDocument) : World -> Promise unit * World :=
  fun w =>
    match SearchCommon.index (searchEngine this) type documents w with
    | (Threw message, w') => (Rejected message, w')
    | (Returned _, w') => (Fulfilled tt, w')
    end.

(** ** [query] *)

(** The callbacks of [requestedTypes.map] and the [zipObject] around them:
    the local [typeDecisions]. *)
Definition typeDecisions (this : t) (requestedTypes : list string)
    (options : QueryRequestOptions) : M (gmap string AuthorizeDecision) :=
  pending <- mapM (fun type =>
      match visibilityPermissionOf this type with
      | Some permission =>
          key <- new_object
                   {| permission := permission; resourceRef := None |} ;;
          ret (Load key id)
      | None => ret (Value {| result := ALLOW |})
      end) requestedTypes ;;
  decisions <- Promise_all this options pending ;;
  ret (zipObject requestedTypes decisions).

(** The local [authorizedTypes]. *)
Definition authorizedTypes (requestedTypes : list string)
    (typeDecisions : gmap string AuthorizeDecision) : list string :=
  filter (fun type => result <$> typeDecisions !! type ≠ Some DENY)
    requestedTypes.

Definition filterResults (this : t) (options : QueryRequestOptions)
    (results : list SearchResult)
    (typeDecisions : gmap string AuthorizeDecision)
    : M (list SearchResult) :=
  pending <- mapM (fun result =>
      if bool_decide (PermissionCommon.result <$> typeDecisions !! type result
                      = Some ALLOW)
      then ret (Value (Some result))
      else
        let permission := visibilityPermissionOf this (type result) in
        let resourceRef := authorization (document result) in
        match permission with
        | Some permission =>
            if truthy resourceRef then
              key <- new_object {| permission := permission;
                                   resourceRef := resourceRef |} ;;
              ret (Load key (fun decision =>
                     if bool_decide (PermissionCommon.result decision = ALLOW)
                     then Some result else None))
            else ret (Value (Some result))
        | None => ret (Value (Some result))
        end) results ;;
  kept <- Promise_all this options pending ;;
  ret (compact kept).

(** What the [do ... while] loop leaves in its three variables. *)
Record Backfill : Type :=
  { filteredResults : list SearchResult;
    nextPageCursor : option string;
    latencyBudgetExhausted : bool }.

(** The [do ... while] loop, [fuel] iterations at most. *)
Fixpoint backfill (fuel : nat) (this : t) (query : SearchQuery)
    (options : QueryRequestOptions) (queryStartTime : Z)
    (typeDecisions : gmap string AuthorizeDecision)
    (authorizedTypes : list string) (targetResults : number)
    (filteredResults : list SearchResult) (nextPageCursor : option string)
    : M Backfill :=
  match fuel with
  | O => fun _ => None
  | S fuel' =>
      nextPage <- call_query this
        {| term := term query; filters := filters query;
           SearchCommon.types := Some authorizedTypes;
           pageCursor := nextPageCursor |} options ;;
      kept <- filterResults this options (results nextPage) typeDecisions ;;
      let filteredResults := filteredResults ++ kept in
      let nextPageCursor := SearchCommon.nextPageCursor nextPage in
      time <- now ;;
      let latencyBudgetExhausted :=
        gt (sub (of_Z time) (of_Z queryStartTime))
           (queryLatencyBudgetMs (config this)) in
      if truthy nextPageCursor
         && lt (of_nat (length filteredResults)) targetResults
         && negb latencyBudgetExhausted
      then backfill fuel' this query options queryStartTime typeDecisions
             authorizedTypes targetResults filteredResults nextPageCursor
      else ret {| filteredResults := filteredResults;
                  nextPageCursor := nextPageCursor;
                  latencyBudgetExhausted := latencyBudgetExhausted |}
  end.

(** The [return] of [query]. *)
Definition page_of (this : t) (page : number) (loop : Backfill)
    : SearchResultSet :=
  let targetResults := mul (add page one) (pageSize (config this)) in
  {| results :=
       slice (filteredResults loop)
         (mul page (pageSize (config this)))
         (mul (add page one) (pageSize (config this)));
     previousPageCursor :=
       if strict_eq page zero then None
       else Some (encodePageCursor (sub page one));
     SearchCommon.nextPageCursor :=
       if negb (latencyBudgetExhausted loop)
          && (truthy (nextPageCursor loop)
              || gt (of_nat (length (filteredResults loop))) targetResults)
       then Some (encodePageCursor (add page one))
       else None |}.

Definition query (fuel : nat) (this : t) (query : SearchQuery)
    (options : QueryRequestOptions) : M SearchResultSet :=
  queryStartTime <- now ;;
  _ <- new_DataLoader ;;
  let requestedTypes :=
    default (Object_keys (types this)) (SearchCommon.types query) in
  typeDecisions <- typeDecisions this requestedTypes options ;;
  let authorizedTypes := authorizedTypes requestedTypes typeDecisions in
  page <- lift (decodePageCursor (pageCursor query)) ;;
  let targetResults := mul (add page one) (pageSize (config this)) in
  loop <- backfill fuel this query options queryStartTime typeDecisions
            authorizedTypes targetResults [] None ;;
  ret (page_of this page loop).

(** ** One wave of authorization requests, read off the callbacks

    The callbacks of the two [map]s decide per element between a plain
    value and a load.  The definitions below name what they decide, so that
    the waves can be stated without the loader. *)

(** The request the gate issues for a type, if any. *)
Definition type_request (this : t) (type : string) : option AuthorizeQuery :=
  match visibilityPermissionOf this type with
  | Some permission =>
      Some {| permission := permission; resourceRef := None |}
  | None => None
  end.

(** The request the filter issues for a result, if any. *)
Definition document_request (this : t)
    (typeDecisions : gmap string AuthorizeDecision) (result : SearchResult)
    : option AuthorizeQuery :=
  if bool_decide (PermissionCommon.result <$> typeDecisions !! type result
                  = Some ALLOW)
  then None
  else match visibilityPermissionOf this (type result) with
       | Some permission =>
           if truthy (authorization (document result))
           then Some {| permission := permission;
                        resourceRef := authorization (document result) |}
           else None
       | None => None
       end.

(** The decisions of the gate: ALLOW where no request is issued, else the
    answers in order. *)
Fixpoint gate_decisions (this : t) (requestedTypes : list string)
    (answers : list AuthorizeDecision) : list AuthorizeDecision :=
  match requestedTypes with
  | [] => []
  | type :: rest =>
      match type_request this type, answers with
      | None, _ => {| result := ALLOW |} :: gate_decisions this rest answers
      | Some _, d :: answers' => d :: gate_decisions this rest answers'
      | Some _, [] => []
      end
  end.

(** The filter as section 4.4 of the specification words it: a result of
    a type decided ALLOW is kept; otherwise a result lacking the permission
    or the resource reference is kept; otherwise it is kept exactly when
    its own decision, the next among [answers], is ALLOW. *)
Fixpoint kept_results (this : t)
    (typeDecisions : gmap string AuthorizeDecision)
    (results : list SearchResult) (answers : list AuthorizeDecision)
    : list SearchResult :=
  match results with
  | [] => []
  | r :: rest =>
      match document_request this typeDecisions r, answers with
      | None, _ => r :: kept_results this typeDecisions rest answers
      | Some _, d :: answers' =>
          if bool_decide (PermissionCommon.result d = ALLOW)
          then r :: kept_results this typeDecisions rest answers'
          else kept_results this typeDecisions rest answers'
      | Some _, [] => []
      end
  end.

(** A callback that returns a plain value ([inl]) or issues one load and
    continues with [then] ([inr]). *)
Definition issue {A B}
    (plan : A -> B + AuthorizeQuery * (AuthorizeDecision -> B)) (x : A)
    : M (awaitable B) :=
  match plan x with
  | inl b => ret (Value b)
  | inr (request, then_) =>
      key <- new_object request ;; ret (Load key then_)
  end.

Fixpoint requests_of {A B}
    (plan : A -> B + AuthorizeQuery * (AuthorizeDecision -> B)) (l : list A)
    : list AuthorizeQuery :=
  match l with
  | [] => []
  | x :: rest =>
      match plan x with
      | inl _ => requests_of plan rest
      | inr (request, _) => request :: requests_of plan rest
      end
  end.

(** The key objects of a wave: consecutive fresh identities. *)
Fixpoint keys_from (n : nat) (requests : list AuthorizeQuery)
    : list (Object AuthorizeQuery) :=
  match requests with
  | [] => []
  | request :: rest => (n, request) :: keys_from (S n) rest
  end.

Fixpoint items_of {A B}
    (plan : A -> B + AuthorizeQuery * (AuthorizeDecision -> B)) (l : list A)
    (n : nat) : list (awaitable B) :=
  match l with
  | [] => []
  | x :: rest =>
      match plan x with
      | inl b => Value b :: items_of plan rest n
      | inr (request, then_) =>
          Load (n, request) then_ :: items_of plan rest (S n)
      end
  end.

(** The values of a wave once its requests are answered in order. *)
Fixpoint fill {A B}
    (plan : A -> B + AuthorizeQuery * (AuthorizeDecision -> B)) (l : list A)
    (answers : list AuthorizeDecision) : list B :=
  match l with
  | [] => []
  | x :: rest =>
      match plan x, answers with
      | inl b, _ => b :: fill plan rest answers
      | inr (_, then_), d :: answers' => then_ d :: fill plan rest answers'
      | inr _, [] => []
      end
  end.

Definition gate_plan (this : t) (type : string)
    : AuthorizeDecision
      + AuthorizeQuery * (AuthorizeDecision -> AuthorizeDecision) :=
  match type_request this type with
  | Some request => inr (request, id)
  | None => inl {| result := ALLOW |}
  end.

Definition filter_plan (this : t)
    (typeDecisions : gmap string AuthorizeDecision) (r : SearchResult)
    : option SearchResult
      + AuthorizeQuery * (AuthorizeDecision -> option SearchResult) :=
  match document_request this typeDecisions r with
  | Some request =>
      inr (request,
           fun decision =>
             if bool_decide (PermissionCommon.result decision = ALLOW)
             then Some r else None)
  | None => inl (Some r)
  end.

(** The one call of a wave, seen from the world: no call for no request;
    an answer of the wrong length is the loader's TypeError. *)
Definition answer (this : t) (options : QueryRequestOptions)
    (requests : list AuthorizeQuery) (w : World)
    : outcome (list AuthorizeDecision) * World :=
  match requests with
  | [] => (Returned [], w)
  | _ =>
      match PermissionAuthorizer.authorize (permissions this) requests
              options w with
      | (Returned values, w') =>
          (if (length values =? length requests)%nat
           then Returned values else Threw length_mismatch, w')
      | (Threw message, w') => (Threw message, w')
      end
  end.

Definition wave_calls (options : QueryRequestOptions)
    (requests : list AuthorizeQuery) : list Call :=
  match requests with
  | [] => []
  | _ => [Authorize requests options]
  end.

(** The state a wave leaves: the world after its call, the call logged,
    the identities of its key objects used up, its values cached. *)
Definition after_wave (this : t) (options : QueryRequestOptions)
    (requests : list AuthorizeQuery) (st : State) : State :=
  {| world := (answer this options requests (world st)).2;
     calls := calls st ++ wave_calls options requests;
     next_object := next_object st + length requests;
     cacheMap :=
       match (answer this options requests (world st)).1 with
       | Returned values =>
           prime (cacheMap st) (keys_from (next_object st) requests) values
       | Threw _ => cacheMap st
       end |}.

Definition gate_requests (this : t) (requestedTypes : list string)
    : list AuthorizeQuery :=
  omap (type_request this) requestedTypes.

Definition document_requests (this : t)
    (typeDecisions : gmap string AuthorizeDecision)
    (results : list SearchResult) : list AuthorizeQuery :=
  omap (document_request this typeDecisions) results.

(** The query the loop sends to the engine. *)
Definition engine_query (query : SearchQuery)
    (authorizedTypes : list string) (nextPageCursor : option string)
    : SearchQuery :=
  {| term := term query; filters := filters query;
     SearchCommon.types := Some authorizedTypes;
     pageCursor := nextPageCursor |}.

(** The state after the engine answered [query]. *)
Definition after_query (this : t) (query : SearchQuery)
    (options : QueryRequestOptions) (st : State) : State :=
  {| world := (SearchCommon.query (searchEngine this) query options
                 (world st)).2;
     calls := calls st ++ [Query query options];
     next_object := next_object st; cacheMap := cacheMap st |}.

(** The state after the clock was read. *)
Definition after_now (st : State) : State :=
  {| world := (Date_now (world st)).2; calls := calls st;
     next_object := next_object st; cacheMap := cacheMap st |}.

(** The state in which the gate starts: the clock was read and the
    loader is new. *)
Definition query_start (st : State) : State :=
  {| world := (Date_now (world st)).2; calls := calls st;
     next_object := next_object st; cacheMap := ∅ |}.

(** The local [requestedTypes]. *)
Definition requestedTypes (this : t) (query : SearchQuery) : list string :=
  default (Object_keys (types this)) (SearchCommon.types query).

(** The engine contract of section 6 of the specification: asked for
    [types], the engine returns results of those types only. *)
Definition honours_types (engine : SearchEngine World QueryTranslator)
    : Prop :=
  forall query options w page w',
    SearchCommon.query engine query options w = (Returned page, w') ->
    forall requested, SearchCommon.types query = Some requested ->
    forall r, r ∈ results page -> type r ∈ requested.

(** A call of the loop: an engine query restricted to [authorizedTypes],
    or a wave of the filter. *)
Definition loop_call (authorizedTypes : list string) (c : Call) : Prop :=
  match c with
  | Query query _ => SearchCommon.types query = Some authorizedTypes
  | Authorize _ _ => True
  end.

(** Section 4.4 again, per result, for an authorizer that decides each
    request by [decision_for]. *)
Definition spec_keeps (this : t)
    (typeDecisions : gmap string AuthorizeDecision)
    (decision_for : AuthorizeQuery -> AuthorizeResult) (r : SearchResult)
    : bool :=
  if bool_decide (PermissionCommon.result <$> typeDecisions !! type r
                  = Some ALLOW)
  then true
  else match visibilityPermissionOf this (type r),
             authorization (document r) with
       | Some permission, Some (String _ _ as reference) =>
           bool_decide
             (decision_for {| permission := permission;
                              resourceRef := Some reference |} = ALLOW)
       | _, _ => true
       end.

(** The value a later duplicate leaves under [key]: what [zipObject]
    stores. *)
Fixpoint last_assigned {V} (pairs : list (string * V)) (key : string)
    (before : option V) : option V :=
  match pairs with
  | [] => before
  | (k, v) :: rest =>
      last_assigned rest key (if bool_decide (k = key) then Some v else before)
  end.

Definition is_engine_call (c : Call) : bool :=
  match c with
  | Query _ _ => true
  | Authorize _ _ => false
  end.

(** The decision of the gate for a type when the authorizer decides each
    request by [policy]. *)
Definition type_decision (this : t)
    (policy : AuthorizeQuery -> AuthorizeResult) (type : string)
    : AuthorizeDecision :=
  match type_request this type with
  | Some request => {| result := policy request |}
  | None => {| result := ALLOW |}
  end.

(** The cache never holds a key object that is yet to be created. *)
Definition fresh (st : State) : Prop :=
  forall r, is_Some (cacheMap st !! r) -> (r < next_object st)%nat.

(** One pass through the body of the [do ... while] loop. *)
Definition iteration (this : t) (query : SearchQuery)
    (options : QueryRequestOptions) (queryStartTime : Z)
    (typeDecisions : gmap string AuthorizeDecision)
    (authorizedTypes : list string)
    (filteredResults : list SearchResult) (nextPageCursor : option string)
    : M Backfill :=
  nextPage <- call_query this
    {| term := term query; filters := filters query;
       SearchCommon.types := Some authorizedTypes;
       pageCursor := nextPageCursor |} options ;;
  kept <- filterResults this options (results nextPage) typeDecisions ;;
  time <- now ;;
  ret {| filteredResults := filteredResults ++ kept;
         nextPageCursor := SearchCommon.nextPageCursor nextPage;
         latencyBudgetExhausted :=
           gt (sub (of_Z time) (of_Z queryStartTime))
              (queryLatencyBudgetMs (config this)) |}.

(** The [while] condition. *)
Definition continues (targetResults : number) (loop : Backfill) : bool :=
  truthy (nextPageCursor loop)
  && lt (of_nat (length (filteredResults loop))) targetResults
  && negb (latencyBudgetExhausted loop).

End Engine.

Arguments t : clear implicits.
Arguments State : clear implicits.

End AuthorizedSearchEngine.

(* ===================================================================== *)
(** * A catalogue, three document types and a policy: the running example *)
(* ===================================================================== *)

Module Scenario.
Import PermissionCommon SearchCommon SearchBackendNode.
Import AuthorizedSearchEngine.

(** The world of the example is its time in milliseconds. *)
Definition World : Type := Z.

(** A time value lies within the range of [Date]. *)
Definition clock (w : World) : Z := Z.min (Z.max w 0) 8640000000000000.

Definition Date_now (w : World) : Z * World := (clock w, w).

Definition hit (type : string) (reference : option string) : SearchResult :=
  {| type := type;
     document := {| title := "title"; text := "text";
                    location := "/" +:+ type;
                    authorization := reference |} |}.

(** The cursor of raw page [i] is [i] plus signs. *)
Definition cursor_of (i : nat) : string :=
  string_of_list_ascii (repeat "+"%char i).

(** An engine over fixed raw pages.  It returns the results of the types
    it is asked for, and every call takes [latency] milliseconds. *)
Definition paged (pages : list (list SearchResult)) (latency : Z)
    : SearchEngine World unit :=
  {| SearchCommon.setTranslator := fun _ w => (Returned tt, w);
     SearchCommon.index := fun _ _ w => (Returned (Fulfilled tt), w);
     SearchCommon.query := fun query _ w =>
       let i := match pageCursor query with
                | None => 0%nat
                | Some c => String.length c
                end in
       let wanted (r : SearchResult) :=
         match SearchCommon.types query with
         | Some requested => bool_decide (type r ∈ requested)
         | None => true
         end in
       (Returned
          {| results := List.filter wanted (nth i pages []);
             SearchCommon.nextPageCursor :=
               if (S i <? length pages)%nat then Some (cursor_of (S i))
               else None;
             previousPageCursor := None |},
        w + latency) |}.

(** An engine that never runs out of pages. *)
Definition endless (latency : Z) : SearchEngine World unit :=
  {| SearchCommon.setTranslator := fun _ w => (Returned tt, w);
     SearchCommon.index := fun _ _ w => (Returned (Fulfilled tt), w);
     SearchCommon.query := fun query _ w =>
       (Returned {| results := [hit "docs" None];
                    SearchCommon.nextPageCursor := Some "more";
                    previousPageCursor := None |},
        w + latency) |}.

(** An engine whose index is out of reach: [index] returns a promise that
    is rejected. *)
Definition unreachable : SearchEngine World unit :=
  {| SearchCommon.setTranslator := fun _ w => (Returned tt, w);
     SearchCommon.index := fun _ _ w =>
       (Returned (Rejected "index unavailable"), w);
     SearchCommon.query := fun _ _ w =>
       (Threw "index unavailable", w) |}.

(** An authorizer that decides every request by [policy], at once. *)
Definition deciding (policy : AuthorizeQuery -> AuthorizeResult)
    : PermissionAuthorizer.t World :=
  {| PermissionAuthorizer.authorize := fun requests _ w =>
       (Returned (map (fun request => {| result := policy request |})
                    requests), w) |}.

Definition catalog_read : Permission := {| name := "catalog.entity.read" |}.
Definition secrets_read : Permission := {| name := "secrets.read" |}.

Definition registry : list (string * DocumentTypeInfo) :=
  [("catalog", {| visibilityPermission := Some catalog_read |});
   ("docs", {| visibilityPermission := None |});
   ("secrets", {| visibilityPermission := Some secrets_read |})].

(** Secrets are denied; the catalog is decided per entity, and only
    [component:a] is allowed. *)
Definition policy (request : AuthorizeQuery) : AuthorizeResult :=
  if bool_decide (permission request = secrets_read) then DENY
  else match resourceRef request with
       | None => CONDITIONAL
       | Some reference =>
           if bool_decide (reference = "component:a") then ALLOW else DENY
       end.

Definition raw_pages : list (list SearchResult) :=
  [[hit "catalog" (Some "component:a"); hit "catalog" (Some "component:b");
    hit "docs" None; hit "secrets" (Some "vault:x"); hit "notes" None];
   [hit "catalog" (Some "component:a"); hit "catalog" None]].

Definition with_page_size (n : Z) : option PartialConfig :=
  Some {| given_queryLatencyBudgetMs := None;
          given_pageSize := Some (of_Z n) |}.

(** The wrapper of the example, with pages of [n] results. *)
Definition wrapper (n : Z) : AuthorizedSearchEngine.t World unit :=
  constructor (paged raw_pages 10) registry (deciding policy)
    (with_page_size n).

(** The wrapper over the endless engine, each call taking two seconds
    against the default budget of one. *)
Definition slow_wrapper : AuthorizedSearchEngine.t World unit :=
  constructor (endless 2000) registry (deciding (fun _ => ALLOW)) None.

Definition initial : State World :=
  {| world := 0; calls := []; next_object := 0%nat; cacheMap := ∅ |}.

Definition everything : SearchQuery :=
  {| term := "a"; filters := None; SearchCommon.types := None;
     pageCursor := None |}.

Definition with_notes : SearchQuery :=
  {| term := "a"; filters := None;
     SearchCommon.types := Some ["catalog"; "notes"; "secrets"];
     pageCursor := None |}.

Definition anonymous : QueryRequestOptions := {| token := None |}.

(** The key of the catalog entity [component:a]. *)
Definition entity_a : AuthorizeQuery :=
  {| permission := catalog_read; resourceRef := Some "component:a" |}.

(** The decisions of the gate when everything is requested. *)
Definition gate_decided : gmap string AuthorizeDecision :=
  zipObject ["catalog"; "docs"; "secrets"]
    [{| result := CONDITIONAL |}; {| result := ALLOW |};
     {| result := DENY |}].

(** The decisions of the gate for [with_notes]. *)
Definition notes_decided : gmap string AuthorizeDecision :=
  zipObject ["catalog"; "notes"; "secrets"]
    [{| result := CONDITIONAL |}; {| result := ALLOW |};
     {| result := DENY |}].

Definition first_raw_page : list SearchResult := nth 0 raw_pages [].

(** The policy on the three references of the first raw page. *)
Definition first_answers : list AuthorizeDecision :=
  [{| result := ALLOW |}; {| result := DENY |}; {| result := DENY |}].

(** What the filter keeps of the first raw page. *)
Definition first_kept : list SearchResult :=
  [hit "catalog" (Some "component:a"); hit "docs" None; hit "notes" None].

(** The first page of everything, two results a page. *)
Definition first_page : SearchResultSet :=
  {| results := [hit "catalog" (Some "component:a"); hit "docs" None];
     SearchCommon.nextPageCursor := Some "MQ==";
     previousPageCursor := None |}.

(** The first page of [with_notes], two results a page. *)
Definition notes_page : SearchResultSet :=
  {| results := [hit "catalog" (Some "component:a"); hit "notes" None];
     SearchCommon.nextPageCursor := Some "MQ==";
     previousPageCursor := None |}.

(** What the loop of the slow wrapper holds after its one iteration. *)
Definition overrun : Backfill :=
  {| filteredResults := [hit "docs" None];
     nextPageCursor := Some "more";
     latencyBudgetExhausted := true |}.

(** The calls to [authorize] whose requests include [key]. *)
Definition authorize_calls_with (key : AuthorizeQuery) (calls : list Call)
    : list Call :=
  List.filter (fun c => match c with
                        | Authorize requests _ => bool_decide (key ∈ requests)
                        | Query _ _ => false
                        end) calls.

(** The calls of the query for everything, with pages of 25 results: the
    gate asks for the two permissions, then each raw page brings its own
    wave. *)
Definition calls_of_everything : option (list Call) :=
  (fun run => calls run.2)
    <$> AuthorizedSearchEngine.query Date_now 5 (wrapper 25) everything
          anonymous initial.

End Scenario.

(* ===================================================================== *)
(** * What a run shows: its calls, its answers, its policy *)
(* ===================================================================== *)

Module Observations.
Import PermissionCommon SearchCommon SearchBackendNode.
Import AuthorizedSearchEngine.

Definition is_authorize_call (c : Call) : bool :=
  match c with
  | Authorize _ _ => true
  | Query _ _ => false
  end.

(** A call that carries the caller's criteria and options: an engine call
    with the [term] and [filters] of [query], any call with [options]. *)
Definition forwards (query : SearchQuery) (options : QueryRequestOptions)
    (c : Call) : Prop :=
  match c with
  | Query sent options' =>
      term sent = term query /\ filters sent = filters query
      /\ options' = options
  | Authorize _ options' => options' = options
  end.

Section Observations.

Context {World QueryTranslator : Type}.

(** The calls of one iteration of the loop, seen from its engine call
    [b.1] (the cursor sent) and [b.2] (the results that came back): the
    engine call, then the wave of the filter, if it asks anything. *)
Definition block (this : t World QueryTranslator) (query : SearchQuery)
    (options : QueryRequestOptions)
    (decisions : gmap string AuthorizeDecision) (authorized : list string)
    (b : option string * list SearchResult) : list Call :=
  Query (engine_query query authorized b.1) options
  :: wave_calls options (document_requests this decisions b.2).

(** The calls of consecutive iterations. *)
Definition loop_trace (this : t World QueryTranslator) (query : SearchQuery)
    (options : QueryRequestOptions)
    (decisions : gmap string AuthorizeDecision) (authorized : list string)
    (blocks : list (option string * list SearchResult)) : list Call :=
  concat (map (block this query options decisions authorized) blocks).

(** The results of a block are those of the engine's answer to its
    call. *)
Definition answered (this : t World QueryTranslator) (query : SearchQuery)
    (options : QueryRequestOptions) (authorized : list string)
    (b : option string * list SearchResult) : Prop :=
  exists w response w',
    SearchCommon.query (searchEngine this)
      (engine_query query authorized b.1) options w
    = (Returned response, w')
    /\ b.2 = results response.

(** The authorizer decides every request by [policy], whatever the
    state of the world. *)
Definition decides_by (this : t World QueryTranslator)
    (policy : AuthorizeQuery -> AuthorizeResult) : Prop :=
  forall requests options w,
    (PermissionAuthorizer.authorize (permissions this) requests options w).1
    = Returned (map (fun request => {| result := policy request |})
                  requests).

(** No registered type has a visibility permission. *)
Definition unrestricted (this : t World QueryTranslator) : Prop :=
  Forall (fun entry => visibilityPermission entry.2 = None) (types this).

End Observations.

End Observations.

(* ===================================================================== *)
(** * More of the running example: failures and further pages *)
(* ===================================================================== *)

Module Cases.
Import JsNumber.
Import PermissionCommon SearchCommon SearchBackendNode.
Import AuthorizedSearchEngine Scenario.

(** The query for everything with the cursor [c]. *)
Definition everything_from (c : string) : SearchQuery :=
  {| term := "a"; filters := None; SearchCommon.types := None;
     pageCursor := Some c |}.

(** The query for no type at all. *)
Definition nothing : SearchQuery :=
  {| term := "a"; filters := None; SearchCommon.types := Some [];
     pageCursor := None |}.

(** An authorizer whose backend is down. *)
Definition failing : PermissionAuthorizer.t World :=
  {| PermissionAuthorizer.authorize := fun _ _ w =>
       (Threw "permission backend unavailable", w + 5) |}.

(** An authorizer that answers with no decision at all. *)
Definition silent : PermissionAuthorizer.t World :=
  {| PermissionAuthorizer.authorize := fun _ _ w => (Returned [], w + 5) |}.

(** An authorizer that decides on types and fails on documents. *)
Definition failing_on_documents : PermissionAuthorizer.t World :=
  {| PermissionAuthorizer.authorize := fun requests _ w =>
       if forallb (fun request => negb (truthy (resourceRef request)))
            requests
       then (Returned (map (fun request => {| result := policy request |})
                         requests), w)
       else (Threw "permission backend unavailable", w + 5) |}.

(** A registry without any visibility permission. *)
Definition open_registry : list (string * DocumentTypeInfo) :=
  [("docs", {| visibilityPermission := None |});
   ("notes", {| visibilityPermission := None |})].

Definition guarded_by (authorizer : PermissionAuthorizer.t World)
    : AuthorizedSearchEngine.t World unit :=
  constructor (paged raw_pages 10) registry authorizer (with_page_size 2).

Definition open_wrapper : AuthorizedSearchEngine.t World unit :=
  constructor (paged raw_pages 10) open_registry (deciding policy)
    (with_page_size 2).

Definition down_wrapper : AuthorizedSearchEngine.t World unit :=
  constructor unreachable registry (deciding policy) None.

(** The first answer of the paged engine asked for catalog and docs. *)
Definition first_response : SearchResultSet :=
  {| results := [hit "catalog" (Some "component:a");
                 hit "catalog" (Some "component:b"); hit "docs" None];
     SearchCommon.nextPageCursor := Some "+";
     previousPageCursor := None |}.

(** What the loop holds after its first iteration on the example. *)
Definition first_loop : Backfill :=
  {| filteredResults := [hit "catalog" (Some "component:a"); hit "docs" None];
     nextPageCursor := Some "+";
     latencyBudgetExhausted := false |}.

(** The second page of everything, two results a page. *)
Definition second_page : SearchResultSet :=
  {| results := [hit "catalog" (Some "component:a"); hit "catalog" None];
     SearchCommon.nextPageCursor := None;
     previousPageCursor := Some "MA==" |}.

(** The page of the query for no type. *)
Definition empty_page : SearchResultSet :=
  {| results := []; SearchCommon.nextPageCursor := None;
     previousPageCursor := None |}.

(** The first page of the open wrapper. *)
Definition open_page : SearchResultSet :=
  {| results := [hit "docs" None; hit "notes" None];
     SearchCommon.nextPageCursor := Some "MQ==";
     previousPageCursor := None |}.

(** Secrets, one without a resource reference, as an engine that ignores
    the requested types might return them. *)
Definition leaky_page : list SearchResult :=
  [hit "secrets" None; hit "secrets" (Some "vault:x")].

(** The decisions of the gate on the requests of the example. *)
Definition gate_answers : list AuthorizeDecision :=
  [{| result := CONDITIONAL |}; {| result := DENY |}].

End Cases.

(* ===================================================================== *)
(** * Observers in the world, an observed example, a careless engine *)
(* ===================================================================== *)

Module Observers.
Import PermissionCommon SearchCommon SearchBackendNode.
Import AuthorizedSearchEngine.

Section Observers.

Context {World QueryTranslator : Type}.
Variable Date_now : World -> Z * World.

(** An observer of the engine, kept in the world: [log] holds the answers
    the engine has given, oldest first.  The engine adds each answer it
    gives, and neither the authorizer nor the clock touches the log. *)
Definition records (this : t World QueryTranslator)
    (log : World -> list SearchResultSet) : Prop :=
  (forall sent options w response w',
     SearchCommon.query (searchEngine this) sent options w
     = (Returned response, w') ->
     log w' = log w ++ [response])
  /\ (forall requests options w,
        log (PermissionAuthorizer.authorize (permissions this) requests
               options w).2 = log w)
  /\ (forall w, log (Date_now w).2 = log w).

(** An observer of the clock, kept in the world: [began] holds the time at
    which each call of the engine was begun, oldest first.  The authorizer
    does not touch it. *)
Definition times_calls (this : t World QueryTranslator)
    (clock : World -> Z) (began : World -> list Z) : Prop :=
  (forall sent options w,
     began (SearchCommon.query (searchEngine this) sent options w).2
     = began w ++ [clock w])
  /\ (forall requests options w,
        began (PermissionAuthorizer.authorize (permissions this) requests
                 options w).2 = began w).

End Observers.

End Observers.

Module Recorded.
Import JsNumber.
Import PermissionCommon SearchCommon SearchBackendNode.
Import AuthorizedSearchEngine.

(** A world that keeps, besides its time in milliseconds, the time at
    which each engine call was begun and the answers the engine gave. *)
Record World : Type :=
  { time : Z; began : list Z; answers : list SearchResultSet }.

Definition clock (w : World) : Z := Scenario.clock (time w).

Definition Date_now (w : World) : Z * World := (clock w, w).

Definition at_time (w : World) (t : Z) : World :=
  {| time := t; began := began w; answers := answers w |}.

(** An engine of the running example, observed. *)
Definition recording (engine : SearchEngine Scenario.World unit)
    : SearchEngine World unit :=
  {| SearchCommon.setTranslator := fun translator w =>
       let '(o, t) := SearchCommon.setTranslator engine translator (time w) in
       (o, at_time w t);
     SearchCommon.index := fun type documents w =>
       let '(o, t) := SearchCommon.index engine type documents (time w) in
       (o, at_time w t);
     SearchCommon.query := fun sent options w =>
       let '(o, t) := SearchCommon.query engine sent options (time w) in
       (o, {| time := t;
              began := began w ++ [clock w];
              answers := match o with
                         | Returned response => answers w ++ [response]
                         | Threw _ => answers w
                         end |}) |}.

(** An authorizer of the running example, in the observed world. *)
Definition observed (authorizer : PermissionAuthorizer.t Scenario.World)
    : PermissionAuthorizer.t World :=
  {| PermissionAuthorizer.authorize := fun requests options w =>
       let '(o, t) :=
         PermissionAuthorizer.authorize authorizer requests options
           (time w) in
       (o, at_time w t) |}.

(** The wrapper of the example, observed; every engine call takes
    [latency] milliseconds. *)
Definition wrapper (latency n : Z) : AuthorizedSearchEngine.t World unit :=
  constructor (recording (Scenario.paged Scenario.raw_pages latency))
    Scenario.registry (observed (Scenario.deciding Scenario.policy))
    (Scenario.with_page_size n).

(** The wrapper over the endless engine, observed, with the default
    budget of a second and an all-allowing authorizer. *)
Definition endless_wrapper (latency : Z)
    : AuthorizedSearchEngine.t World unit :=
  constructor (recording (Scenario.endless latency)) Scenario.registry
    (observed (Scenario.deciding (fun _ => ALLOW))) None.

Definition initial : State World :=
  {| world := {| time := 0; began := []; answers := [] |};
     calls := []; next_object := 0%nat; cacheMap := ∅ |}.

(** The page of the endless wrapper when a call takes 600 milliseconds:
    the second iteration ends after the budget of a second. *)
Definition late_page : SearchResultSet :=
  {| results := [Scenario.hit "docs" None; Scenario.hit "docs" None];
     SearchCommon.nextPageCursor := None;
     previousPageCursor := None |}.


End Recorded.

Module Careless.
Import JsNumber.
Import PermissionCommon SearchCommon SearchBackendNode.
Import AuthorizedSearchEngine Scenario.

(** An engine that ignores the types it is asked for, and returns a secret
    that has no resource reference. *)
Definition careless : SearchEngine World unit :=
  {| SearchCommon.setTranslator := fun _ w => (Returned tt, w);
     SearchCommon.index := fun _ _ w => (Returned (Fulfilled tt), w);
     SearchCommon.query := fun _ _ w =>
       (Returned {| results := [hit "secrets" None];
                    SearchCommon.nextPageCursor := None;
                    previousPageCursor := None |}, w) |}.

Definition careless_wrapper : AuthorizedSearchEngine.t World unit :=
  constructor careless registry (deciding policy) None.

(** The page the wrapper returns over the careless engine. *)
Definition leaked_page : SearchResultSet :=
  {| results := [hit "secrets" None];
     SearchCommon.nextPageCursor := None;
     previousPageCursor := None |}.

End Careless.

(* ===================================================================== *)
(** * Facts about Numbers: integers below 2^53 are exact *)
(* ===================================================================== *)

Module JsNumberFacts.
Import JsNumber.

Lemma normal_double s m e : 0 < m -> normal s (2 * m) e = normal s m (e + 1).
Proof. destruct m as [|p|p]; [lia| |lia]. intros _. reflexivity. Qed.

Lemma normal_shift s m k e :
  0 < m -> 0 <= k -> normal s (m * 2 ^ k) e = normal s m (e + k).
Proof.
  intros Hm Hk. revert e. pattern k. apply natlike_ind; [| |exact Hk].
  - intros e. by rewrite Z.pow_0_r, Z.mul_1_r, Z.add_0_r.
  - intros j Hj IH e. rewrite Z.pow_succ_r by done.
    replace (m * (2 * 2 ^ j)) with (2 * (m * 2 ^ j)) by lia.
    rewrite normal_double by nia. rewrite IH. f_equal. lia.
Qed.

Lemma strip2_value p e :
  0 <= e ->
  0 <= (strip2 p e).2
  /\ Zpos (strip2 p e).1 * 2 ^ (strip2 p e).2 = Zpos p * 2 ^ e.
Proof.
  revert e. induction p as [p IH|p IH|]; intros e He; simpl; [done| |done].
  destruct (IH (e + 1)) as [H1 H2]; [lia|]. split; [done|].
  rewrite H2, Z.pow_add_r, Z.pow_1_r by lia. lia.
Qed.

Lemma normal_represents s m e :
  0 <= m -> 0 <= e -> represents (normal s m e) (signed s (m * 2 ^ e)).
Proof.
  intros Hm He. destruct m as [|p|p]; [| |lia].
  - exists s, 0, 0. simpl. by destruct s.
  - unfold normal. pose proof (strip2_value p e He) as [H1 H2].
    destruct (strip2 p e) as [p' e']. simpl in *.
    exists s, (Zpos p'), e'. split; [done|]. split; [lia|]. split; [done|].
    by rewrite H2.
Qed.

Lemma ilog2_rat_int a : 0 < a -> ilog2_rat a 1 = Z.log2 a.
Proof.
  intros Ha. unfold ilog2_rat. change (Z.log2 1) with 0.
  rewrite Z.sub_0_r.
  pose proof (Z.log2_nonneg a) as Hl.
  pose proof (Z.log2_spec a Ha) as [Hlo _].
  rewrite (Zle_imp_le_bool _ _ Hl).
  destruct (a <? 1 * 2 ^ Z.log2 a) eqn:Hlt; [|done].
  apply Z.ltb_lt in Hlt. lia.
Qed.

(** A positive integer below [2^53] rounds to itself. *)
Lemma round_int s a : 0 < a < 2 ^ 53 -> round s a 1 = normal s a 0.
Proof.
  intros [Ha Hlt]. unfold round.
  rewrite (proj2 (Z.eqb_neq a 0)) by lia.
  rewrite ilog2_rat_int by done.
  pose proof (Z.log2_nonneg a) as Hl.
  assert (Z.log2 a < 53) as Hl53 by (by apply Z.log2_lt_pow2).
  rewrite Z.max_l by lia.
  set (k := 52 - Z.log2 a).
  replace (Z.log2 a - 52) with (- k) by (unfold k; lia).
  assert (0 <= k) as Hk by (unfold k; lia).
  assert (0 < 2 ^ k) as Hpow by (by apply Z.pow_pos_nonneg).
  assert ((if 0 <=? - k then a else a * 2 ^ (- - k))
          / (if 0 <=? - k then 1 * 2 ^ (- k) else 1) = a * 2 ^ k) as ->.
  { destruct (0 <=? - k) eqn:Hs.
    - apply Z.leb_le in Hs. assert (k = 0) as -> by lia. simpl.
      rewrite Z.div_1_r. lia.
    - rewrite Z.opp_involutive, Z.div_1_r. done. }
  assert ((if 0 <=? - k then a else a * 2 ^ (- - k))
          mod (if 0 <=? - k then 1 * 2 ^ (- k) else 1) = 0) as ->.
  { destruct (0 <=? - k) eqn:Hs.
    - apply Z.leb_le in Hs. assert (k = 0) as -> by lia. simpl.
      apply Z.mod_1_r.
    - apply Z.mod_1_r. }
  assert ((2 * 0 <? (if 0 <=? - k then 1 * 2 ^ (- k) else 1)) = true) as ->.
  { apply Z.ltb_lt. destruct (0 <=? - k) eqn:Hs; [|lia].
    apply Z.leb_le in Hs. assert (k = 0) as -> by lia. simpl. lia. }
  rewrite (proj2 (Z.eqb_neq (a * 2 ^ k) 0)) by nia.
  rewrite Z.log2_mul_pow2 by lia.
  rewrite (proj2 (Z.leb_gt 1024 _)) by (unfold k; lia).
  rewrite normal_shift by lia. f_equal. lia.
Qed.

Lemma of_Z_exact z :
  Z.abs z < 2 ^ 53 -> of_Z z = normal (z <? 0) (Z.abs z) 0.
Proof.
  intros Hz. unfold of_Z. destruct (decide (z = 0)) as [->|Hne]; [done|].
  apply round_int. lia.
Qed.

Lemma of_Z_represents z : Z.abs z < 2 ^ 53 -> represents (of_Z z) z.
Proof.
  intros Hz. rewrite of_Z_exact by done.
  replace z with (signed (z <? 0) (Z.abs z * 2 ^ 0)) at 3.
  - apply normal_represents; lia.
  - rewrite Z.mul_1_r. unfold signed. destruct (z <? 0) eqn:Hs.
    + apply Z.ltb_lt in Hs. lia.
    + apply Z.ltb_ge in Hs. lia.
Qed.

Lemma represents_opp x z : represents x z -> represents (opp x) (- z).
Proof.
  intros (s & m & e & -> & Hm & He & ->).
  exists (negb s), m, e. repeat split; try done.
  unfold signed. destruct s; simpl; lia.
Qed.

Lemma signed_align s1 m1 e1 s2 m2 e2 :
  0 <= e1 -> 0 <= e2 ->
  signed s1 (m1 * 2 ^ e1)
  = signed s1 (m1 * 2 ^ (e1 - Z.min e1 e2)) * 2 ^ Z.min e1 e2
  /\ signed s2 (m2 * 2 ^ e2)
     = signed s2 (m2 * 2 ^ (e2 - Z.min e1 e2)) * 2 ^ Z.min e1 e2.
Proof.
  intros H1 H2.
  assert (forall s m e, 0 <= e -> Z.min e1 e2 <= e ->
            signed s (m * 2 ^ e)
            = signed s (m * 2 ^ (e - Z.min e1 e2)) * 2 ^ Z.min e1 e2) as H.
  { intros s m e He Hmin.
    replace (2 ^ e) with (2 ^ (e - Z.min e1 e2) * 2 ^ Z.min e1 e2).
    - unfold signed. destruct s; lia.
    - rewrite <- Z.pow_add_r by lia. f_equal. lia. }
  split; apply H; lia.
Qed.

(** Addition of integers is the rounding of their sum. *)
Lemma add_represents x y a b :
  represents x a -> represents y b -> a + b <> 0 ->
  add x y = of_Z (a + b).
Proof.
  intros (s1 & m1 & e1 & -> & Hm1 & He1 & ->)
         (s2 & m2 & e2 & -> & Hm2 & He2 & ->) Hne.
  destruct (signed_align s1 m1 e1 s2 m2 e2 He1 He2) as [Ha Hb].
  rewrite Ha, Hb in *.
  unfold add, align.
  set (e := Z.min e1 e2) in *.
  set (a1 := signed s1 (m1 * 2 ^ (e1 - e))) in *.
  set (a2 := signed s2 (m2 * 2 ^ (e2 - e))) in *.
  assert (0 <= e) as He by (unfold e; lia).
  assert (0 < 2 ^ e) as Hpow by (by apply Z.pow_pos_nonneg).
  rewrite (proj2 (Z.eqb_neq (a1 + a2) 0)) by nia.
  unfold frac. rewrite (Zle_imp_le_bool _ _ He).
  unfold of_Z. f_equal.
  - destruct (a1 + a2 <? 0) eqn:Hs; symmetry.
    + apply Z.ltb_lt in Hs. apply Z.ltb_lt. nia.
    + apply Z.ltb_ge in Hs. apply Z.ltb_ge. nia.
  - rewrite <- Z.mul_add_distr_r, Z.abs_mul. f_equal. lia.
Qed.

Lemma compare_represents x y a b :
  represents x a -> represents y b -> compare x y = Some (a ?= b).
Proof.
  intros (s1 & m1 & e1 & -> & Hm1 & He1 & ->)
         (s2 & m2 & e2 & -> & Hm2 & He2 & ->).
  destruct (signed_align s1 m1 e1 s2 m2 e2 He1 He2) as [Ha Hb].
  rewrite Ha, Hb. unfold compare, align. f_equal.
  apply Zmult_compare_compat_r.
  apply Z.lt_gt, Z.pow_pos_nonneg; lia.
Qed.

(** [now - start > budget] on integer milliseconds. *)
Lemma elapsed_exceeds time start budget :
  0 <= start < 2 ^ 53 -> 0 <= time < 2 ^ 53 -> Z.abs budget < 2 ^ 53 ->
  gt (sub (of_Z time) (of_Z start)) (of_Z budget)
  = (budget <? time - start).
Proof.
  intros Hs Ht Hb. unfold gt, lt, sub.
  assert (represents (add (of_Z time) (opp (of_Z start))) (time - start))
    as Hdiff.
  { destruct (decide (time - start = 0)) as [Heq|Hne].
    - assert (time = start) as -> by lia.
      rewrite of_Z_exact by lia.
      pose proof (normal_represents (start <? 0) (Z.abs start) 0) as Hr.
      destruct Hr as (s & m & e & Heq' & Hm & He & Hv); [lia|lia|].
      rewrite Heq'. unfold opp, add, align.
      rewrite Z.min_id, Z.sub_diag, Z.pow_0_r, Z.mul_1_r.
      assert (signed s m + signed (negb s) m = 0) as ->.
      { unfold signed. destruct s; simpl; lia. }
      simpl. exists (s && negb s), 0, 0. rewrite Heq.
      repeat split; try done. by destruct s.
    - rewrite (add_represents _ _ time (- start)).
      + apply of_Z_represents. lia.
      + apply of_Z_represents. lia.
      + apply represents_opp, of_Z_represents. lia.
      + lia. }
  rewrite (compare_represents _ _ budget (time - start));
    [|by apply of_Z_represents|done].
  unfold Z.ltb. by destruct (budget ?= time - start).
Qed.

(** ** Pages as integers *)

Lemma of_Z_nonneg p :
  0 <= p < 2 ^ 53 ->
  exists m e, of_Z p = Fin false m e /\ 0 <= m /\ 0 <= e /\ m * 2 ^ e = p.
Proof.
  intros Hp.
  destruct (of_Z_represents p) as (s & m & e & Hfin & Hm & He & Hv); [lia|].
  assert (s = false) as ->.
  { rewrite of_Z_exact in Hfin by lia.
    rewrite (proj2 (Z.ltb_ge p 0)) in Hfin by lia.
    unfold normal in Hfin. destruct (Z.abs p); try destruct (strip2 _ _);
      congruence. }
  exists m, e. simpl in Hv. by repeat split.
Qed.

Lemma one_represents : represents one 1.
Proof. by exists false, 1, 0. Qed.

(** [page + 1] *)
Lemma next_page p : 0 <= p < 2 ^ 53 -> add (of_Z p) one = of_Z (p + 1).
Proof.
  intros Hp. apply add_represents; [|apply one_represents|lia].
  apply of_Z_represents. lia.
Qed.

(** [page - 1] *)
Lemma previous_page p : 0 < p < 2 ^ 53 -> sub (of_Z p) one = of_Z (p - 1).
Proof.
  intros Hp. destruct (decide (p = 1)) as [->|Hne]; [done|].
  unfold sub. apply (add_represents _ _ p (-1)); [| |lia].
  - apply of_Z_represents. lia.
  - apply (represents_opp one 1), one_represents.
Qed.

(** [page === 0] *)
Lemma is_first_page p :
  0 <= p < 2 ^ 53 -> strict_eq (of_Z p) zero = (p =? 0).
Proof.
  intros Hp. unfold strict_eq.
  rewrite (compare_represents (of_Z p) zero p 0).
  - destruct (Z.compare_spec p 0) as [->|Hlt|Hgt]; [done| |];
      symmetry; apply Z.eqb_neq; lia.
  - apply of_Z_represents. lia.
  - by exists false, 0, 0.
Qed.

(** [page * pageSize] *)
Lemma mul_of_Z a b :
  0 <= a < 2 ^ 53 -> 0 <= b < 2 ^ 53 -> mul (of_Z a) (of_Z b) = of_Z (a * b).
Proof.
  intros Ha Hb.
  destruct (of_Z_nonneg a Ha) as (m1 & e1 & -> & Hm1 & He1 & <-).
  destruct (of_Z_nonneg b Hb) as (m2 & e2 & -> & Hm2 & He2 & <-).
  unfold mul, frac. rewrite (Zle_imp_le_bool 0 (e1 + e2)) by lia.
  unfold of_Z. simpl xorb.
  assert (0 <= m1 * 2 ^ e1 * (m2 * 2 ^ e2)) as Hprod.
  { apply Z.mul_nonneg_nonneg; apply Z.mul_nonneg_nonneg; try done;
      by apply Z.pow_nonneg. }
  rewrite (proj2 (Z.ltb_ge _ 0)) by done.
  rewrite Z.abs_eq by done. f_equal.
  rewrite Z.pow_add_r by done. lia.
Qed.

Lemma ToIntegerOrInfinity_of_Z p :
  0 <= p < 2 ^ 53 -> ToIntegerOrInfinity (of_Z p) = Integer p.
Proof.
  intros Hp. destruct (of_Z_nonneg p Hp) as (m & e & -> & Hm & He & <-).
  simpl. by rewrite (Zle_imp_le_bool 0 e) by done.
Qed.

(** [l.slice(from, to)] on integers. *)
Lemma slice_of_Z {A} (l : list A) from to :
  0 <= from <= to -> to < 2 ^ 53 ->
  slice l (of_Z from) (of_Z to)
  = take (Z.to_nat (to - from)) (drop (Z.to_nat from) l).
Proof.
  intros Hft Hto. unfold slice.
  rewrite !ToIntegerOrInfinity_of_Z by lia. simpl.
  rewrite (proj2 (Z.ltb_ge from 0)), (proj2 (Z.ltb_ge to 0)) by lia.
  set (len := Z.of_nat (length l)).
  destruct (Z.le_gt_cases len from) as [Hout|Hin].
  - rewrite !Z.min_r by lia. rewrite Z.sub_diag. simpl.
    rewrite (drop_ge l (Z.to_nat from)) by (unfold len in Hout; lia).
    by rewrite take_nil.
  - rewrite (Z.min_l from len) by lia.
    destruct (Z.le_gt_cases to len) as [Hle|Hgt].
    + by rewrite Z.min_l by lia.
    + rewrite Z.min_r by lia.
      rewrite !take_ge; [done| |];
        rewrite length_drop; unfold len in *; lia.
Qed.

End JsNumberFacts.

(* ===================================================================== *)
(** * Facts about the cursor codec *)
(* ===================================================================== *)

Module CursorFacts.
Import JsNumber JsNumberFacts.

(** ** Decimal digits *)

Lemma digits_below_digits fuel z acc :
  0 <= z -> Forall digit acc -> Forall digit (digits_below fuel z acc).
Proof.
  revert z acc. induction fuel as [|fuel IH]; intros z acc Hz Hacc; [done|].
  simpl. assert (digit (48 + z mod 10)) as Hd.
  { unfold digit. pose proof (Z.mod_pos_bound z 10). lia. }
  destruct (z <? 10); [by constructor|].
  apply IH; [|by constructor]. apply Z.div_pos; lia.
Qed.

Lemma digits_below_cons fuel z acc :
  acc <> [] -> digits_below fuel z acc <> [].
Proof.
  revert z acc. induction fuel as [|fuel IH]; intros z acc Hacc; [done|].
  simpl. destruct (z <? 10); [done|]. by apply IH.
Qed.

Lemma decimal_digits z : 0 <= z -> Forall digit (decimal z).
Proof. intros Hz. by apply digits_below_digits. Qed.

Lemma decimal_nonempty z : decimal z <> [].
Proof.
  unfold decimal. simpl. destruct (z <? 10); [done|].
  by apply digits_below_cons.
Qed.

Lemma digit_value_digit d :
  0 <= d < 10 -> digit_value 10 (48 + d) = Some d.
Proof.
  intros Hd. unfold digit_value.
  rewrite (proj2 (Z.leb_le 48 (48 + d))) by lia.
  rewrite (proj2 (Z.leb_le (48 + d) 57)) by lia. simpl.
  replace (48 + d - 48) with d by lia.
  by rewrite (proj2 (Z.ltb_lt d 10)) by lia.
Qed.

Lemma digits_below_value fuel z acc a :
  0 <= z < 10 ^ Z.of_nat fuel ->
  exists n, 0 <= n
    /\ digits_value 10 a (digits_below fuel z acc)
       = digits_value 10 (a * 10 ^ n + z) acc.
Proof.
  revert z acc a.
  induction fuel as [|fuel IH]; intros z acc a Hz.
  - exists 0. simpl in *. split; [done|]. f_equal. lia.
  - simpl digits_below. destruct (z <? 10) eqn:Hlt.
    + apply Z.ltb_lt in Hlt. exists 1. split; [done|]. simpl.
      rewrite Z.mod_small by lia. rewrite digit_value_digit by lia.
      f_equal; lia.
    + apply Z.ltb_ge in Hlt.
      destruct (IH (z / 10) ((48 + z mod 10) :: acc) a) as (n & Hn & Heq).
      { split; [apply Z.div_pos; lia|].
        apply Z.div_lt_upper_bound; [lia|].
        rewrite Nat2Z.inj_succ, Z.pow_succ_r in Hz by lia. lia. }
      exists (n + 1). split; [lia|]. rewrite Heq. simpl.
      pose proof (Z.mod_pos_bound z 10).
      rewrite digit_value_digit by lia. f_equal.
      rewrite Z.pow_add_r, Z.pow_1_r by lia.
      pose proof (Z.div_mod z 10). lia.
Qed.

Lemma below_pow10_log2 z :
  0 <= z -> z < 10 ^ Z.of_nat (S (Z.to_nat (Z.log2 z))).
Proof.
  intros Hz. pose proof (Z.log2_nonneg z) as Hl.
  rewrite Nat2Z.inj_succ, Z2Nat.id by done.
  destruct (decide (z = 0)) as [->|Hne].
  - apply Z.pow_pos_nonneg; lia.
  - pose proof (Z.log2_spec z ltac:(lia)) as [_ Hhi].
    eapply Z.lt_le_trans; [exact Hhi|].
    apply Z.pow_le_mono_l. lia.
Qed.

(** Reading the digits of [z] gives [z] back. *)
Lemma digits_value_decimal z :
  0 <= z -> digits_value 10 0 (decimal z) = Some z.
Proof.
  intros Hz. unfold decimal.
  destruct (digits_below_value _ z [] 0
              (conj Hz (below_pow10_log2 z Hz))) as (n & _ & ->).
  done.
Qed.

(** More fuel than digits changes nothing. *)
Lemma digits_below_more fuel z acc :
  (1 <= fuel)%nat -> 0 <= z < 10 ^ Z.of_nat fuel ->
  digits_below (S fuel) z acc = digits_below fuel z acc.
Proof.
  revert z acc. induction fuel as [|fuel IH]; intros z acc Hf Hz; [lia|].
  change (digits_below (S (S fuel)) z acc)
    with (let acc' := (48 + z mod 10) :: acc in
          if z <? 10 then acc' else digits_below (S fuel) (z / 10) acc').
  change (digits_below (S fuel) z acc)
    with (let acc' := (48 + z mod 10) :: acc in
          if z <? 10 then acc' else digits_below fuel (z / 10) acc').
  cbv zeta. destruct (z <? 10) eqn:Hlt; [done|].
  apply Z.ltb_ge in Hlt.
  destruct fuel as [|fuel].
  - simpl in Hz. lia.
  - apply IH; [lia|]. split; [apply Z.div_pos; lia|].
    apply Z.div_lt_upper_bound; [lia|].
    rewrite (Nat2Z.inj_succ (S fuel)), Z.pow_succ_r in Hz by lia. lia.
Qed.

Lemma digits_below_enough fuel fuel' z acc :
  (1 <= fuel <= fuel')%nat -> 0 <= z < 10 ^ Z.of_nat fuel ->
  digits_below fuel' z acc = digits_below fuel z acc.
Proof.
  intros [Hf Hle] Hz. induction Hle as [|fuel' Hle IH]; [done|].
  rewrite digits_below_more; [done|lia|].
  split; [lia|]. eapply Z.lt_le_trans; [apply Hz|].
  apply Z.pow_le_mono_r; lia.
Qed.

Lemma decimal_enough fuel z :
  (1 <= fuel)%nat -> 0 <= z < 10 ^ Z.of_nat fuel ->
  decimal z = digits_below fuel z [].
Proof.
  intros Hf Hz. unfold decimal.
  set (g := S (Z.to_nat (Z.log2 z))).
  pose proof (below_pow10_log2 z (proj1 Hz)) as Hg. fold g in Hg.
  rewrite <- (digits_below_enough g (Nat.max fuel g)) by lia.
  by apply digits_below_enough; [lia|].
Qed.

Lemma digits_below_acc fuel z acc :
  digits_below fuel z acc = digits_below fuel z [] ++ acc.
Proof.
  revert z acc. induction fuel as [|fuel IH]; intros z acc; [done|].
  simpl. destruct (z <? 10); [done|].
  rewrite IH, (IH _ [_]). by rewrite <- app_assoc.
Qed.

Lemma decimal_times_ten z : 0 < z -> decimal (10 * z) = decimal z ++ [48].
Proof.
  intros Hz.
  set (g := S (Z.to_nat (Z.log2 z))).
  pose proof (below_pow10_log2 z ltac:(lia)) as Hg. fold g in Hg.
  assert (1 <= g)%nat as Hg1 by (unfold g; lia). clearbody g.
  rewrite (decimal_enough (S g) (10 * z)).
  2: lia.
  2:{ rewrite Nat2Z.inj_succ, Z.pow_succ_r by lia. lia. }
  rewrite (decimal_enough g z); [|done|split; [lia|exact Hg]].
  simpl digits_below.
  rewrite (proj2 (Z.ltb_ge (10 * z) 10)) by lia.
  replace (10 * z) with (z * 10) by lia.
  rewrite Z.div_mul, Z.mod_mul by lia.
  apply digits_below_acc.
Qed.

Lemma decimal_shift s t :
  0 < s -> 0 <= t -> decimal (s * 10 ^ t) = decimal s ++ zeros t.
Proof.
  intros Hs Ht. pattern t. apply natlike_ind; [| |exact Ht].
  - rewrite Z.mul_1_r. unfold zeros. simpl. by rewrite app_nil_r.
  - intros j Hj IH. rewrite Z.pow_succ_r by done.
    replace (s * (10 * 10 ^ j)) with (10 * (s * 10 ^ j)) by lia.
    rewrite decimal_times_ten.
    2:{ apply Z.mul_pos_pos; [lia|]. by apply Z.pow_pos_nonneg. }
    rewrite IH, <- app_assoc. f_equal. unfold zeros.
    rewrite Z2Nat.inj_succ by done.
    change [48] with (repeat 48 1). rewrite <- repeat_app.
    f_equal. lia.
Qed.

(** ** Integers and their shortest decimal *)

Lemma number_eqb_eq x y : number_eqb x y = true <-> x = y.
Proof.
  split.
  - destruct x as [|s|s m e], y as [|t|t n f]; simpl; try done.
    + intros H. apply Bool.eqb_prop in H. by subst.
    + intros H. apply andb_prop in H as [H He].
      apply andb_prop in H as [Hs Hm].
      apply Bool.eqb_prop in Hs. apply Z.eqb_eq in Hm, He. by subst.
  - intros <-. destruct x as [|s|s m e]; simpl; [done| |].
    + by destruct s.
    + rewrite !Z.eqb_refl. by destruct s.
Qed.

Lemma int_value_normal s m e :
  0 <= m -> 0 <= e -> int_value (normal s m e) = signed s (m * 2 ^ e).
Proof.
  intros Hm He.
  destruct (normal_represents s m e Hm He) as (s' & m' & e' & Heq & _ & _ & Hv).
  rewrite Heq. simpl. done.
Qed.

Lemma normal_finite s m e : isFinite (normal s m e) = true.
Proof.
  unfold normal. destruct m as [|p|p]; [done| |done].
  by destruct (strip2 p e).
Qed.

(** From [2^53] on, rounding gives infinity or an integer of at least
    [2^53]. *)
Lemma round_big c :
  2 ^ 53 <= c ->
  round false c 1 = Inf false
  \/ isFinite (round false c 1) = true /\ 2 ^ 53 <= int_value (round false c 1).
Proof.
  intros Hc.
  assert (0 < c) as Hpos by (change (2 ^ 53) with 9007199254740992 in Hc; lia).
  unfold round.
  rewrite (proj2 (Z.eqb_neq c 0)) by lia.
  rewrite ilog2_rat_int by done.
  assert (53 <= Z.log2 c) as Hl by (by apply Z.log2_le_pow2).
  rewrite Z.max_l by lia.
  set (e := Z.log2 c - 52). assert (1 <= e) as He by (unfold e; lia).
  rewrite (Zle_imp_le_bool 0 e) by lia.
  rewrite Z.mul_1_l.
  assert (0 < 2 ^ e) as Hpow by (apply Z.pow_pos_nonneg; lia).
  assert (2 ^ 52 <= c / 2 ^ e) as Hq.
  { apply Z.div_le_lower_bound; [done|].
    rewrite Z.mul_comm, <- Z.pow_add_r by lia.
    replace (52 + e) with (Z.log2 c) by (unfold e; lia).
    by apply Z.log2_spec. }
  set (q := c / 2 ^ e) in *.
  set (q' := if 2 * (c mod 2 ^ e) <? 2 ^ e then q
             else if 2 ^ e <? 2 * (c mod 2 ^ e) then q + 1
                  else if Z.even q then q else q + 1).
  assert (2 ^ 52 <= q') as Hq'.
  { unfold q'. repeat destruct (_ <? _); try destruct (Z.even q); lia. }
  assert (0 < 2 ^ 52) as H52 by done.
  rewrite (proj2 (Z.eqb_neq q' 0)) by lia.
  destruct (1024 <=? Z.log2 q' + e); [by left|right].
  split; [apply normal_finite|].
  rewrite int_value_normal by lia. simpl.
  change (2 ^ 53) with (2 ^ 52 * 2).
  assert (2 <= 2 ^ e) as H2.
  { change 2 with (2 ^ 1) at 1. apply Z.pow_le_mono_r; lia. }
  nia.
Qed.

(** Below [2^53] no other positive integer rounds to the same Number. *)
Lemma round_int_inj p c :
  0 < p < 2 ^ 53 -> 0 < c -> round false c 1 = round false p 1 -> c = p.
Proof.
  intros Hp Hc Heq.
  assert (int_value (round false p 1) = p) as Hvp.
  { rewrite round_int by done. rewrite int_value_normal by lia.
    simpl. lia. }
  destruct (Z.lt_ge_cases c (2 ^ 53)) as [Hlt|Hge].
  - rewrite <- Hvp, <- Heq. rewrite round_int by lia.
    rewrite int_value_normal by lia. simpl. lia.
  - destruct (round_big c Hge) as [Hinf|[_ Hbig]].
    + rewrite Hinf in Heq. rewrite round_int in Heq by done.
      pose proof (normal_finite false p 0) as Hfin.
      rewrite <- Heq in Hfin. done.
    + rewrite Heq, Hvp in Hbig. lia.
Qed.

Lemma ilog10_up_spec fuel a b :
  0 < b <= a -> a < b * 10 ^ Z.of_nat fuel ->
  let r := ilog10_up fuel a b in
  0 <= r /\ b * 10 ^ r <= a < b * 10 ^ (r + 1).
Proof.
  revert b. induction fuel as [|fuel IH]; intros b Hb Ha.
  - simpl in Ha. lia.
  - simpl ilog10_up. destruct (a <? 10 * b) eqn:Hlt.
    + apply Z.ltb_lt in Hlt. simpl. lia.
    + apply Z.ltb_ge in Hlt.
      destruct (IH (10 * b)) as [Hr Hbounds]; [lia| |].
      { rewrite Nat2Z.inj_succ, Z.pow_succ_r in Ha by lia. lia. }
      cbv zeta. split; [lia|].
      replace (1 + ilog10_up fuel a (10 * b) + 1)
        with (Z.succ (ilog10_up fuel a (10 * b) + 1)) by lia.
      replace (1 + ilog10_up fuel a (10 * b))
        with (Z.succ (ilog10_up fuel a (10 * b))) by lia.
      rewrite !Z.pow_succ_r by lia. lia.
Qed.

(** The number of digits of a positive integer. *)
Lemma ilog10_rat_int p :
  0 < p ->
  let n := ilog10_rat p 1 + 1 in
  1 <= n /\ 10 ^ (n - 1) <= p < 10 ^ n.
Proof.
  intros Hp. unfold ilog10_rat.
  rewrite (Zle_imp_le_bool 1 p) by lia.
  pose proof (ilog10_up_spec (S (Z.to_nat (Z.log2 p))) p 1) as H.
  destruct H as [Hr Hb]; [lia| |].
  { rewrite Z.mul_1_l. apply below_pow10_log2. lia. }
  cbv zeta. rewrite !Z.mul_1_l in Hb.
  split; [lia|]. by rewrite Z.add_simpl_r.
Qed.

Section ShortestDecimal.

(** A positive integer [p] below [2^53], of [n] digits, as the Number
    [x]. *)
Variables (p n : Z) (x : number).
Hypothesis p_safe : 0 < p < 2 ^ 53.
Hypothesis p_digits : 10 ^ (n - 1) <= p < 10 ^ n.
Hypothesis n_pos : 1 <= n.
Hypothesis x_is_p : x = round false p 1.

Lemma rounds_to_int c : 0 < c -> number_eqb (round false c 1) x = (c =? p).
Proof.
  intros Hc. destruct (c =? p) eqn:Heq.
  - apply Z.eqb_eq in Heq. subst c. apply number_eqb_eq. by rewrite x_is_p.
  - apply Z.eqb_neq in Heq. apply not_true_is_false. intros H.
    apply number_eqb_eq in H. rewrite x_is_p in H.
    by apply round_int_inj in H.
Qed.

(** With [k] digits the candidate is [p] without its last [n - k] digits,
    when those are zeros, and there is none otherwise. *)
Lemma candidate_int k :
  1 <= k <= n ->
  candidate x p 1 n k
  = if p mod 10 ^ (n - k) =? 0 then Some (n, p / 10 ^ (n - k)) else None.
Proof.
  intros Hk. unfold candidate.
  set (d := 10 ^ (n - k)).
  assert (0 < d) as Hd by (apply Z.pow_pos_nonneg; lia).
  assert ((if 0 <=? k - n then p * 10 ^ (k - n) / 1 else p / (1 * d))
          = p / d) as ->.
  { destruct (0 <=? k - n) eqn:Hs.
    - apply Z.leb_le in Hs. assert (k = n) as -> by lia.
      unfold d. rewrite Z.sub_diag. simpl. by rewrite Z.mul_1_r.
    - by rewrite Z.mul_1_l. }
  set (s := p / d).
  pose proof (Z.div_mod p d ltac:(lia)) as Hdm. fold s in Hdm.
  pose proof (Z.mod_pos_bound p d Hd) as Hmod.
  assert (10 ^ (k - 1) <= s) as Hs.
  { apply Z.div_le_lower_bound; [done|].
    unfold d. rewrite Z.mul_comm, <- Z.pow_add_r by lia.
    replace (k - 1 + (n - k)) with (n - 1) by lia. lia. }
  assert (0 < 10 ^ (k - 1)) as Hk1 by (apply Z.pow_pos_nonneg; lia).
  assert (10 ^ k * d = 10 ^ n) as Hkn.
  { unfold d. rewrite <- Z.pow_add_r by lia. f_equal. lia. }
  assert (rounds_to x s n k = (p mod d =? 0)) as ->.
  { unfold rounds_to, scaled. rewrite (Zle_imp_le_bool 0 (n - k)) by lia.
    fold d. rewrite rounds_to_int by nia.
    destruct (p mod d =? 0) eqn:Hz.
    - apply Z.eqb_eq in Hz. apply Z.eqb_eq. lia.
    - apply Z.eqb_neq in Hz. apply Z.eqb_neq. lia. }
  assert ((let '(n_hi, s_hi) :=
             if s + 1 <? 10 ^ k then (n, s + 1) else (n + 1, 10 ^ (k - 1)) in
           rounds_to x s_hi n_hi k) = false) as Hhi.
  { destruct (s + 1 <? 10 ^ k) eqn:Hlt.
    - unfold rounds_to, scaled. rewrite (Zle_imp_le_bool 0 (n - k)) by lia.
      fold d. rewrite rounds_to_int by nia. apply Z.eqb_neq. nia.
    - unfold rounds_to, scaled.
      rewrite (Zle_imp_le_bool 0 (n + 1 - k)) by lia.
      replace (10 ^ (k - 1) * 10 ^ (n + 1 - k)) with (10 ^ n).
      2:{ rewrite <- Z.pow_add_r by lia. f_equal. lia. }
      rewrite rounds_to_int by lia. apply Z.eqb_neq. lia. }
  destruct (s + 1 <? 10 ^ k); rewrite Hhi;
    rewrite andb_false_r; by destruct (p mod d =? 0).
Qed.

(** The search stops at the first [k] that leaves only zeros out. *)
Lemma shortest_int fuel k :
  1 <= k <= n -> n - k <= Z.of_nat fuel ->
  exists k' s,
    shortest fuel x p 1 n k = (n, k', s)
    /\ k <= k' <= n /\ 0 < s /\ s * 10 ^ (n - k') = p.
Proof.
  revert k. induction fuel as [|fuel IH]; intros k Hk Hfuel.
  - assert (k = n) as -> by lia. simpl.
    rewrite candidate_int by lia.
    rewrite Z.sub_diag. simpl. rewrite Z.mod_1_r. simpl.
    change (10 ^ 0) with 1. rewrite Z.div_1_r.
    exists n, p. rewrite Z.sub_diag. change (10 ^ 0) with 1.
    split; [done|]. lia.
  - simpl. rewrite candidate_int by done.
    destruct (p mod 10 ^ (n - k) =? 0) eqn:Hz.
    + apply Z.eqb_eq in Hz. exists k, (p / 10 ^ (n - k)).
      assert (0 < 10 ^ (n - k)) as Hd by (apply Z.pow_pos_nonneg; lia).
      pose proof (Z.div_mod p (10 ^ (n - k)) ltac:(lia)) as Hdm.
      split; [done|]. split; [lia|]. nia.
    + apply Z.eqb_neq in Hz.
      assert (k <> n) as Hne.
      { intros ->. rewrite Z.sub_diag in Hz. simpl in Hz.
        by rewrite Z.mod_1_r in Hz. }
      destruct (IH (k + 1)) as (k' & s & Heq & Hk' & Hs); [lia|lia|].
      exists k', s. split; [done|]. split; [lia|done].
Qed.

End ShortestDecimal.

Lemma render_integer n k s :
  1 <= k <= n -> n <= 21 -> render n k s = decimal s ++ zeros (n - k).
Proof.
  intros Hk Hn. unfold render.
  rewrite (Zle_imp_le_bool k n) by lia.
  by rewrite (Zle_imp_le_bool n 21) by lia.
Qed.

(** A safe integer prints as its decimal digits. *)
Lemma toString_of_Z p : 0 <= p < 2 ^ 53 -> toString (of_Z p) = decimal p.
Proof.
  intros [Hp Hlt]. destruct (decide (p = 0)) as [->|Hne]; [done|].
  assert (of_Z p = round false p 1) as Hx.
  { unfold of_Z. rewrite (proj2 (Z.ltb_ge p 0)) by lia.
    by rewrite Z.abs_eq by lia. }
  destruct (of_Z_nonneg p (conj Hp Hlt)) as (m & e & Hfin & Hm & He & Hv).
  symmetry in Hv.
  assert (0 < 2 ^ e) as Hpow by (by apply Z.pow_pos_nonneg).
  rewrite Hfin. unfold toString.
  rewrite (proj2 (Z.eqb_neq m 0)) by nia.
  unfold frac. rewrite (Zle_imp_le_bool 0 e) by done. rewrite <- Hv.
  pose proof (ilog10_rat_int p ltac:(lia)) as [Hn Hdigits].
  set (n := ilog10_rat p 1 + 1) in *.
  assert (n <= 16) as Hn16.
  { destruct (Z.le_gt_cases n 16) as [|Hgt]; [done|exfalso].
    assert (10 ^ 16 <= 10 ^ (n - 1)) by (apply Z.pow_le_mono_r; lia).
    change (2 ^ 53) with 9007199254740992 in Hlt.
    change (10 ^ 16) with 10000000000000000 in *. lia. }
  destruct (shortest_int p n (Fin false m e) ltac:(lia) Hdigits Hn
              ltac:(by rewrite <- Hfin) 16 1 ltac:(lia) ltac:(lia))
    as (k & d & Heq & Hk & Hd & Hprod).
  rewrite Heq. simpl app.
  rewrite render_integer by lia.
  rewrite <- decimal_shift by lia. by rewrite Hprod.
Qed.

(** ** Buffers of ASCII text *)

Import Buffer.

Lemma below_forall (P : Z -> bool) n z :
  forallb P (below n) = true -> 0 <= z < Z.of_nat n -> P z = true.
Proof.
  intros Hall Hz. rewrite forallb_forall in Hall. apply Hall.
  unfold below. apply in_map_iff. exists (Z.to_nat z).
  split; [lia|]. apply in_seq. lia.
Qed.

Lemma sextet_round_trip v :
  0 <= v < 64 -> char_sextet (sextet_char v) = Some v.
Proof.
  intros Hv.
  assert (check_sextet v = true) as H.
  { apply (below_forall check_sextet 64); [by vm_compute|done]. }
  unfold check_sextet in H.
  destruct (char_sextet (sextet_char v)) as [v'|]; [|done].
  by apply Z.eqb_eq in H as ->.
Qed.

Lemma check_first_all a b : octet a -> octet b -> check_first a b = true.
Proof.
  intros Ha Hb.
  pose proof (below_forall (fun a => forallb (check_first a) (below 256))
                256 a ltac:(by vm_compute) Ha) as H.
  exact (below_forall (check_first a) 256 b H Hb).
Qed.

Lemma check_last_all b c : octet b -> octet c -> check_last b c = true.
Proof.
  intros Hb Hc.
  pose proof (below_forall (fun b => forallb (check_last b) (below 256))
                256 b ltac:(by vm_compute) Hb) as H.
  exact (below_forall (check_last b) 256 c H Hc).
Qed.

Ltac split_checks H :=
  repeat match type of H with
         | _ && _ = true =>
             let H' := fresh "Hcheck" in
             apply andb_prop in H as [H H'];
             first [apply Z.eqb_eq in H' | apply Z.ltb_lt in H'
                   | apply Z.leb_le in H']
         end;
  first [apply Z.eqb_eq in H | apply Z.ltb_lt in H | apply Z.leb_le in H].

Lemma first_octets a b :
  octet a -> octet b ->
  0 <= Z.shiftr a 2 < 64
  /\ 0 <= Z.lor (Z.shiftl (Z.land a 3) 4) (Z.shiftr b 4) < 64
  /\ 0 <= Z.shiftl (Z.land a 3) 4 < 64
  /\ Z.lor (Z.shiftl (Z.shiftr a 2) 2)
       (Z.shiftr (Z.lor (Z.shiftl (Z.land a 3) 4) (Z.shiftr b 4)) 4) = a
  /\ Z.lor (Z.shiftl (Z.shiftr a 2) 2)
       (Z.shiftr (Z.shiftl (Z.land a 3) 4) 4) = a
  /\ Z.land (Z.lor (Z.shiftl (Z.land a 3) 4) (Z.shiftr b 4)) 15
     = Z.shiftr b 4.
Proof.
  intros Ha Hb. pose proof (check_first_all a b Ha Hb) as H.
  unfold check_first, sextet0, sextet1 in H. split_checks H.
  repeat split; assumption.
Qed.

Lemma last_octets b c :
  octet b -> octet c ->
  0 <= Z.lor (Z.shiftl (Z.land b 15) 2) (Z.shiftr c 6) < 64
  /\ 0 <= Z.land c 63 < 64
  /\ 0 <= Z.shiftl (Z.land b 15) 2 < 64
  /\ Z.lor (Z.shiftl
              (Z.land (Z.lor (Z.shiftl (Z.land b 15) 2) (Z.shiftr c 6)) 3) 6)
       (Z.land c 63) = c
  /\ Z.shiftr (Z.lor (Z.shiftl (Z.land b 15) 2) (Z.shiftr c 6)) 2
     = Z.land b 15
  /\ Z.shiftr (Z.shiftl (Z.land b 15) 2) 2 = Z.land b 15
  /\ Z.lor (Z.shiftl (Z.shiftr b 4) 4) (Z.land b 15) = b.
Proof.
  intros Hb Hc. pose proof (check_last_all b c Hb Hc) as H.
  unfold check_last, sextet2, sextet3 in H. split_checks H.
  repeat split; assumption.
Qed.

Lemma sextets_cons v text :
  0 <= v < 64 -> sextets (String (sextet_char v) text) = v :: sextets text.
Proof. intros Hv. simpl. by rewrite sextet_round_trip. Qed.

Lemma by_three {A} (P : list A -> Prop) :
  P [] -> (forall a, P [a]) -> (forall a b, P [a; b]) ->
  (forall a b c r, P r -> P (a :: b :: c :: r)) ->
  forall l, P l.
Proof.
  intros H0 H1 H2 H3 l.
  assert (forall n l, (length l <= n)%nat -> P l) as H.
  { clear l. induction n as [|n IH]; intros l Hl.
    - destruct l; [done|simpl in Hl; lia].
    - destruct l as [|a [|b [|c r]]]; [done..|].
      apply H3, IH. simpl in Hl. lia. }
  by apply (H (length l)).
Qed.

(** Decoding the base64 of a buffer gives the buffer back. *)
Lemma base64_round_trip bs :
  Forall octet bs -> from_base64 (toString_base64 bs) = bs.
Proof.
  unfold from_base64. pattern bs. apply by_three; clear bs.
  - done.
  - intros a Ha. apply Forall_cons_1 in Ha as [Ha _].
    destruct (first_octets a a Ha Ha) as (H0 & _ & H1 & _ & Ha' & _).
    cbn [toString_base64]. rewrite !sextets_cons by done.
    simpl. by rewrite Ha'.
  - intros a b Hab.
    apply Forall_cons_1 in Hab as [Ha Hb].
    apply Forall_cons_1 in Hb as [Hb _].
    destruct (first_octets a b Ha Hb) as (H0 & H1 & _ & Ha' & _ & Hlow).
    destruct (last_octets b b Hb Hb) as (_ & _ & H2 & _ & _ & Hhigh & Hb').
    cbn [toString_base64]. rewrite !sextets_cons by done.
    simpl sextets. cbn [octets]. by rewrite Ha', Hlow, Hhigh, Hb'.
  - intros a b c r IH Habc.
    apply Forall_cons_1 in Habc as [Ha Hb].
    apply Forall_cons_1 in Hb as [Hb Hc].
    apply Forall_cons_1 in Hc as [Hc Hr].
    destruct (first_octets a b Ha Hb) as (H0 & H1 & _ & Ha' & _ & Hlow).
    destruct (last_octets b c Hb Hc) as (H2 & H3 & _ & Hc' & Hhigh & _ & Hb').
    cbn [toString_base64]. rewrite !sextets_cons by done.
    cbn [octets]. rewrite Ha', Hlow, Hhigh, Hb', Hc'. by rewrite IH.
Qed.

Lemma toString_base64_nonempty bs :
  bs <> [] -> exists c text, toString_base64 bs = String c text.
Proof.
  destruct bs as [|a [|b [|c r]]]; [done|..]; intros _; simpl; by eexists _, _.
Qed.

Lemma from_utf8_ascii text :
  Forall (fun c => 0 <= c < 128) text -> from_utf8 text = text.
Proof.
  unfold from_utf8. induction 1 as [|c l Hc _ IH]; [done|].
  change (flat_map utf8_of_code_point (c :: l))
    with (utf8_of_code_point c ++ flat_map utf8_of_code_point l).
  rewrite IH. unfold utf8_of_code_point.
  by rewrite (proj2 (Z.ltb_lt c 128)) by lia.
Qed.

Lemma toString_utf8_ascii bs :
  Forall (fun c => 0 <= c < 128) bs -> toString_utf8 bs = bs.
Proof.
  induction 1 as [|c l Hc _ IH]; [done|].
  simpl. rewrite (proj2 (Z.ltb_lt c 128)) by lia. by rewrite IH.
Qed.

(** ** [Number] of a text of digits *)

Lemma digit_cases c :
  digit c ->
  c = 48 \/ c = 49 \/ c = 50 \/ c = 51 \/ c = 52 \/ c = 53 \/ c = 54
  \/ c = 55 \/ c = 56 \/ c = 57.
Proof. unfold digit. lia. Qed.

Lemma digit_not_space c : digit c -> is_white_space c = false.
Proof.
  intros Hc. apply digit_cases in Hc.
  repeat (destruct Hc as [->|Hc]; [reflexivity|]). by subst.
Qed.

Lemma digit_is_digit c : digit c -> is_digit c = true.
Proof.
  unfold digit, is_digit. intros Hc.
  by rewrite (proj2 (Z.leb_le 48 c)), (proj2 (Z.leb_le c 57)) by lia.
Qed.

Lemma drop_while_digits l :
  Forall digit l -> drop_while is_white_space l = l.
Proof.
  destruct 1 as [|c l Hc _]; [done|]. simpl.
  by rewrite digit_not_space.
Qed.

Lemma trim_digits l : Forall digit l -> trim l = l.
Proof.
  intros Hl. unfold trim. rewrite (drop_while_digits l Hl).
  rewrite drop_while_digits; [apply rev_involutive|].
  by apply Forall_rev.
Qed.

Lemma span_digits_all l : Forall digit l -> span_digits l = (l, []).
Proof.
  induction 1 as [|c l Hc _ IH]; [done|]. simpl.
  by rewrite digit_is_digit, IH.
Qed.

Lemma parse_unsigned_decimal_digits l v :
  l <> [] -> Forall digit l -> digits_value 10 0 l = Some v ->
  parse_unsigned_decimal false l = round false v 1.
Proof.
  intros Hne Hl Hv. unfold parse_unsigned_decimal.
  case_bool_decide as Hinf.
  { subst l. apply Forall_cons_1 in Hl as [Hc _]. unfold digit in Hc. lia. }
  rewrite span_digits_all by done. rewrite app_nil_r.
  destruct l as [|c l]; [done|]. rewrite Hv. simpl.
  by rewrite Z.mul_1_r.
Qed.

Lemma StringToNumber_digits l v :
  l <> [] -> Forall digit l -> digits_value 10 0 l = Some v ->
  StringToNumber l = round false v 1.
Proof.
  intros Hne Hl Hv.
  rewrite <- (parse_unsigned_decimal_digits l v Hne Hl Hv).
  unfold StringToNumber. rewrite trim_digits by done.
  destruct l as [|c l]; [done|].
  apply Forall_cons_1 in Hl as [Hc Hl].
  apply digit_cases in Hc.
  destruct Hc as [->|Hc].
  - destruct l as [|c2 l]; [done|].
    apply Forall_cons_1 in Hl as [Hc2 _]. apply digit_cases in Hc2.
    repeat (destruct Hc2 as [->|Hc2]; [reflexivity|]). by subst.
  - repeat (destruct Hc as [->|Hc]; [reflexivity|]). by subst.
Qed.

Lemma digit_ascii l : Forall digit l -> Forall (fun c => 0 <= c < 128) l.
Proof. intros H. eapply Forall_impl; [exact H|]. unfold digit. lia. Qed.

Lemma digit_octet l : Forall digit l -> Forall octet l.
Proof.
  intros H. eapply Forall_impl; [exact H|]. unfold digit, octet. lia.
Qed.

(** The cursor of a safe integer decodes to its digits. *)
Lemma decoded_encoded p :
  0 <= p < 2 ^ 53 -> decoded (encodePageCursor (of_Z p)) = of_Z p.
Proof.
  intros Hp. unfold decoded, encodePageCursor.
  pose proof (decimal_digits p (proj1 Hp)) as Hd.
  rewrite toString_of_Z by done.
  rewrite from_utf8_ascii by (apply digit_ascii; exact Hd).
  rewrite base64_round_trip by (apply digit_octet; exact Hd).
  rewrite toString_utf8_ascii by (apply digit_ascii; exact Hd).
  rewrite (StringToNumber_digits _ p);
    [|apply decimal_nonempty|done|apply digits_value_decimal; lia].
  unfold of_Z. rewrite (proj2 (Z.ltb_ge p 0)) by lia.
  by rewrite Z.abs_eq by lia.
Qed.

(* --------------------------------------------------------------------- *)
(** ** Claims about the cursor codec *)
(* --------------------------------------------------------------------- *)

(** C4. For every integer page from 0 to [2^53 - 1], the largest safe
    integer, decoding the encoded cursor gives the page back. *)
Theorem cursor_round_trip p :
  0 <= p < 2 ^ 53 ->
  decodePageCursor (Some (encodePageCursor (of_Z p))) = Returned (of_Z p).
Proof.
  intros Hp.
  pose proof (decoded_encoded p Hp) as Hdecoded.
  unfold encodePageCursor in *.
  rewrite toString_of_Z in * by done.
  rewrite from_utf8_ascii in *
    by (apply digit_ascii, decimal_digits; lia).
  destruct (toString_base64_nonempty (decimal p) (decimal_nonempty p))
    as (c & text & Hcursor).
  rewrite Hcursor in *. unfold decodePageCursor. rewrite Hdecoded.
  destruct (of_Z_represents p) as (s & m & e & Hfin & Hm & He & Hv).
  { change (2 ^ 53) with 9007199254740992 in *. lia. }
  assert (lt (of_Z p) zero = false) as Hlt.
  { unfold lt.
    rewrite (compare_represents (of_Z p) zero p 0).
    - destruct (p ?= 0) eqn:Hcmp; try done.
      change (p < 0) in Hcmp. exfalso. lia.
    - by exists s, m, e.
    - by exists false, 0, 0. }
  rewrite Hlt. by rewrite Hfin.
Qed.

(** C5, as the code has it.  Without a cursor, or with the empty one, the
    page is 0.  Any other cursor fails with "Invalid cursor" exactly when
    its decoded text converts to NaN or to a number below zero; every other
    Number it converts to is the page, so a page that is returned is never
    NaN and never below zero. *)
Theorem decodePageCursor_guards :
  decodePageCursor None = Returned zero
  /\ decodePageCursor (Some ""%string) = Returned zero
  /\ (forall c text,
        decodePageCursor (Some (String c text))
        = if isNaN (decoded (String c text))
             || lt (decoded (String c text)) zero
          then Threw "Invalid cursor"
          else Returned (decoded (String c text)))
  /\ (forall cursor,
        match decodePageCursor (Some cursor) with
        | Returned page => isNaN page = false /\ lt page zero = false
        | Threw message => message = "Invalid cursor"%string
        end).
Proof.
  split; [done|]. split; [done|]. split.
  - intros c text. unfold decodePageCursor.
    destruct (isNaN _); [done|]. by destruct (lt _ _).
  - intros [|c text]; [done|]. unfold decodePageCursor.
    destruct (isNaN _) eqn:Hnan; [done|].
    by destruct (lt _ _) eqn:Hlt.
Qed.

End CursorFacts.

(* ===================================================================== *)
(** * Facts about the wrapper *)
(* ===================================================================== *)

Module EngineFacts.
Import PermissionCommon SearchCommon SearchBackendNode.
Import AuthorizedSearchEngine JsNumberFacts.
Import Observations Observers.

Section Facts.

Context {World QueryTranslator : Type}.
Variable Date_now : World -> Z * World.

Abbreviation engine := (AuthorizedSearchEngine.t World QueryTranslator).
Abbreviation state := (AuthorizedSearchEngine.State World).

Implicit Types (this : engine) (st : state) (options : QueryRequestOptions).

Lemma mapM_ext {A B} (f g : A -> M (World := World) B) l :
  (forall x, f x = g x) -> mapM f l = mapM g l.
Proof.
  intros Hfg. induction l as [|x l IH]; simpl; [done|].
  by rewrite Hfg, IH.
Qed.

(** *** Keys *)

Lemma keys_from_requests n (requests : list AuthorizeQuery) :
  map snd (keys_from n requests) = requests.
Proof.
  revert n. induction requests as [|q r IH]; intros n; simpl; [done|].
  by rewrite IH.
Qed.

Lemma keys_from_length n (requests : list AuthorizeQuery) :
  length (keys_from n requests) = length requests.
Proof.
  revert n. induction requests as [|q r IH]; intros n; simpl; [done|].
  by rewrite IH.
Qed.

Lemma keys_from_bounds n (requests : list AuthorizeQuery) key :
  key ∈ keys_from n requests ->
  (n <= key.1 < n + length requests)%nat.
Proof.
  revert n. induction requests as [|q r IH]; intros n; simpl.
  - by intros ?%elem_of_nil.
  - intros [->|Hin]%elem_of_cons; simpl; [lia|].
    apply IH in Hin. lia.
Qed.

Lemma enqueue_fresh (cached : gmap nat AuthorizeDecision) batch n requests :
  (forall r, is_Some (cached !! r) -> (r < n)%nat) ->
  (forall key, key ∈ batch -> (key.1 < n)%nat) ->
  enqueue cached batch (keys_from n requests)
  = batch ++ keys_from n requests.
Proof.
  revert batch n.
  induction requests as [|q r IH]; intros batch n Hc Hb; simpl.
  - by rewrite app_nil_r.
  - rewrite bool_decide_eq_false_2.
    2:{ intros Hs. apply Hc in Hs. lia. }
    rewrite bool_decide_eq_false_2.
    2:{ intros Hin. apply list_elem_of_fmap in Hin as [key [Hk Hin]].
        apply Hb in Hin. simpl in Hk. lia. }
    simpl. rewrite IH.
    + by rewrite <- app_assoc.
    + intros r' Hr'. apply Hc in Hr'. lia.
    + intros key [Hin|Hin]%elem_of_app.
      * apply Hb in Hin. lia.
      * apply list_elem_of_singleton in Hin as ->. simpl. lia.
Qed.

Lemma mapM_issue {A B}
    (plan : A -> B + AuthorizeQuery * (AuthorizeDecision -> B)) l st :
  mapM (issue plan) l st
  = Some (Returned (items_of plan l (next_object st)),
          {| world := world st; calls := calls st;
             next_object := next_object st + length (requests_of plan l);
             cacheMap := cacheMap st |}).
Proof.
  revert st. induction l as [|x l IH]; intros st; simpl.
  - unfold ret. destruct st; simpl. by rewrite Nat.add_0_r.
  - unfold bind, issue. destruct (plan x) as [b|[q k]]; simpl.
    + rewrite IH. done.
    + unfold bind; simpl. rewrite IH. simpl. unfold ret.
      by rewrite Nat.add_succ_r.
Qed.

Lemma loads_items {A B}
    (plan : A -> B + AuthorizeQuery * (AuthorizeDecision -> B)) l n :
  loads (items_of plan l n) = keys_from n (requests_of plan l).
Proof.
  revert n. induction l as [|x l IH]; intros n; simpl; [done|].
  destruct (plan x) as [b|[q k]]; simpl.
  - apply IH.
  - unfold loads in *. simpl. by rewrite IH.
Qed.

(** *** The cache after a batch *)

Lemma prime_below (cached : gmap nat AuthorizeDecision) n requests values r :
  (r < n)%nat ->
  prime cached (keys_from n requests) values !! r = cached !! r.
Proof.
  revert cached n values.
  induction requests as [|q l IH]; intros cached n values Hr; [done|].
  destruct values as [|d values]; [done|].
  unfold prime in *. simpl. rewrite IH by lia.
  rewrite lookup_insert_ne; [done|lia].
Qed.

Lemma prime_at (cached : gmap nat AuthorizeDecision) n requests values i d :
  length values = length requests ->
  values !! i = Some d ->
  prime cached (keys_from n requests) values !! (n + i)%nat = Some d.
Proof.
  revert cached n values i.
  induction requests as [|q l IH]; intros cached n values i Hlen Hi.
  - destruct values; [done|simpl in Hlen; lia].
  - destruct values as [|d0 values]; [done|].
    simpl in Hlen. injection Hlen as Hlen.
    destruct i as [|i].
    + simpl in Hi. injection Hi as ->.
      change (prime cached (keys_from n (q :: l)) (d :: values))
        with (prime (<[n:=d]> cached) (keys_from (S n) l) values).
      rewrite Nat.add_0_r, prime_below by lia.
      by rewrite lookup_insert_eq.
    + change (prime cached (keys_from n (q :: l)) (d0 :: values))
        with (prime (<[n:=d0]> cached) (keys_from (S n) l) values).
      replace (n + S i)%nat with (S n + i)%nat by lia.
      by apply IH.
Qed.

Lemma prime_bound (cached : gmap nat AuthorizeDecision) n requests values r :
  (forall r, is_Some (cached !! r) -> (r < n)%nat) ->
  is_Some (prime cached (keys_from n requests) values !! r) ->
  (r < n + length requests)%nat.
Proof.
  revert cached n values.
  induction requests as [|q l IH]; intros cached n values Hc Hr.
  - apply Hc in Hr. simpl. lia.
  - destruct values as [|d values].
    + apply Hc in Hr. simpl. lia.
    + change (prime cached (keys_from n (q :: l)) (d :: values))
        with (prime (<[n:=d]> cached) (keys_from (S n) l) values) in Hr.
      apply IH in Hr; [simpl; lia|].
      intros r' Hr'. destruct (decide (n = r')) as [<-|Hne]; [lia|].
      rewrite lookup_insert_ne in Hr' by done. apply Hc in Hr'. lia.
Qed.

Lemma settle_items {A B}
    (plan : A -> B + AuthorizeQuery * (AuthorizeDecision -> B)) l n values st :
  length values = length (requests_of plan l) ->
  (forall i d, values !! i = Some d ->
               cacheMap st !! (n + i)%nat = Some d) ->
  settle_all (items_of plan l n) st
  = Some (Returned (fill plan l values), st).
Proof.
  unfold settle_all.
  generalize (cacheMap st) as cached. intros cached.
  revert n values. induction l as [|x l IH]; intros n values Hlen Hc.
  - done.
  - cbn [items_of fill requests_of] in *.
    destruct (plan x) as [b|[q k]].
    + cbn [mapM settle]. unfold bind at 1. unfold lift at 1.
      unfold bind at 1. by rewrite (IH n values).
    + destruct values as [|d values]; [done|].
      cbn [length] in Hlen. injection Hlen as Hlen.
      cbn [mapM settle fst]. unfold bind at 1. unfold lift at 1.
      rewrite <- (Nat.add_0_r n) at 1. rewrite (Hc 0%nat d) by done.
      cbn [fmap option_fmap option_map]. unfold bind at 1.
      rewrite (IH (S n) values); [done|done|].
      intros i d' Hi. replace (S n + i)%nat with (n + S i)%nat by lia.
      by apply Hc.
Qed.

(** *** One wave *)

(** A [map] of callbacks followed by [Promise.all], started with a cache
    that holds no future key: the wave makes the one call [answer]
    describes and stores its values under the new keys. *)
Lemma wave_spec {A B} this options
    (plan : A -> B + AuthorizeQuery * (AuthorizeDecision -> B)) l st :
  fresh st ->
  bind (mapM (issue plan) l) (Promise_all this options) st
  = Some (map_outcome (fill plan l)
            (answer this options (requests_of plan l) (world st)).1,
          after_wave this options (requests_of plan l) st).
Proof.
  intros Hfresh. unfold after_wave.
  unfold bind at 1. rewrite mapM_issue.
  unfold Promise_all. cbn [cacheMap world calls next_object].
  rewrite loads_items.
  rewrite enqueue_fresh; [|exact Hfresh|by intros ? ?%elem_of_nil].
  rewrite app_nil_l.
  destruct (requests_of plan l) as [|q requests'] eqn:Hreq.
  - simpl. rewrite (settle_items plan l _ []); [|by rewrite Hreq|done].
    simpl. by rewrite app_nil_r.
  - cbn [keys_from answer wave_calls].
    unfold bind at 1. unfold call_authorize.
    cbn [world calls next_object cacheMap map snd].
    rewrite keys_from_requests.
    destruct (PermissionAuthorizer.authorize _ _ _ _) as [[values|message] w];
      [|done].
    cbn [length]. rewrite keys_from_length.
    destruct (length values =? S (length requests'))%nat eqn:Hlen; [|done].
    apply Nat.eqb_eq in Hlen.
    unfold bind, prime_cache. cbn [world calls next_object cacheMap fst snd].
    change ((next_object st, q) :: keys_from (S (next_object st)) requests')
      with (keys_from (next_object st) (q :: requests')).
    rewrite (settle_items plan l (next_object st) values).
    + done.
    + by rewrite Hreq.
    + intros i d Hi. cbn [cacheMap]. by apply prime_at.
Qed.

Lemma wave_fresh this options (requests : list AuthorizeQuery) st :
  fresh st -> fresh (after_wave this options requests st).
Proof.
  intros Hfresh. unfold after_wave.
  destruct (answer this options requests (world st)) as [[values|message] w];
    intros r; cbn [cacheMap next_object fst snd]; intros Hr.
  - by eapply prime_bound.
  - apply Hfresh in Hr. lia.
Qed.

(** *** The gate and the filter as waves *)

Lemma gate_plan_requests this requestedTypes :
  requests_of (gate_plan this) requestedTypes
  = gate_requests this requestedTypes.
Proof.
  unfold gate_requests, gate_plan.
  induction requestedTypes as [|type l IH]; simpl; [done|].
  destruct (type_request this type); simpl; by rewrite IH.
Qed.

Lemma gate_plan_fill this requestedTypes answers :
  fill (gate_plan this) requestedTypes answers
  = gate_decisions this requestedTypes answers.
Proof.
  unfold gate_plan. revert answers.
  induction requestedTypes as [|type l IH]; intros answers; simpl; [done|].
  destruct (type_request this type); simpl.
  - destruct answers; [done|]. by rewrite IH.
  - by rewrite IH.
Qed.

Lemma filter_plan_requests this typeDecisions results :
  requests_of (filter_plan this typeDecisions) results
  = document_requests this typeDecisions results.
Proof.
  unfold document_requests, filter_plan.
  induction results as [|r l IH]; simpl; [done|].
  destruct (document_request this typeDecisions r); simpl; by rewrite IH.
Qed.

Lemma filter_plan_fill this typeDecisions results answers :
  compact (fill (filter_plan this typeDecisions) results answers)
  = kept_results this typeDecisions results answers.
Proof.
  unfold filter_plan, compact. revert answers.
  induction results as [|r l IH]; intros answers; simpl; [done|].
  destruct (document_request this typeDecisions r); simpl.
  - destruct answers as [|d answers]; [done|]. simpl.
    case_bool_decide; simpl; by rewrite IH.
  - by rewrite IH.
Qed.

Lemma bind_ret_map {A B} (c : M (World := World) A) (f : A -> B) st :
  bind c (fun a => ret (f a)) st
  = match c st with
    | Some (o, st') => Some (map_outcome f o, st')
    | None => None
    end.
Proof.
  unfold bind, ret. by destruct (c st) as [[[a|m] st']|].
Qed.

Lemma bind_assoc {A B C} (c : M (World := World) A) (f : A -> M B)
    (g : B -> M C) st :
  bind (bind c f) g st = bind c (fun a => bind (f a) g) st.
Proof.
  unfold bind. by destruct (c st) as [[[a|m] st']|].
Qed.

Lemma map_outcome_compose {A B C} (f : A -> B) (g : B -> C) o :
  map_outcome g (map_outcome f o) = map_outcome (fun a => g (f a)) o.
Proof. by destruct o. Qed.

Lemma typeDecisions_spec this requestedTypes options st :
  fresh st ->
  typeDecisions this requestedTypes options st
  = Some (map_outcome
            (fun answers =>
               zipObject requestedTypes
                 (gate_decisions this requestedTypes answers))
            (answer this options (gate_requests this requestedTypes)
               (world st)).1,
          after_wave this options (gate_requests this requestedTypes) st).
Proof.
  intros Hfresh. unfold typeDecisions.
  rewrite <- bind_assoc, bind_ret_map.
  rewrite (mapM_ext _ (issue (gate_plan this))).
  2:{ intros type. unfold issue, gate_plan, type_request.
      by destruct (visibilityPermissionOf this type). }
  rewrite wave_spec by done.
  rewrite map_outcome_compose, gate_plan_requests.
  f_equal. f_equal.
  destruct (answer _ _ _ _).1; simpl; [|done].
  by rewrite gate_plan_fill.
Qed.

Lemma filterResults_spec this options results typeDecisions st :
  fresh st ->
  filterResults this options results typeDecisions st
  = Some (map_outcome (kept_results this typeDecisions results)
            (answer this options
               (document_requests this typeDecisions results) (world st)).1,
          after_wave this options
            (document_requests this typeDecisions results) st).
Proof.
  intros Hfresh. unfold filterResults.
  rewrite <- bind_assoc, bind_ret_map.
  rewrite (mapM_ext _ (issue (filter_plan this typeDecisions))).
  2:{ intros r. unfold issue, filter_plan, document_request.
      case_bool_decide; [done|].
      destruct (visibilityPermissionOf this (type r)); [|done].
      by destruct (truthy (authorization (document r))). }
  rewrite wave_spec by done.
  rewrite map_outcome_compose, filter_plan_requests.
  f_equal. f_equal.
  destruct (answer _ _ _ _).1; simpl; [|done].
  by rewrite filter_plan_fill.
Qed.

(** *** The loop *)

Lemma fresh_after_query this query options st :
  fresh st -> fresh (after_query this query options st).
Proof. intros H r Hr. by apply H. Qed.

Lemma fresh_after_now st : fresh st -> fresh (after_now Date_now st).
Proof. intros H r Hr. by apply H. Qed.

Lemma fresh_query_start st : fresh (query_start Date_now st).
Proof.
  intros r [d Hd]. cbn [query_start cacheMap] in Hd.
  by rewrite lookup_empty in Hd.
Qed.

Lemma iteration_spec this query options start typeDecisions authorized
    acc cursor st :
  fresh st ->
  let q := engine_query query authorized cursor in
  let st1 := after_query this q options st in
  iteration Date_now this query options start typeDecisions authorized
    acc cursor st
  = match (SearchCommon.query (searchEngine this) q options (world st)).1 with
    | Threw message => Some (Threw message, st1)
    | Returned page =>
        let requests :=
          document_requests this typeDecisions (results page) in
        let st2 := after_wave this options requests st1 in
        match (answer this options requests (world st1)).1 with
        | Threw message => Some (Threw message, st2)
        | Returned answers =>
            Some (Returned
                    {| filteredResults :=
                         acc ++ kept_results this typeDecisions
                                  (results page) answers;
                       nextPageCursor := SearchCommon.nextPageCursor page;
                       latencyBudgetExhausted :=
                         gt (sub (of_Z (Date_now (world st2)).1)
                               (of_Z start))
                            (queryLatencyBudgetMs (config this)) |},
                  after_now Date_now st2)
        end
    end.
Proof.
  intros Hfresh q st1. unfold iteration.
  fold (engine_query query authorized cursor). fold q.
  unfold bind at 1. unfold call_query.
  subst st1. unfold after_query.
  destruct (SearchCommon.query (searchEngine this) q options (world st))
    as [[page|message] w] eqn:Hq; cbn [fst snd]; [|done].
  unfold bind at 1.
  rewrite filterResults_spec. 2:{ intros r Hr. by apply Hfresh. }
  cbn [world].
  destruct (answer this options _ w).1 as [answers|message] eqn:Ha;
    cbn [map_outcome]; [|done].
  unfold bind, now, ret, after_now.
  by destruct (Date_now _) as [time w3].
Qed.

Lemma backfill_unfold fuel this query options start typeDecisions authorized
    target acc cursor st :
  backfill Date_now (S fuel) this query options start typeDecisions
    authorized target acc cursor st
  = match iteration Date_now this query options start typeDecisions
            authorized acc cursor st with
    | Some (Returned loop, st') =>
        if continues target loop
        then backfill Date_now fuel this query options start typeDecisions
               authorized target (filteredResults loop)
               (nextPageCursor loop) st'
        else Some (Returned loop, st')
    | Some (Threw message, st') => Some (Threw message, st')
    | None => None
    end.
Proof.
  cbn [backfill]. unfold iteration, bind, continues.
  destruct (call_query _ _ _ _) as [[[page|message] st1]|]; [|done|done].
  destruct (filterResults _ _ _ _ _) as [[[kept|message] st2]|];
    [|done|done].
  destruct (now Date_now st2) as [[[time|message] st3]|]; [|done|done].
  unfold ret. cbn [filteredResults nextPageCursor latencyBudgetExhausted].
  by destruct (_ && _ && _).
Qed.

Lemma kept_results_sublist this typeDecisions results answers :
  sublist (kept_results this typeDecisions results answers) results.
Proof.
  revert answers. induction results as [|r l IH]; intros answers; simpl.
  - constructor.
  - destruct (document_request this typeDecisions r).
    + destruct answers as [|d answers]; [apply sublist_nil_l|].
      case_bool_decide; [apply sublist_skip|apply sublist_cons]; apply IH.
    + apply sublist_skip, IH.
Qed.

Lemma wave_calls_loop options requests authorized :
  Forall (loop_call authorized) (wave_calls options requests).
Proof. destruct requests; simpl; repeat constructor. Qed.

(** What one iteration leaves behind, whatever its outcome. *)
Lemma iteration_sound this query options start typeDecisions authorized
    acc cursor st o st' :
  fresh st ->
  iteration Date_now this query options start typeDecisions authorized
    acc cursor st = Some (o, st') ->
  fresh st'
  /\ (exists new, calls st' = calls st ++ new
                  /\ Forall (loop_call authorized) new)
  /\ (honours_types (searchEngine this) ->
      forall loop, o = Returned loop ->
      forall r, r ∈ filteredResults loop ->
                r ∈ acc \/ type r ∈ authorized).
Proof.
  intros Hfresh. rewrite iteration_spec by done. cbv zeta.
  set (q := engine_query query authorized cursor).
  pose proof (fresh_after_query this q options st Hfresh) as Hfresh1.
  destruct (SearchCommon.query (searchEngine this) q options (world st))
    as [[page|message] w] eqn:Hq; cbn [fst snd].
  2:{ intros [= <- <-]. split; [done|]. split; [|done].
      exists [Query q options]. split; [done|]. by repeat constructor. }
  set (requests := document_requests this typeDecisions (results page)).
  pose proof (wave_fresh this options requests _ Hfresh1) as Hfresh2.
  assert (exists new,
    calls (after_wave this options requests (after_query this q options st))
    = calls st ++ new /\ Forall (loop_call authorized) new) as Hcalls.
  { exists (Query q options :: wave_calls options requests).
    split; [unfold after_wave, after_query; cbn [calls];
            by rewrite <- app_assoc|].
    constructor; [done|apply wave_calls_loop]. }
  destruct (answer this options requests _).1 as [answers|message] eqn:Ha.
  2:{ intros [= <- <-]. by repeat split. }
  intros [= <- <-]. split; [by apply fresh_after_now|]. split; [done|].
  intros Hhonours loop [= <-] r. cbn [filteredResults].
  intros [Hr|Hr]%elem_of_app; [by left|right].
  eapply (Hhonours q options (world st) page w Hq); [done|].
  eapply elem_of_sublist; [exact Hr|]. apply kept_results_sublist.
Qed.

(** The same for the whole loop. *)
Lemma backfill_sound fuel this query options start typeDecisions authorized
    target acc cursor st o st' :
  fresh st ->
  backfill Date_now fuel this query options start typeDecisions authorized
    target acc cursor st = Some (o, st') ->
  fresh st'
  /\ (exists new, calls st' = calls st ++ new
                  /\ Forall (loop_call authorized) new)
  /\ (honours_types (searchEngine this) ->
      forall loop, o = Returned loop ->
      forall r, r ∈ filteredResults loop ->
                r ∈ acc \/ type r ∈ authorized).
Proof.
  revert acc cursor st.
  induction fuel as [|fuel IH]; intros acc cursor st Hfresh; [done|].
  rewrite backfill_unfold.
  destruct (iteration _ _ _ _ _ _ _ _ _ st) as [[[loop1|message] st1]|] eqn:Hit;
    [| |done].
  - apply iteration_sound in Hit as (Hfresh1 & (new1 & Hc1 & Hn1) & Hr1);
      [|done].
    destruct (continues target loop1).
    + intros Hrest. apply IH in Hrest as (Hfresh2 & (new2 & Hc2 & Hn2) & Hr2);
        [|done].
      split; [done|]. split.
      * exists (new1 ++ new2). rewrite Hc2, Hc1, <- app_assoc.
        split; [done|]. by apply Forall_app.
      * intros Hhonours loop -> r Hr.
        destruct (Hr2 Hhonours loop eq_refl r Hr) as [Hin|Hin]; [|by right].
        by apply (Hr1 Hhonours loop1 eq_refl).
    + intros [= <- <-]. split; [done|]. split; [by exists new1|done].
  - apply iteration_sound in Hit as (Hfresh1 & Hc1 & _); [|done].
    intros [= <- <-]. by repeat split.
Qed.

(** *** The whole query *)

Lemma query_spec fuel this query options st :
  let start := (Date_now (world st)).1 in
  let st1 := query_start Date_now st in
  let requested := requestedTypes this query in
  let requests := gate_requests this requested in
  let st2 := after_wave this options requests st1 in
  AuthorizedSearchEngine.query Date_now fuel this query options st
  = match (answer this options requests (world st1)).1 with
    | Threw message => Some (Threw message, st2)
    | Returned answers =>
        let decisions :=
          zipObject requested (gate_decisions this requested answers) in
        match decodePageCursor (pageCursor query) with
        | Threw message => Some (Threw message, st2)
        | Returned page =>
            match backfill Date_now fuel this query options start decisions
                    (authorizedTypes requested decisions)
                    (mul (add page one) (pageSize (config this)))
                    [] None st2 with
            | Some (Returned loop, st3) =>
                Some (Returned (page_of this page loop), st3)
            | Some (Threw message, st3) => Some (Threw message, st3)
            | None => None
            end
        end
    end.
Proof.
  intros start st1 requested requests st2.
  unfold AuthorizedSearchEngine.query.
  unfold bind at 1. unfold now at 1.
  destruct (Date_now (world st)) as [time w1] eqn:Hnow.
  unfold bind at 1. unfold new_DataLoader at 1.
  cbn [world calls next_object].
  fold (requestedTypes this query). fold requested.
  unfold bind at 1.
  assert (st1 = {| world := w1; calls := calls st;
                   next_object := next_object st; cacheMap := ∅ |}) as <-.
  { subst st1. unfold query_start. by rewrite Hnow. }
  rewrite typeDecisions_spec by apply fresh_query_start.
  fold requests. fold st2.
  destruct (answer this options requests (world st1)).1
    as [answers|message]; cbn [map_outcome]; [|done].
  unfold bind at 1. unfold lift at 1.
  destruct (decodePageCursor (pageCursor query)) as [page|message]; [|done].
  unfold bind at 1. subst start. cbn [fst].
  destruct (backfill _ _ _ _ _ _ _ _ _ _ _ st2) as [[[loop|message] st3]|];
    done.
Qed.

(** *** Requests and kept results under a restriction of the input *)

Lemma answer_length this options requests w answers :
  (answer this options requests w).1 = Returned answers ->
  length answers = length requests.
Proof.
  unfold answer. destruct requests as [|q l]; simpl.
  - by intros [= <-].
  - destruct (PermissionAuthorizer.authorize _ _ _ _) as [[values|m] w'];
      simpl; [|done].
    destruct (length values =? S (length l))%nat eqn:Hlen; [|done].
    intros [= <-]. by apply Nat.eqb_eq in Hlen.
Qed.

Lemma document_request_allowed this typeDecisions r :
  result <$> typeDecisions !! type r = Some ALLOW ->
  document_request this typeDecisions r = None.
Proof. intros H. unfold document_request. by rewrite bool_decide_eq_true_2. Qed.

Lemma document_request_unregistered this typeDecisions r :
  visibilityPermissionOf this (type r) = None ->
  document_request this typeDecisions r = None.
Proof.
  intros H. unfold document_request. rewrite H. by case_bool_decide.
Qed.

Section Restriction.

Variable this : engine.
Variable typeDecisions : gmap string AuthorizeDecision.
Variable t : string.
Hypothesis no_request :
  forall r, type r = t -> document_request this typeDecisions r = None.

Lemma document_requests_without results :
  document_requests this typeDecisions
    (filter (fun r => type r <> t) results)
  = document_requests this typeDecisions results.
Proof.
  unfold document_requests.
  induction results as [|r l IH]; [done|].
  destruct (decide (type r = t)) as [Heq|Hne].
  - rewrite filter_cons_False by (intros H; by apply H).
    csimpl. by rewrite no_request.
  - rewrite filter_cons_True by done. csimpl. by rewrite IH.
Qed.

Lemma kept_results_without results answers :
  length answers = length (document_requests this typeDecisions results) ->
  kept_results this typeDecisions (filter (fun r => type r <> t) results)
    answers
  = filter (fun r => type r <> t)
      (kept_results this typeDecisions results answers).
Proof.
  unfold document_requests. revert answers.
  induction results as [|r l IH]; intros answers Hlen; [done|].
  destruct (decide (type r = t)) as [Heq|Hne].
  - rewrite filter_cons_False by (intros H; by apply H).
    simpl in *. rewrite no_request in * by done.
    rewrite filter_cons_False by (intros H; by apply H). by apply IH.
  - rewrite filter_cons_True by done. simpl in *.
    destruct (document_request this typeDecisions r).
    + destruct answers as [|d answers]; [done|].
      simpl in Hlen. injection Hlen as Hlen.
      case_bool_decide.
      * rewrite filter_cons_True by done. f_equal. by apply IH.
      * by apply IH.
    + rewrite filter_cons_True by done. f_equal. by apply IH.
Qed.

Lemma kept_results_of_type results answers :
  length answers = length (document_requests this typeDecisions results) ->
  filter (fun r => type r = t)
    (kept_results this typeDecisions results answers)
  = filter (fun r => type r = t) results.
Proof.
  unfold document_requests. revert answers.
  induction results as [|r l IH]; intros answers Hlen; [done|].
  destruct (decide (type r = t)) as [Heq|Hne]; simpl in *.
  - rewrite no_request in * by done.
    rewrite !filter_cons_True by done. f_equal. by apply IH.
  - rewrite (filter_cons_False _ r l) by done.
    destruct (document_request this typeDecisions r).
    + destruct answers as [|d answers]; [done|].
      simpl in Hlen. injection Hlen as Hlen.
      case_bool_decide.
      * rewrite filter_cons_False by done. by apply IH.
      * by apply IH.
    + rewrite filter_cons_False by done. by apply IH.
Qed.

End Restriction.

(** *** [zipObject] *)

Lemma foldl_insert_lookup {V} (pairs : list (string * V))
    (m : gmap string V) key :
  foldl (fun m kv => <[kv.1 := kv.2]> m) m pairs !! key
  = last_assigned pairs key (m !! key).
Proof.
  revert m. induction pairs as [|[k v] l IH]; intros m; simpl; [done|].
  rewrite IH. f_equal. case_bool_decide as Hk.
  - subst. by rewrite lookup_insert_eq.
  - by rewrite lookup_insert_ne.
Qed.

Lemma zipObject_lookup {V} props (values : list V) key :
  zipObject props values !! key = last_assigned (zip props values) key None.
Proof. unfold zipObject. by rewrite foldl_insert_lookup, lookup_empty. Qed.

Lemma gate_allows_without_request this requested answers t before :
  type_request this t = None ->
  length answers = length (gate_requests this requested) ->
  last_assigned (zip requested (gate_decisions this requested answers)) t
    before
  = if bool_decide (t ∈ requested) then Some {| result := ALLOW |}
    else before.
Proof.
  intros Ht. unfold gate_requests. revert answers before.
  induction requested as [|type l IH]; intros answers before Hlen; [done|].
  simpl in *.
  assert (forall acc : option AuthorizeDecision,
            (if bool_decide (t ∈ l) then Some {| result := ALLOW |}
             else if bool_decide (type = t) then Some {| result := ALLOW |}
                  else acc)
            = if bool_decide (t ∈ type :: l) then Some {| result := ALLOW |}
              else acc) as Hstep.
  { intros acc.
    destruct (decide (type = t)) as [->|Hne].
    - rewrite (bool_decide_eq_true_2 (t ∈ t :: l)) by apply list_elem_of_here.
      rewrite (bool_decide_eq_true_2 (t = t)) by done.
      by case_bool_decide.
    - rewrite (bool_decide_eq_false_2 (type = t)) by done.
      apply (f_equal (fun b : bool => if b then _ else _)).
      apply bool_decide_ext. rewrite elem_of_cons.
      split; [by right|]. by intros [->|?]. }
  destruct (type_request this type) as [request|] eqn:Hty.
  - destruct answers as [|d answers]; [done|].
    simpl in Hlen. injection Hlen as Hlen. simpl.
    rewrite IH by done. rewrite <- Hstep.
    by rewrite !(bool_decide_eq_false_2 (type = t)) by congruence.
  - simpl. rewrite IH by done. by rewrite <- Hstep.
Qed.

Lemma type_request_unregistered this t :
  visibilityPermissionOf this t = None -> type_request this t = None.
Proof. intros H. unfold type_request. by rewrite H. Qed.

Lemma gate_requests_without this requested t :
  type_request this t = None ->
  gate_requests this (filter (fun type => type <> t) requested)
  = gate_requests this requested.
Proof.
  intros Ht. unfold gate_requests.
  induction requested as [|type l IH]; [done|].
  destruct (decide (type = t)) as [->|Hne].
  - rewrite filter_cons_False by (intros H; by apply H).
    csimpl. by rewrite Ht.
  - rewrite filter_cons_True by done. csimpl. by rewrite IH.
Qed.

Lemma slice_sublist {A} (l : list A) start end_ :
  sublist (slice l start end_) l.
Proof.
  unfold slice. etrans; [apply sublist_take|apply sublist_drop].
Qed.

Lemma not_authorized_when_denied requested
    (decisions : gmap string AuthorizeDecision) t :
  result <$> decisions !! t = Some DENY ->
  t ∉ authorizedTypes requested decisions.
Proof.
  intros Hdeny. unfold authorizedTypes.
  rewrite list_elem_of_filter. by intros [Hne _].
Qed.

(** The loop returns what its last iteration computed, and the [while]
    condition failed there. *)
Lemma backfill_last fuel this query options start typeDecisions authorized
    target acc cursor st loop st' :
  fresh st ->
  backfill Date_now fuel this query options start typeDecisions authorized
    target acc cursor st = Some (Returned loop, st') ->
  exists acc' cursor' st_last,
    fresh st_last
    /\ iteration Date_now this query options start typeDecisions authorized
         acc' cursor' st_last = Some (Returned loop, st')
    /\ continues target loop = false.
Proof.
  revert acc cursor st.
  induction fuel as [|fuel IH]; intros acc cursor st Hfresh; [done|].
  rewrite backfill_unfold.
  destruct (iteration _ _ _ _ _ _ _ _ _ st) as [[[loop1|message] st1]|] eqn:Hit;
    [|done|done].
  destruct (continues target loop1) eqn:Hc.
  - apply IH. by apply iteration_sound in Hit as (? & _).
  - intros [= <- <-]. by exists acc, cursor, st.
Qed.

Lemma spec_keeps_request this typeDecisions decision_for r request :
  document_request this typeDecisions r = Some request ->
  spec_keeps this typeDecisions decision_for r
  = bool_decide (decision_for request = ALLOW).
Proof.
  unfold document_request, spec_keeps.
  case_bool_decide; [done|].
  destruct (visibilityPermissionOf this (type r)); [|done].
  destruct (authorization (document r)) as [[|c reference]|]; simpl;
    [done| |done].
  by intros [= <-].
Qed.

Lemma spec_keeps_no_request this typeDecisions decision_for r :
  document_request this typeDecisions r = None ->
  spec_keeps this typeDecisions decision_for r = true.
Proof.
  unfold document_request, spec_keeps.
  case_bool_decide; [done|].
  destruct (visibilityPermissionOf this (type r)); [|done].
  by destruct (authorization (document r)) as [[|c reference]|].
Qed.

Lemma kept_results_decided this typeDecisions decision_for results :
  kept_results this typeDecisions results
    (map (fun request => {| result := decision_for request |})
       (document_requests this typeDecisions results))
  = List.filter (spec_keeps this typeDecisions decision_for) results.
Proof.
  unfold document_requests.
  induction results as [|r l IH]; [done|].
  cbn [kept_results List.filter]. csimpl.
  destruct (document_request this typeDecisions r) as [request|] eqn:Hreq.
  - rewrite (spec_keeps_request _ _ _ _ _ Hreq). csimpl.
    case_bool_decide; by rewrite IH.
  - rewrite (spec_keeps_no_request _ _ _ _ Hreq). by rewrite IH.
Qed.

(** *** What the observers see *)

Lemma answer_keeps_log this options requests w
    (log : World -> list SearchResultSet) :
  records Date_now this log ->
  log (answer this options requests w).2 = log w.
Proof.
  intros (_ & Hauthorize & _). unfold answer.
  destruct requests as [|q l]; [done|].
  specialize (Hauthorize (q :: l) options w).
  by destruct (PermissionAuthorizer.authorize _ _ _ _) as [[values|m] w'].
Qed.

Lemma answer_by_policy this options policy requests w :
  decides_by this policy ->
  (answer this options requests w).1
  = Returned (map (fun request => {| result := policy request |}) requests).
Proof.
  intros Hpolicy. unfold answer. destruct requests as [|q l]; [done|].
  specialize (Hpolicy (q :: l) options w).
  destruct (PermissionAuthorizer.authorize _ _ _ _) as [o w'].
  cbn [fst] in *. subst o. by rewrite length_map, Nat.eqb_refl.
Qed.

(** One iteration that returns adds one answer to the log, leaves the
    cursor of that answer, and appends what the filter keeps of it. *)
Lemma iteration_log this query options start decisions authorized acc
    cursor st loop st' (log : World -> list SearchResultSet) :
  fresh st -> records Date_now this log ->
  iteration Date_now this query options start decisions authorized
    acc cursor st = Some (Returned loop, st') ->
  exists response kept,
    log (world st') = log (world st) ++ [response]
    /\ nextPageCursor loop = SearchCommon.nextPageCursor response
    /\ filteredResults loop = acc ++ kept
    /\ sublist kept (results response)
    /\ forall policy, decides_by this policy ->
         kept = List.filter (spec_keeps this decisions policy)
                  (results response).
Proof.
  intros Hfresh Hlog. rewrite iteration_spec by done. cbv zeta.
  unfold after_now, after_wave, after_query. cbn [world].
  pose proof Hlog as (Hengine & _ & Hnow).
  destruct (SearchCommon.query (searchEngine this) _ options (world st))
    as [[response|message] w1] eqn:Hq; cbn [fst snd]; [|done].
  set (requests := document_requests this decisions (results response)).
  pose proof (answer_keeps_log this options requests w1 log Hlog) as Hwave.
  pose proof (fun policy (H : decides_by this policy) =>
                answer_by_policy this options policy requests w1 H)
    as Hpolicy.
  destruct (answer this options requests w1) as [[answers|message] w2];
    cbn [fst snd] in *; [|done].
  intros [= <- <-]. exists response, (kept_results this decisions
                                        (results response) answers).
  cbn [world filteredResults nextPageCursor].
  split; [by rewrite Hnow, Hwave, (Hengine _ _ _ _ _ Hq)|].
  split; [done|]. split; [done|]. split; [apply kept_results_sublist|].
  intros policy H. specialize (Hpolicy policy H). injection Hpolicy as ->.
  unfold requests. apply kept_results_decided.
Qed.

Lemma backfill_log fuel this query options start decisions authorized target
    acc cursor st loop st' (log : World -> list SearchResultSet) :
  fresh st -> records Date_now this log ->
  backfill Date_now fuel this query options start decisions authorized
    target acc cursor st = Some (Returned loop, st') ->
  exists earlier response kept,
    log (world st') = log (world st) ++ earlier ++ [response]
    /\ nextPageCursor loop = SearchCommon.nextPageCursor response
    /\ filteredResults loop = acc ++ kept
    /\ sublist kept (concat (map results (earlier ++ [response])))
    /\ forall policy, decides_by this policy ->
         kept = List.filter (spec_keeps this decisions policy)
                  (concat (map results (earlier ++ [response]))).
Proof.
  intros Hfresh Hlog. revert acc cursor st Hfresh.
  induction fuel as [|fuel IH]; intros acc cursor st Hfresh; [done|].
  rewrite backfill_unfold.
  destruct (iteration _ _ _ _ _ _ _ _ _ st) as [[[loop1|message] st1]|] eqn:Hit;
    [|done|done].
  destruct (iteration_log _ _ _ _ _ _ _ _ _ _ _ _ Hfresh Hlog Hit)
    as (response1 & kept1 & Hl1 & Hc1 & Hk1 & Hs1 & Hp1).
  apply iteration_sound in Hit as (Hfresh1 & _); [|done].
  destruct (continues target loop1).
  - intros Hrest.
    destruct (IH _ _ _ Hfresh1 Hrest)
      as (earlier2 & response2 & kept2 & Hl2 & Hc2 & Hk2 & Hs2 & Hp2).
    exists (response1 :: earlier2), response2, (kept1 ++ kept2).
    split; [by rewrite Hl2, Hl1, <- app_assoc|]. split; [done|].
    split; [by rewrite Hk2, Hk1, <- app_assoc|].
    cbn [app map concat]. split; [by apply sublist_app|].
    intros policy H. rewrite List.filter_app.
    by rewrite <- (Hp1 policy H), <- (Hp2 policy H).
  - intros [= <- <-]. exists [], response1, kept1.
    cbn [app map concat]. rewrite app_nil_r. by repeat split.
Qed.

(** The gate and the clock leave the log as it is. *)
Lemma gate_keeps_log this options requests st
    (log : World -> list SearchResultSet) :
  records Date_now this log ->
  log (world (after_wave this options requests (query_start Date_now st)))
  = log (world st).
Proof.
  intros Hlog. unfold after_wave, query_start. cbn [world].
  rewrite (answer_keeps_log _ _ _ _ _ Hlog).
  by destruct Hlog as (_ & _ & ->).
Qed.

(** *** The budget is measured from the start of the query *)

Section Budget.

Variable clock : World -> Z.
Variable began : World -> list Z.
Variables (budget start : Z).
Variable this : engine.

Hypothesis Date_now_reads : forall w, Date_now w = (clock w, w).
Hypothesis clock_range : forall w, 0 <= clock w < 2 ^ 53.
Hypothesis budget_given : queryLatencyBudgetMs (config this) = of_Z budget.
Hypothesis budget_range : 0 <= budget < 2 ^ 53.
Hypothesis start_range : 0 <= start < 2 ^ 53.

Lemma answer_keeps_began options requests w :
  times_calls this clock began ->
  began (answer this options requests w).2 = began w.
Proof.
  intros [_ Hauthorize]. unfold answer.
  destruct requests as [|q l]; [done|].
  specialize (Hauthorize (q :: l) options w).
  by destruct (PermissionAuthorizer.authorize _ _ _ _) as [[values|m] w'].
Qed.

(** The flag of an iteration that returns compares the time at which it
    ends with the start it is given. *)
Lemma iteration_flag query options decisions authorized acc cursor st loop
    st' :
  fresh st ->
  iteration Date_now this query options start decisions authorized
    acc cursor st = Some (Returned loop, st') ->
  latencyBudgetExhausted loop = (budget <? clock (world st') - start).
Proof.
  intros Hfresh. rewrite iteration_spec by done. cbv zeta.
  unfold after_now, after_wave, after_query. cbn [world].
  destruct (SearchCommon.query (searchEngine this) _ options (world st))
    as [[response|message] w1]; cbn [fst snd]; [|done].
  destruct (answer this options _ w1) as [[answers|message] w2];
    cbn [fst snd]; [|done].
  intros [= <- <-]. cbn [world latencyBudgetExhausted].
  rewrite !Date_now_reads. cbn [fst snd].
  rewrite budget_given. apply elapsed_exceeds; [done|apply clock_range|lia].
Qed.

(** And so does the flag the loop ends with. *)
Lemma backfill_flag fuel query options decisions authorized target acc
    cursor st loop st' :
  fresh st ->
  backfill Date_now fuel this query options start decisions authorized
    target acc cursor st = Some (Returned loop, st') ->
  latencyBudgetExhausted loop = (budget <? clock (world st') - start).
Proof.
  intros Hfresh Hloop.
  apply backfill_last in Hloop as (acc' & cursor' & st_last & Hfresh' & Hit
                                   & _); [|done].
  by eapply iteration_flag.
Qed.

(** One iteration begins one engine call, in the world in which it
    starts. *)
Lemma iteration_began query options decisions authorized acc cursor st o
    st' :
  fresh st -> times_calls this clock began ->
  iteration Date_now this query options start decisions authorized
    acc cursor st = Some (o, st') ->
  began (world st') = began (world st) ++ [clock (world st)].
Proof.
  intros Hfresh Htimes. rewrite iteration_spec by done. cbv zeta.
  unfold after_now, after_wave, after_query. cbn [world].
  pose proof (proj1 Htimes (engine_query query authorized cursor) options
                (world st)) as Hengine.
  destruct (SearchCommon.query (searchEngine this) _ options (world st))
    as [[response|message] w1]; cbn [fst snd] in *;
    [|by intros [= <- <-]].
  set (requests := document_requests this decisions (results response)).
  pose proof (answer_keeps_began options requests w1 Htimes) as Hwave.
  destruct (answer this options requests w1) as [[answers|message] w2];
    cbn [fst snd] in *.
  - intros [= <- <-]. cbn [world]. rewrite !Date_now_reads. cbn [fst snd].
    by rewrite Hwave.
  - intros [= <- <-]. cbn [world]. by rewrite Hwave.
Qed.

(** Every iteration of the loop but its first begins its engine call
    within the budget, counted from [start]. *)
Lemma backfill_began fuel query options decisions authorized target acc
    cursor st o st' :
  fresh st -> times_calls this clock began ->
  backfill Date_now fuel this query options start decisions authorized
    target acc cursor st = Some (o, st') ->
  exists later,
    began (world st') = began (world st) ++ clock (world st) :: later
    /\ Forall (fun t => t - start <= budget) later.
Proof.
  intros Hfresh Htimes. revert acc cursor st Hfresh.
  induction fuel as [|fuel IH]; intros acc cursor st Hfresh; [done|].
  rewrite backfill_unfold.
  destruct (iteration _ _ _ _ _ _ _ _ _ st) as [[o1 st1]|] eqn:Hit; [|done].
  pose proof (iteration_began _ _ _ _ _ _ _ _ _ Hfresh Htimes Hit) as Hb1.
  destruct o1 as [loop1|message].
  2:{ intros [= <- <-]. by exists []. }
  pose proof (iteration_flag _ _ _ _ _ _ _ _ _ Hfresh Hit) as Hflag1.
  apply iteration_sound in Hit as (Hfresh1 & _); [|done].
  destruct (continues target loop1) eqn:Hgoes.
  - intros Hrest. destruct (IH _ _ _ Hfresh1 Hrest) as (later & Hb & Hl).
    exists (clock (world st1) :: later). split.
    + by rewrite Hb, Hb1, <- app_assoc.
    + constructor; [|done].
      unfold continues in Hgoes. apply andb_prop in Hgoes as [_ Hbudget].
      rewrite Hflag1 in Hbudget.
      by apply negb_true_iff, Z.ltb_ge in Hbudget.
  - intros [= <- <-]. by exists [].
Qed.

End Budget.

(** Every engine call of a query but the first is begun within the budget,
    counted from the start of the query. *)
Lemma later_calls_begin_within_budget (clock : World -> Z)
    (began : World -> list Z) budget fuel this query options st o st' :
  (forall w, Date_now w = (clock w, w)) ->
  (forall w, 0 <= clock w < 2 ^ 53) ->
  0 <= budget < 2 ^ 53 ->
  queryLatencyBudgetMs (config this) = of_Z budget ->
  times_calls this clock began ->
  AuthorizedSearchEngine.query Date_now fuel this query options st
  = Some (o, st') ->
  (began (world st') = began (world st) /\ exists message, o = Threw message)
  \/ exists first later,
       began (world st') = began (world st) ++ first :: later
       /\ Forall (fun t => t - clock (world st) <= budget) later.
Proof.
  intros Hnow Hrange Hbudget Hconfig Htimes.
  rewrite query_spec. cbv zeta.
  set (requested := requestedTypes this query).
  set (requests := gate_requests this requested).
  set (st1 := query_start Date_now st).
  pose proof (wave_fresh this options requests st1
                (fresh_query_start st)) as Hfresh2.
  assert (world st1 = world st) as Hw1.
  { unfold st1, query_start. cbn [world]. by rewrite Hnow. }
  assert (began (world (after_wave this options requests st1))
          = began (world st)) as Hgate.
  { unfold after_wave. cbn [world].
    by rewrite (answer_keeps_began clock began this _ _ _ Htimes), Hw1. }
  assert (world (after_wave this options requests st1)
          = (answer this options requests (world st)).2) as Hw2.
  { unfold after_wave. cbn [world]. by rewrite Hw1. }
  destruct (answer this options requests (world st1)).1
    as [answers|message]; [|intros [= <- <-]; left; by eauto].
  destruct (decodePageCursor (pageCursor query)) as [page|message];
    [|intros [= <- <-]; left; by eauto].
  destruct (backfill _ _ _ _ _ _ _ _ _ _ _ _)
    as [[o3 st3]|] eqn:Hloop; [|done].
  rewrite Hnow in Hloop. cbn [fst] in Hloop.
  destruct (backfill_began clock began budget (clock (world st)) this Hnow
              Hrange Hconfig Hbudget (Hrange (world st)) _ _ _ _ _ _ _ _ _
              _ _ Hfresh2 Htimes Hloop) as (later & Hb & Hl).
  intros Hrun.
  assert (st' = st3) as ->.
  { destruct o3; by injection Hrun as _ ->. }
  right. rewrite Hb, Hgate. by eexists _, _.
Qed.

(** A query that returns after more than the budget, counted from its
    start, returns no next cursor. *)
Lemma overrun_ends_without_cursor (clock : World -> Z) budget fuel this
    query options st page_set st' :
  (forall w, Date_now w = (clock w, w)) ->
  (forall w, 0 <= clock w < 2 ^ 53) ->
  0 <= budget < 2 ^ 53 ->
  queryLatencyBudgetMs (config this) = of_Z budget ->
  AuthorizedSearchEngine.query Date_now fuel this query options st
  = Some (Returned page_set, st') ->
  budget < clock (world st') - clock (world st) ->
  SearchCommon.nextPageCursor page_set = None.
Proof.
  intros Hnow Hrange Hbudget Hconfig.
  rewrite query_spec. cbv zeta.
  set (requested := requestedTypes this query).
  set (requests := gate_requests this requested).
  set (st1 := query_start Date_now st).
  pose proof (wave_fresh this options requests st1
                (fresh_query_start st)) as Hfresh2.
  destruct (answer this options requests (world st1)).1
    as [answers|message]; [|done].
  destruct (decodePageCursor (pageCursor query)) as [page|message]; [|done].
  destruct (backfill _ _ _ _ _ _ _ _ _ _ _ _)
    as [[[loop|message] st3]|] eqn:Hloop; [|done|done].
  rewrite Hnow in Hloop. cbn [fst] in Hloop.
  pose proof (backfill_flag clock budget (clock (world st)) this Hnow Hrange
                Hconfig Hbudget (Hrange (world st)) _ _ _ _ _ _ _ _ _ _ _
                Hfresh2 Hloop) as Hflag.
  intros [= <- <-] Hover. cbn [page_of SearchCommon.nextPageCursor].
  by rewrite Hflag, (proj2 (Z.ltb_lt _ _) Hover).
Qed.

(* --------------------------------------------------------------------- *)
(** ** Claims about the gate, the filter and the returned page *)
(* --------------------------------------------------------------------- *)

(** C1. A type the gate decided DENY is in the [types] of no engine call
    of the query, whatever the query's outcome; and, the engine returning
    only results of the types it is asked for (its contract, section 6 of
    the specification), no result of that type is in the returned page. *)
Theorem type_level_deny_excludes_type fuel this query options st
    decisions st_gate o st' t :
  typeDecisions this (requestedTypes this query) options
    (query_start Date_now st) = Some (Returned decisions, st_gate) ->
  result <$> decisions !! t = Some DENY ->
  AuthorizedSearchEngine.query Date_now fuel this query options st
  = Some (o, st') ->
  (exists new,
     calls st' = calls st ++ new
     /\ forall sent options', Query sent options' ∈ new ->
        exists restriction,
          SearchCommon.types sent = Some restriction /\ t ∉ restriction)
  /\ (honours_types (searchEngine this) ->
      forall page, o = Returned page ->
      forall r, r ∈ results page -> type r <> t).
Proof.
  intros Hgate Hdeny.
  rewrite typeDecisions_spec in Hgate by apply fresh_query_start.
  rewrite query_spec. cbv zeta.
  set (requested := requestedTypes this query) in *.
  set (requests := gate_requests this requested) in *.
  set (st1 := query_start Date_now st) in *.
  pose proof (wave_fresh this options requests st1
                (fresh_query_start st)) as Hfresh2.
  destruct (answer this options requests (world st1)).1
    as [answers|message] eqn:Ha; [|done].
  cbn [map_outcome] in Hgate. injection Hgate as <- <-.
  set (decisions := zipObject requested _) in *.
  pose proof (not_authorized_when_denied requested decisions t Hdeny)
    as Hnot.
  assert (calls (after_wave this options requests st1)
          = calls st ++ wave_calls options requests) as Hcalls2 by done.
  destruct (decodePageCursor (pageCursor query)) as [page|message].
  2:{ intros [= <- <-]. split; [|done].
      exists (wave_calls options requests). split; [done|].
      intros sent options' Hin. destruct requests; simpl in Hin.
      - by apply elem_of_nil in Hin.
      - by apply list_elem_of_singleton in Hin. }
  destruct (backfill _ _ _ _ _ _ _ _ _ _ _ _)
    as [[o3 st3]|] eqn:Hloop; [|done].
  apply backfill_sound in Hloop as (_ & (new & Hc & Hnew) & Hres); [|done].
  intros Hrun.
  assert (st' = st3) as ->.
  { destruct o3; by injection Hrun as _ ->. }
  split.
  - exists (wave_calls options requests ++ new).
    split; [by rewrite Hc, Hcalls2, <- app_assoc|].
    intros sent options' [Hin|Hin]%elem_of_app.
    + destruct requests; simpl in Hin.
      * by apply elem_of_nil in Hin.
      * by apply list_elem_of_singleton in Hin.
    + rewrite Forall_forall in Hnew. apply Hnew in Hin. simpl in Hin.
      by exists (authorizedTypes requested decisions).
  - intros Hhonours page_set -> r Hr.
    destruct o3 as [loop|message]; [|done].
    injection Hrun as <-. cbn [page_of results] in Hr.
    eapply elem_of_sublist in Hr; [|apply slice_sublist].
    destruct (Hres Hhonours loop eq_refl r Hr) as [Hin|Hin].
    + by apply elem_of_nil in Hin.
    + intros <-. done.
Qed.

(** C3. Started with a cache that holds no future key, and the authorizer
    answering the wave of per-document requests with [answers] (one per
    request; no call is made for no request), [filterResults] returns
    [kept_results]: a subsequence of its input, in order, where a result
    of a type decided ALLOW is kept, a result that lacks the permission or
    the resource reference is kept, and any other result is kept exactly
    when its own decision is ALLOW.  When the authorizer decides each
    request by a function, this is the input filtered by [spec_keeps]. *)
Theorem filterResults_keeps_authorized_subsequence this options results
    typeDecisions st answers :
  fresh st ->
  (answer this options (document_requests this typeDecisions results)
     (world st)).1 = Returned answers ->
  filterResults this options results typeDecisions st
  = Some (Returned (kept_results this typeDecisions results answers),
          after_wave this options
            (document_requests this typeDecisions results) st)
  /\ sublist (kept_results this typeDecisions results answers) results
  /\ forall decision_for,
       answers = map (fun request => {| result := decision_for request |})
                   (document_requests this typeDecisions results) ->
       kept_results this typeDecisions results answers
       = List.filter (spec_keeps this typeDecisions decision_for) results.
Proof.
  intros Hfresh Ha. split; [|split].
  - rewrite filterResults_spec by done. by rewrite Ha.
  - apply kept_results_sublist.
  - intros decision_for ->. apply kept_results_decided.
Qed.


(** Every engine call of a query carries the authorized types of its
    gate. *)
Lemma query_calls fuel this query options st o st' :
  AuthorizedSearchEngine.query Date_now fuel this query options st
  = Some (o, st') ->
  exists new,
    calls st' = calls st ++ new
    /\ forall sent options', Query sent options' ∈ new ->
       exists decisions st_gate,
         typeDecisions this (requestedTypes this query) options
           (query_start Date_now st) = Some (Returned decisions, st_gate)
         /\ SearchCommon.types sent
            = Some (authorizedTypes (requestedTypes this query) decisions).
Proof.
  rewrite query_spec. cbv zeta.
  rewrite typeDecisions_spec by apply fresh_query_start.
  set (requested := requestedTypes this query) in *.
  set (requests := gate_requests this requested) in *.
  set (st1 := query_start Date_now st) in *.
  pose proof (wave_fresh this options requests st1
                (fresh_query_start st)) as Hfresh2.
  assert (calls (after_wave this options requests st1)
          = calls st ++ wave_calls options requests) as Hcalls2 by done.
  assert (forall sent options',
            Query sent options' ∈ wave_calls options requests -> False)
    as Hwave.
  { intros sent options' Hin. destruct requests; simpl in Hin.
    - by apply elem_of_nil in Hin.
    - by apply list_elem_of_singleton in Hin. }
  destruct (answer this options requests (world st1)).1
    as [answers|message] eqn:Ha.
  2:{ intros [= <- <-]. exists (wave_calls options requests).
      split; [done|]. intros sent options' Hin. by apply Hwave in Hin. }
  destruct (decodePageCursor (pageCursor query)) as [page|message].
  2:{ intros [= <- <-]. exists (wave_calls options requests).
      split; [done|]. intros sent options' Hin. by apply Hwave in Hin. }
  destruct (backfill _ _ _ _ _ _ _ _ _ _ _ _)
    as [[o3 st3]|] eqn:Hloop; [|done].
  apply backfill_sound in Hloop as (_ & (new & Hc & Hnew) & _); [|done].
  intros Hrun.
  assert (st' = st3) as ->.
  { destruct o3; by injection Hrun as _ ->. }
  exists (wave_calls options requests ++ new).
  split; [by rewrite Hc, Hcalls2, <- app_assoc|].
  intros sent options' [Hin|Hin]%elem_of_app; [by apply Hwave in Hin|].
  rewrite Forall_forall in Hnew. apply Hnew in Hin. simpl in Hin.
  eexists _, _. split; [reflexivity|]. exact Hin.
Qed.

Lemma gate_allows_unrequested_permission this requested options st
    decisions st_gate t :
  fresh st ->
  typeDecisions this requested options st
  = Some (Returned decisions, st_gate) ->
  t ∈ requested ->
  visibilityPermissionOf this t = None ->
  decisions !! t = Some {| result := ALLOW |}.
Proof.
  intros Hfresh Hgate Hin Hnone.
  rewrite typeDecisions_spec in Hgate by done.
  destruct (answer this options _ _).1 as [answers|message] eqn:Ha; [|done].
  injection Hgate as <- _.
  apply answer_length in Ha.
  rewrite zipObject_lookup.
  rewrite gate_allows_without_request;
    [|by apply type_request_unregistered|done].
  by rewrite bool_decide_eq_true_2.
Qed.

(** C8. A requested type without a visibility permission, or decided ALLOW
    by the gate: the filter issues no request for its results (the wave is
    the wave of the other results, so the authorizer sees the same call,
    if any), and keeps every one of them, in place. *)
Theorem type_level_allow_skips_document_checks this options requested st
    decisions st_gate t :
  fresh st ->
  typeDecisions this requested options st
  = Some (Returned decisions, st_gate) ->
  t ∈ requested ->
  visibilityPermissionOf this t = None
  \/ result <$> decisions !! t = Some ALLOW ->
  forall results st2, fresh st2 ->
    let others := filter (fun r => type r <> t) results in
    document_requests this decisions others
    = document_requests this decisions results
    /\ snd <$> filterResults this options others decisions st2
       = snd <$> filterResults this options results decisions st2
    /\ forall kept st3,
         filterResults this options results decisions st2
         = Some (Returned kept, st3) ->
         filter (fun r => type r = t) kept
         = filter (fun r => type r = t) results
         /\ filterResults this options others decisions st2
            = Some (Returned (filter (fun r => type r <> t) kept), st3).
Proof.
  intros Hfresh Hgate Hin Hallow results st2 Hfresh2 others.
  assert (result <$> decisions !! t = Some ALLOW) as Hdecided.
  { destruct Hallow as [Hnone|Hallow]; [|done].
    by rewrite (gate_allows_unrequested_permission _ _ _ _ _ _ _
                  Hfresh Hgate Hin Hnone). }
  assert (forall r, type r = t -> document_request this decisions r = None)
    as Hno.
  { intros r <-. by apply document_request_allowed. }
  pose proof (document_requests_without this decisions t Hno results) as Hreq.
  fold others in Hreq.
  split; [done|]. split.
  - rewrite !filterResults_spec by done. simpl. by rewrite Hreq.
  - intros kept st3. rewrite !filterResults_spec by done. rewrite Hreq.
    destruct (answer this options _ (world st2)).1
      as [answers|message] eqn:Ha; [|done].
    intros [= <- <-]. apply answer_length in Ha. split.
    + by apply kept_results_of_type.
    + cbn [map_outcome]. do 3 f_equal. by apply kept_results_without.
Qed.

(** C10. A requested type that the construction-time mapping does not
    know: the gate issues no request for it (its wave, hence its call and
    the world after it, is the wave without the type), decides ALLOW for
    it and keeps it among the authorized types; every engine call of the
    query carries it in its [types]; and [filterResults] issues no request
    for a result of the type (it leaves the same state, with the same
    calls, as on the results of the other types alone) and returns every
    result of the type, in place, beside what it returns of the others. *)
Theorem unregistered_type_allowed_by_default this query options t :
  property (types this) t = None ->
  t ∈ requestedTypes this query ->
  let requested := requestedTypes this query in
  let others := filter (fun type => type <> t) requested in
  gate_requests this others = gate_requests this requested
  /\ (forall st, fresh st ->
        snd <$> typeDecisions this others options st
        = snd <$> typeDecisions this requested options st)
  /\ (forall st decisions st_gate, fresh st ->
        typeDecisions this requested options st
        = Some (Returned decisions, st_gate) ->
        decisions !! t = Some {| result := ALLOW |}
        /\ t ∈ authorizedTypes requested decisions)
  /\ (forall fuel st o st',
        AuthorizedSearchEngine.query Date_now fuel this query options st
        = Some (o, st') ->
        exists new,
          calls st' = calls st ++ new
          /\ forall sent options', Query sent options' ∈ new ->
             exists restriction,
               SearchCommon.types sent = Some restriction
               /\ t ∈ restriction)
  /\ (forall decisions results st, fresh st ->
        let others := filter (fun r => type r <> t) results in
        snd <$> filterResults this options others decisions st
        = snd <$> filterResults this options results decisions st
        /\ forall kept st',
             filterResults this options results decisions st
             = Some (Returned kept, st') ->
             filter (fun r => type r = t) kept
             = filter (fun r => type r = t) results
             /\ filterResults this options others decisions st
                = Some (Returned (filter (fun r => type r <> t) kept), st')).
Proof.
  intros Hunknown Hin requested others.
  assert (visibilityPermissionOf this t = None) as Hnone.
  { unfold visibilityPermissionOf. by rewrite Hunknown. }
  assert (forall st decisions st_gate, fresh st ->
            typeDecisions this requested options st
            = Some (Returned decisions, st_gate) ->
            decisions !! t = Some {| result := ALLOW |}
            /\ t ∈ authorizedTypes requested decisions) as Hgate.
  { intros st decisions st_gate Hfresh Hrun.
    pose proof (gate_allows_unrequested_permission _ _ _ _ _ _ _
                  Hfresh Hrun Hin Hnone) as Hd.
    split; [done|]. unfold authorizedTypes.
    apply list_elem_of_filter. split; [|done]. by rewrite Hd. }
  pose proof (gate_requests_without this requested t
                (type_request_unregistered this t Hnone)) as Hreq.
  fold others in Hreq.
  split; [done|]. split; [|split; [done|split]].
  - intros st Hfresh. rewrite !typeDecisions_spec by done. simpl.
    by rewrite Hreq.
  - intros fuel st o st' Hrun.
    apply query_calls in Hrun as (new & Hcalls & Hnew).
    exists new. split; [done|]. intros sent options' Hsent.
    apply Hnew in Hsent as (decisions & st_gate & Hrun & Htypes).
    eexists. split; [exact Htypes|].
    by eapply Hgate; [apply fresh_query_start|exact Hrun].
  - intros decisions results st Hfresh others'.
    assert (forall r, type r = t ->
                      document_request this decisions r = None) as Hno.
    { intros r <-. by apply document_request_unregistered. }
    pose proof (document_requests_without this decisions t Hno results)
      as Hsame.
    fold others' in Hsame. split.
    + rewrite !filterResults_spec by done. simpl. by rewrite Hsame.
    + intros kept st'. rewrite !filterResults_spec by done. rewrite Hsame.
      destruct (answer this options _ (world st)).1
        as [answers|message] eqn:Ha; [|done].
      intros [= <- <-]. apply answer_length in Ha. split.
      * by apply kept_results_of_type.
      * cbn [map_outcome]. do 3 f_equal. by apply kept_results_without.
Qed.

(** *** The latency budget *)

Lemma wave_calls_no_engine_call options requests :
  List.filter is_engine_call (wave_calls options requests) = [].
Proof. by destruct requests. Qed.

Lemma answer_allowing this options (clock : World -> Z)
    (early : World -> Prop) :
  (forall requests options w, exists w',
     PermissionAuthorizer.authorize (permissions this) requests options w
     = (Returned (map (fun _ => {| result := ALLOW |}) requests), w')
     /\ clock w <= clock w' /\ (early w -> early w')) ->
  forall requests w, exists w',
    answer this options requests w
    = (Returned (map (fun _ => {| result := ALLOW |}) requests), w')
    /\ clock w <= clock w' /\ (early w -> early w').
Proof.
  intros Hallow requests w. unfold answer.
  destruct requests as [|q l]; [by exists w|].
  destruct (Hallow (q :: l) options w) as (w' & -> & Hclock).
  exists w'. split; [|done].
  by rewrite length_map, Nat.eqb_refl.
Qed.

(** C6. Time is what [Date.now()] reads off a clock, leaving the world
    as it is; time values and the budget are integers below [2^53].
    (1) The budget is counted from the start of the query.  Whatever the
    engine and the authorizer, and whatever the outcome, every engine call
    of a query but the first is begun at most [budget] milliseconds after
    the clock was read at the start of the query; the times are those an
    observer in the world notes when an engine call is begun.  No further
    iteration begins, then, once the time elapsed at the end of an
    iteration exceeds the budget.
    (2) A query that returns more than [budget] milliseconds after its
    start returns no next cursor.
    (3) An iteration that ends with the budget exceeded is the last: the
    loop returns what that iteration computed, however many iterations it
    might still run, and the page built from it has no next cursor.
    (4) The flag of an iteration is the comparison
    [Date.now() - queryStartTime > queryLatencyBudgetMs] on the clock read
    once the engine and the authorizer have answered.
    (5) With an engine that, called early enough, returns a further cursor
    and takes longer than the budget, an authorizer that allows everything
    and puts the clock neither back nor past that time, and a query that
    starts early enough, the query returns after exactly one engine call,
    without a next cursor. *)
Theorem latency_budget_stops_backfill :
  (forall (clock : World -> Z) (began : World -> list Z) budget fuel this
          query options st o st',
     (forall w, Date_now w = (clock w, w)) ->
     (forall w, 0 <= clock w < 2 ^ 53) ->
     0 <= budget < 2 ^ 53 ->
     queryLatencyBudgetMs (config this) = of_Z budget ->
     times_calls this clock began ->
     AuthorizedSearchEngine.query Date_now fuel this query options st
     = Some (o, st') ->
     (began (world st') = began (world st)
      /\ exists message, o = Threw message)
     \/ exists first later,
          began (world st') = began (world st) ++ first :: later
          /\ Forall (fun t => t - clock (world st) <= budget) later)
  /\ (forall (clock : World -> Z) budget fuel this query options st
             page_set st',
        (forall w, Date_now w = (clock w, w)) ->
        (forall w, 0 <= clock w < 2 ^ 53) ->
        0 <= budget < 2 ^ 53 ->
        queryLatencyBudgetMs (config this) = of_Z budget ->
        AuthorizedSearchEngine.query Date_now fuel this query options st
        = Some (Returned page_set, st') ->
        budget < clock (world st') - clock (world st) ->
        SearchCommon.nextPageCursor page_set = None)
  /\ (forall fuel this query options start decisions authorized target acc
          cursor st loop st',
     iteration Date_now this query options start decisions authorized
       acc cursor st = Some (Returned loop, st') ->
     latencyBudgetExhausted loop = true ->
     backfill Date_now (S fuel) this query options start decisions
       authorized target acc cursor st = Some (Returned loop, st')
     /\ forall page,
          SearchCommon.nextPageCursor (page_of this page loop) = None)
  /\ (forall this query options start decisions authorized acc cursor st
             loop st',
        fresh st ->
        iteration Date_now this query options start decisions authorized
          acc cursor st = Some (Returned loop, st') ->
        exists w,
          latencyBudgetExhausted loop
          = gt (sub (of_Z (Date_now w).1) (of_Z start))
               (queryLatencyBudgetMs (config this))
          /\ world st' = (Date_now w).2)
  /\ (forall (clock : World -> Z) (early : World -> Prop) budget fuel this
             query options st page,
        (forall w, Date_now w = (clock w, w)) ->
        (forall w, 0 <= clock w < 2 ^ 53) ->
        0 <= budget < 2 ^ 53 ->
        queryLatencyBudgetMs (config this) = of_Z budget ->
        (forall sent options w, early w -> exists response w',
           SearchCommon.query (searchEngine this) sent options w
           = (Returned response, w')
           /\ truthy (SearchCommon.nextPageCursor response) = true
           /\ budget < clock w' - clock w) ->
        (forall requests options w, exists w',
           PermissionAuthorizer.authorize (permissions this) requests
             options w
           = (Returned (map (fun _ => {| result := ALLOW |}) requests), w')
           /\ clock w <= clock w' /\ (early w -> early w')) ->
        early (world st) ->
        decodePageCursor (pageCursor query) = Returned page ->
        exists page_set st' new,
          AuthorizedSearchEngine.query Date_now (S fuel) this query options
            st = Some (Returned page_set, st')
          /\ SearchCommon.nextPageCursor page_set = None
          /\ calls st' = calls st ++ new
          /\ length (List.filter is_engine_call new) = 1%nat).
Proof.
  split; [|split; [|split; [|split]]].
  - intros clock began budget fuel this query options st o st' Hnow Hrange
      Hbudget Hconfig Htimes Hrun.
    exact (later_calls_begin_within_budget clock began budget fuel this
             query options st o st' Hnow Hrange Hbudget Hconfig Htimes Hrun).
  - intros clock budget fuel this query options st page_set st' Hnow Hrange
      Hbudget Hconfig Hrun Hover.
    exact (overrun_ends_without_cursor clock budget fuel this query options
             st page_set st' Hnow Hrange Hbudget Hconfig Hrun Hover).
  - intros fuel this query options start decisions authorized target acc
      cursor st loop st' Hit Hflag.
    split.
    + rewrite backfill_unfold, Hit. unfold continues.
      by rewrite Hflag, andb_false_r.
    + intros page. cbn [page_of SearchCommon.nextPageCursor].
      by rewrite Hflag.
  - intros this query options start decisions authorized acc cursor st
      loop st' Hfresh. rewrite iteration_spec by done. cbv zeta.
    destruct (SearchCommon.query _ _ _ _).1 as [response|message]; [|done].
    destruct (answer _ _ _ _).1 as [answers|message]; [|done].
    intros [= <- <-]. by eexists.
  - intros clock early budget fuel this query options st page Hnow Hrange
      Hbudget Hconfig Hengine Hallow Hearly Hpage.
    pose proof (answer_allowing this options clock early Hallow) as Hanswer.
    rewrite query_spec. cbv zeta. rewrite Hpage.
    set (requested := requestedTypes this query).
    set (requests := gate_requests this requested).
    set (st1 := query_start Date_now st).
    pose proof (wave_fresh this options requests st1
                  (fresh_query_start st)) as Hfresh2.
    assert (world st1 = world st) as Hw1.
    { unfold st1, query_start. cbn [world]. by rewrite Hnow. }
    destruct (Hanswer requests (world st1))
      as (wg & Hgate & Hclock_g & Hearly_g).
    rewrite Hgate. cbn [fst].
    set (decisions := zipObject requested _).
    set (authorized := authorizedTypes requested decisions).
    set (st2 := after_wave this options requests st1) in *.
    assert (world st2 = wg) as Hw2.
    { unfold st2, after_wave. cbn [world]. by rewrite Hgate. }
    rewrite backfill_unfold, iteration_spec by done. cbv zeta.
    set (sent := engine_query query authorized None).
    destruct (Hengine sent options (world st2))
      as (response & w1 & Hq & Hmore & Hslow).
    { rewrite Hw2. apply Hearly_g. by rewrite Hw1. }
    rewrite Hq. cbn [fst].
    set (st3 := after_query this sent options st2).
    assert (world st3 = w1) as Hw3.
    { unfold st3, after_query. cbn [world]. by rewrite Hq. }
    set (doc_requests := document_requests this decisions (results response)).
    destruct (Hanswer doc_requests (world st3))
      as (wf & Hfilter & Hclock_f & _).
    rewrite Hfilter. cbn [fst].
    set (st4 := after_wave this options doc_requests st3).
    assert (world st4 = wf) as Hw4.
    { unfold st4, after_wave. cbn [world]. by rewrite Hfilter. }
    rewrite Hw4, Hnow. cbn [fst]. rewrite Hconfig.
    rewrite elapsed_exceeds; [|rewrite Hnow; apply Hrange|apply Hrange|lia].
    rewrite (Hnow (world st)). cbn [fst].
    rewrite Hw1, Hw2, Hw3 in *.
    rewrite (proj2 (Z.ltb_lt budget _)) by lia.
    unfold continues. cbn [latencyBudgetExhausted negb].
    rewrite andb_false_r.
    eexists _, _, (wave_calls options requests
                   ++ Query sent options :: wave_calls options doc_requests).
    split; [reflexivity|]. split; [done|]. split.
    + unfold after_now, st4, after_wave, st3, after_query, st2, after_wave,
        st1, query_start. cbn [calls].
      by rewrite <- !app_assoc.
    + rewrite List.filter_app, wave_calls_no_engine_call. simpl.
      by rewrite wave_calls_no_engine_call.
Qed.

(** *** The gate under a policy, the page on integers, the pass-throughs *)

Lemma gate_decisions_by_policy this requested policy :
  gate_decisions this requested
    (map (fun request => {| result := policy request |})
       (gate_requests this requested))
  = map (type_decision this policy) requested.
Proof.
  unfold gate_requests, type_decision.
  induction requested as [|type l IH]; [done|]. csimpl.
  destruct (type_request this type); csimpl; by rewrite IH.
Qed.

Lemma last_assigned_map {V} (g : string -> V) keys t before :
  last_assigned (zip keys (map g keys)) t before
  = if bool_decide (t ∈ keys) then Some (g t) else before.
Proof.
  revert before. induction keys as [|k l IH]; intros before; [done|].
  simpl. rewrite IH.
  destruct (decide (k = t)) as [->|Hne].
  - rewrite (bool_decide_eq_true_2 (t = t)) by done.
    rewrite (bool_decide_eq_true_2 (t ∈ t :: l)) by apply list_elem_of_here.
    by case_bool_decide.
  - rewrite (bool_decide_eq_false_2 (k = t)) by done.
    apply (f_equal (fun b : bool => if b then _ else _)).
    apply bool_decide_ext. rewrite elem_of_cons.
    split; [by right|]. by intros [->|?].
Qed.

(** With an authorizer that decides by [policy], the gate decides for
    every requested type what the policy says of its permission. *)
Lemma gate_decides_by_policy this requested options policy st :
  fresh st ->
  (answer this options (gate_requests this requested) (world st)).1
  = Returned (map (fun request => {| result := policy request |})
                (gate_requests this requested)) ->
  exists decisions st',
    typeDecisions this requested options st
    = Some (Returned decisions, st')
    /\ forall t, t ∈ requested ->
       decisions !! t = Some (type_decision this policy t).
Proof.
  intros Hfresh Ha. rewrite typeDecisions_spec by done. rewrite Ha.
  eexists _, _. split; [reflexivity|]. intros t Ht.
  rewrite zipObject_lookup, gate_decisions_by_policy, last_assigned_map.
  by rewrite bool_decide_eq_true_2.
Qed.

(** The returned page when the page index and the page size are integers:
    [pageSize] results from result [page * pageSize] on, the cursor of
    [page - 1] unless [page = 0], and the cursor of [page + 1]. *)
Lemma page_of_integers this p size loop :
  pageSize (config this) = of_Z size ->
  0 <= p -> 0 <= size -> p + 1 < 2 ^ 53 -> (p + 1) * size < 2 ^ 53 ->
  Z.of_nat (length (filteredResults loop)) < 2 ^ 53 ->
  page_of this (of_Z p) loop
  = {| results := take (Z.to_nat size)
                    (drop (Z.to_nat (p * size)) (filteredResults loop));
       previousPageCursor :=
         if p =? 0 then None else Some (encodePageCursor (of_Z (p - 1)));
       SearchCommon.nextPageCursor :=
         if negb (latencyBudgetExhausted loop)
            && (truthy (nextPageCursor loop)
                || ((p + 1) * size
                    <? Z.of_nat (length (filteredResults loop))))
         then Some (encodePageCursor (of_Z (p + 1)))
         else None |}.
Proof.
  intros Hsize Hp Hs Hp1 Htarget Hlen. unfold page_of. rewrite Hsize.
  assert (size < 2 ^ 53) as Hs53 by nia.
  rewrite next_page by lia.
  rewrite !mul_of_Z by lia.
  rewrite slice_of_Z by nia.
  replace ((p + 1) * size - p * size) with size by lia.
  rewrite is_first_page by lia.
  assert (gt (of_nat (length (filteredResults loop))) (of_Z ((p + 1) * size))
          = ((p + 1) * size <? Z.of_nat (length (filteredResults loop))))
    as ->.
  { unfold gt, lt, of_nat.
    rewrite (compare_represents _ _ ((p + 1) * size)
               (Z.of_nat (length (filteredResults loop))));
      [|apply of_Z_represents; nia|apply of_Z_represents; lia].
    unfold Z.ltb. by destruct (_ ?= _). }
  f_equal. destruct (p =? 0) eqn:Hzero; [done|].
  apply Z.eqb_neq in Hzero. by rewrite previous_page by lia.
Qed.

(** [setTranslator] is the engine's. *)
Lemma setTranslator_delegates this (translator : QueryTranslator) w :
  AuthorizedSearchEngine.setTranslator this translator w
  = SearchCommon.setTranslator (searchEngine this) translator w.
Proof. reflexivity. Qed.

(** [index] makes the engine's call, with the same arguments and the same
    effect on the world; its promise is rejected when that call throws, and
    fulfilled otherwise, whatever becomes of the engine's promise. *)
Lemma index_delegates this type documents w :
  (AuthorizedSearchEngine.index this type documents w).2
  = (SearchCommon.index (searchEngine this) type documents w).2
  /\ (AuthorizedSearchEngine.index this type documents w).1
     = match (SearchCommon.index (searchEngine this) type documents w).1 with
       | Threw message => Rejected message
       | Returned _ => Fulfilled tt
       end.
Proof.
  unfold AuthorizedSearchEngine.index.
  by destruct (SearchCommon.index _ _ _ _) as [[promise|message] w'].
Qed.

End Facts.

End EngineFacts.

(* ===================================================================== *)
(** * Further properties of [query]: failures, calls, pages, termination *)
(* ===================================================================== *)

Module QueryFacts.
Import JsNumber.
Import PermissionCommon SearchCommon SearchBackendNode.
Import AuthorizedSearchEngine JsNumberFacts CursorFacts EngineFacts.
Import Observations Observers.

Section Facts.

Context {World QueryTranslator : Type}.
Variable Date_now : World -> Z * World.

Abbreviation engine := (AuthorizedSearchEngine.t World QueryTranslator).
Abbreviation state := (AuthorizedSearchEngine.State World).

Implicit Types (this : engine) (st : state) (options : QueryRequestOptions).

(** *** Waves that fail *)

Lemma answer_threw this options requests w message w' :
  requests <> [] ->
  PermissionAuthorizer.authorize (permissions this) requests options w
  = (Threw message, w') ->
  answer this options requests w = (Threw message, w').
Proof.
  intros Hne Hcall. unfold answer. destruct requests; [done|].
  by rewrite Hcall.
Qed.

Lemma answer_mismatch this options requests w values w' :
  requests <> [] ->
  PermissionAuthorizer.authorize (permissions this) requests options w
  = (Returned values, w') ->
  length values <> length requests ->
  answer this options requests w = (Threw length_mismatch, w').
Proof.
  intros Hne Hcall Hlen. unfold answer. destruct requests; [done|].
  rewrite Hcall. by rewrite (proj2 (Nat.eqb_neq _ _) Hlen).
Qed.

Lemma wave_calls_nonempty options requests :
  requests <> [] -> wave_calls options requests = [Authorize requests options].
Proof. by destruct requests. Qed.

Lemma decodePageCursor_message cursor message :
  decodePageCursor cursor = Threw message ->
  message = "Invalid cursor"%string.
Proof.
  destruct cursor as [[|c text]|]; [done| |done]. unfold decodePageCursor.
  destruct (isNaN _); [by intros [= <-]|].
  destruct (lt _ _); [by intros [= <-]|done].
Qed.

(** *** The calls of the loop *)

Lemma iteration_trace this query options start decisions authorized
    acc cursor st o st' :
  fresh st ->
  iteration Date_now this query options start decisions authorized
    acc cursor st = Some (o, st') ->
  fresh st'
  /\ exists raw,
       calls st'
       = calls st ++ block this query options decisions authorized
                       (cursor, raw)
       /\ forall loop, o = Returned loop ->
            answered this query options authorized (cursor, raw)
            /\ exists kept,
                 filteredResults loop = acc ++ kept /\ sublist kept raw.
Proof.
  intros Hfresh. rewrite iteration_spec by done. cbv zeta.
  set (q := engine_query query authorized cursor).
  pose proof (fresh_after_query this q options st Hfresh) as Hfresh1.
  destruct (SearchCommon.query (searchEngine this) q options (world st))
    as [[page|message] w] eqn:Hq; cbn [fst snd].
  2:{ intros [= <- <-]. split; [done|]. exists []. by split. }
  set (requests := document_requests this decisions (results page)).
  pose proof (wave_fresh this options requests _ Hfresh1) as Hfresh2.
  assert (calls (after_wave this options requests
                   (after_query this q options st))
          = calls st ++ block this query options decisions authorized
                          (cursor, results page)) as Hcalls.
  { unfold after_wave, after_query, block. cbn [calls fst snd].
    by rewrite <- app_assoc. }
  destruct (answer this options requests _).1 as [answers|message] eqn:Ha.
  2:{ intros [= <- <-]. split; [done|]. exists (results page). by split. }
  intros [= <- <-]. split; [by apply fresh_after_now|].
  exists (results page). split; [done|].
  intros loop [= <-]. split; [by exists (world st), page, w|].
  eexists. split; [reflexivity|].
  apply kept_results_sublist.
Qed.

Lemma backfill_trace fuel this query options start decisions authorized
    target acc cursor st o st' :
  fresh st ->
  backfill Date_now fuel this query options start decisions authorized
    target acc cursor st = Some (o, st') ->
  exists raw blocks,
    calls st'
    = calls st ++ loop_trace this query options decisions authorized
                    ((cursor, raw) :: blocks)
    /\ forall loop, o = Returned loop ->
         Forall (answered this query options authorized)
           ((cursor, raw) :: blocks)
         /\ exists kept,
              filteredResults loop = acc ++ kept
              /\ sublist kept (concat (map snd ((cursor, raw) :: blocks))).
Proof.
  revert acc cursor st.
  induction fuel as [|fuel IH]; intros acc cursor st Hfresh; [done|].
  rewrite backfill_unfold.
  destruct (iteration _ _ _ _ _ _ _ _ _ st) as [[[loop1|message] st1]|] eqn:Hit;
    [| |done].
  - apply iteration_trace in Hit as (Hfresh1 & results1 & Hc1 & Hr1); [|done].
    destruct (Hr1 loop1 eq_refl) as (Ha1 & kept1 & Hk1 & Hs1).
    destruct (continues target loop1).
    + intros Hrest.
      apply IH in Hrest as (results2 & blocks2 & Hc2 & Hr2); [|done].
      exists results1, ((nextPageCursor loop1, results2) :: blocks2).
      split.
      * rewrite Hc2, Hc1, <- app_assoc. unfold loop_trace.
        by rewrite !map_cons, !concat_cons.
      * intros loop ->.
        destruct (Hr2 loop eq_refl) as (Ha2 & kept2 & Hk2 & Hs2).
        split; [by constructor|].
        exists (kept1 ++ kept2). split.
        -- by rewrite Hk2, Hk1, <- app_assoc.
        -- rewrite map_cons, concat_cons. by apply sublist_app.
    + intros [= <- <-]. exists results1, []. split.
      * rewrite Hc1. unfold loop_trace. simpl. by rewrite app_nil_r.
      * intros loop [= <-]. split; [by repeat constructor|].
        exists kept1. split; [done|]. simpl. by rewrite app_nil_r.
  - apply iteration_trace in Hit as (Hfresh1 & results1 & Hc1 & _); [|done].
    intros [= <- <-]. exists results1, []. split; [|done].
    rewrite Hc1. unfold loop_trace. simpl. by rewrite app_nil_r.
Qed.

(** The calls of a query: nothing but the wave of the gate when the gate
    or the cursor fails; else that wave and the calls of the loop, which
    starts without a cursor. *)
Lemma query_trace fuel this query options st o st' :
  AuthorizedSearchEngine.query Date_now fuel this query options st
  = Some (o, st') ->
  let requested := requestedTypes this query in
  let requests := gate_requests this requested in
  (calls st' = calls st ++ wave_calls options requests
   /\ exists message, o = Threw message)
  \/ exists answers page first blocks,
       (answer this options requests (world (query_start Date_now st))).1
       = Returned answers
       /\ decodePageCursor (pageCursor query) = Returned page
       /\ let decisions :=
            zipObject requested (gate_decisions this requested answers) in
          let authorized := authorizedTypes requested decisions in
          calls st'
          = calls st ++ wave_calls options requests
              ++ loop_trace this query options decisions authorized
                   ((None, first) :: blocks)
          /\ forall page_set, o = Returned page_set ->
               Forall (answered this query options authorized)
                 ((None, first) :: blocks)
               /\ sublist (results page_set)
                    (concat (map snd ((None, first) :: blocks))).
Proof.
  rewrite query_spec. cbv zeta.
  set (requested := requestedTypes this query).
  set (requests := gate_requests this requested).
  set (st1 := query_start Date_now st).
  pose proof (wave_fresh this options requests st1
                (fresh_query_start Date_now st)) as Hfresh2.
  assert (calls (after_wave this options requests st1)
          = calls st ++ wave_calls options requests) as Hcalls2 by done.
  destruct (answer this options requests (world st1)).1
    as [answers|message] eqn:Ha.
  2:{ intros [= <- <-]. left. split; [done|]. by eexists. }
  destruct (decodePageCursor (pageCursor query)) as [page|message] eqn:Hpage.
  2:{ intros [= <- <-]. left. split; [done|]. by eexists. }
  destruct (backfill _ _ _ _ _ _ _ _ _ _ _ _)
    as [[o3 st3]|] eqn:Hloop; [|done].
  apply backfill_trace in Hloop as (first & blocks & Hc & Hr); [|done].
  intros Hrun.
  assert (st' = st3) as ->.
  { destruct o3; by injection Hrun as _ ->. }
  right. exists answers, page, first, blocks.
  split; [done|]. split; [done|]. split.
  - by rewrite Hc, Hcalls2, <- app_assoc.
  - intros page_set ->. destruct o3 as [loop|message]; [|done].
    injection Hrun as <-.
    destruct (Hr loop eq_refl) as (Ha3 & kept & Hk & Hs).
    split; [done|]. cbn [page_of results].
    etrans; [apply slice_sublist|]. by rewrite Hk.
Qed.

(** *** What the traces show *)

Lemma block_forwards this query options decisions authorized b :
  Forall (forwards query options)
    (block this query options decisions authorized b).
Proof.
  unfold block. constructor; [done|].
  destruct (document_requests _ _ _); simpl; by repeat constructor.
Qed.

Lemma loop_trace_forwards this query options decisions authorized blocks :
  Forall (forwards query options)
    (loop_trace this query options decisions authorized blocks).
Proof.
  unfold loop_trace. induction blocks as [|b l IH]; [constructor|].
  rewrite map_cons, concat_cons.
  apply Forall_app_2; [apply block_forwards|done].
Qed.

Lemma wave_calls_forwards query options requests :
  Forall (forwards query options) (wave_calls options requests).
Proof. destruct requests; simpl; by repeat constructor. Qed.

Lemma loop_trace_types this query options decisions authorized blocks :
  Forall (loop_call authorized)
    (loop_trace this query options decisions authorized blocks).
Proof.
  unfold loop_trace. induction blocks as [|b l IH]; [constructor|].
  rewrite map_cons, concat_cons. apply Forall_app_2; [|done].
  constructor; [done|]. apply wave_calls_loop.
Qed.

Lemma wave_calls_no_query options requests sent options' :
  Query sent options' ∈ wave_calls options requests -> False.
Proof.
  destruct requests; simpl; [by intros ?%elem_of_nil|].
  by intros ?%list_elem_of_singleton.
Qed.

Lemma wave_calls_count options requests :
  (length (List.filter is_authorize_call (wave_calls options requests))
   <= 1)%nat.
Proof. destruct requests; simpl; lia. Qed.

Lemma loop_trace_count this query options decisions authorized blocks :
  let new := loop_trace this query options decisions authorized blocks in
  (length (List.filter is_authorize_call new)
   <= length (List.filter is_engine_call new))%nat
  /\ length (List.filter is_engine_call new) = length blocks.
Proof.
  cbv zeta. unfold loop_trace. induction blocks as [|b l [IH1 IH2]]; [done|].
  rewrite map_cons, concat_cons. unfold block at 1 3 5.
  cbn [app List.filter is_authorize_call is_engine_call length].
  rewrite !List.filter_app, !length_app, wave_calls_no_engine_call.
  pose proof (wave_calls_count options
                (document_requests this decisions b.2)). simpl. lia.
Qed.

(* --------------------------------------------------------------------- *)
(** ** How a query fails *)
(* --------------------------------------------------------------------- *)

(** X1. A query with an invalid page cursor fails, whatever the number of
    iterations it is allowed, and never reaches the engine; but it has
    already asked the authorizer about the requested types: the cursor is
    decoded after the gate.  The error is "Invalid cursor" when the gate
    was answered. *)
Theorem invalid_cursor_rejects_after_gate fuel this query options st
    message :
  decodePageCursor (pageCursor query) = Threw message ->
  let requests := gate_requests this (requestedTypes this query) in
  exists thrown st',
    AuthorizedSearchEngine.query Date_now fuel this query options st
    = Some (Threw thrown, st')
    /\ calls st' = calls st ++ wave_calls options requests
    /\ (forall answers,
          (answer this options requests (Date_now (world st)).2).1
          = Returned answers ->
          thrown = "Invalid cursor"%string).
Proof.
  intros Hcursor requests. rewrite query_spec. cbv zeta. rewrite Hcursor.
  fold requests. cbn [query_start world].
  apply decodePageCursor_message in Hcursor as ->.
  destruct (answer this options requests _).1 as [answers|thrown] eqn:Ha.
  - eexists _, _. split; [reflexivity|]. by split.
  - eexists _, _. split; [reflexivity|]. by split.
Qed.

(** X2. When the authorizer fails on the requests of the gate, the query
    fails with the authorizer's error, having made that one call and none
    to the engine; the cursor is not even looked at. *)
Theorem gate_failure_rejects_query fuel this query options st message w' :
  let requests := gate_requests this (requestedTypes this query) in
  requests <> [] ->
  PermissionAuthorizer.authorize (permissions this) requests options
    (Date_now (world st)).2 = (Threw message, w') ->
  exists st',
    AuthorizedSearchEngine.query Date_now fuel this query options st
    = Some (Threw message, st')
    /\ world st' = w'
    /\ calls st' = calls st ++ [Authorize requests options].
Proof.
  intros requests Hne Hcall. rewrite query_spec. cbv zeta. fold requests.
  cbn [query_start world].
  pose proof (answer_threw this options requests _ message w' Hne Hcall)
    as Ha.
  eexists. rewrite Ha. cbn [fst]. split; [reflexivity|].
  unfold after_wave. cbn [world calls query_start]. rewrite Ha.
  by rewrite wave_calls_nonempty.
Qed.

(** X3. When the authorizer answers the requests of the gate with the
    wrong number of decisions, the loader rejects every load of the batch:
    the query fails after that one call, without a call to the engine. *)
Theorem gate_wrong_count_rejects_query fuel this query options st values
    w' :
  let requests := gate_requests this (requestedTypes this query) in
  requests <> [] ->
  PermissionAuthorizer.authorize (permissions this) requests options
    (Date_now (world st)).2 = (Returned values, w') ->
  length values <> length requests ->
  exists thrown st',
    AuthorizedSearchEngine.query Date_now fuel this query options st
    = Some (Threw thrown, st')
    /\ world st' = w'
    /\ calls st' = calls st ++ [Authorize requests options].
Proof.
  intros requests Hne Hcall Hlen. rewrite query_spec. cbv zeta.
  fold requests. cbn [query_start world].
  pose proof (answer_mismatch this options requests _ values w' Hne Hcall
                Hlen) as Ha.
  eexists _, _. rewrite Ha. cbn [fst]. split; [reflexivity|].
  unfold after_wave. cbn [world calls query_start]. rewrite Ha.
  by rewrite wave_calls_nonempty.
Qed.

(** X4. A failure of the engine is the failure of the query.  In any
    iteration of the loop, whatever was accumulated before, a failing
    engine call ends the loop with the engine's error, and nothing is
    asked of the authorizer for it; in particular the query fails with the
    error of its first engine call. *)
Theorem engine_failure_rejects_query this query options message :
  (forall fuel start decisions authorized target acc cursor st w',
     SearchCommon.query (searchEngine this)
       (engine_query query authorized cursor) options (world st)
     = (Threw message, w') ->
     exists st',
       backfill Date_now (S fuel) this query options start decisions
         authorized target acc cursor st = Some (Threw message, st')
       /\ world st' = w'
       /\ calls st'
          = calls st ++ [Query (engine_query query authorized cursor)
                           options])
  /\ (forall fuel st answers page,
        let requested := requestedTypes this query in
        let requests := gate_requests this requested in
        let st2 := after_wave this options requests
                     (query_start Date_now st) in
        (answer this options requests (Date_now (world st)).2).1
        = Returned answers ->
        decodePageCursor (pageCursor query) = Returned page ->
        (forall authorized,
           (SearchCommon.query (searchEngine this)
              (engine_query query authorized None) options (world st2)).1
           = Threw message) ->
        exists st',
          AuthorizedSearchEngine.query Date_now (S fuel) this query options
            st = Some (Threw message, st')).
Proof.
  assert (forall fuel start decisions authorized target acc cursor st w',
     SearchCommon.query (searchEngine this)
       (engine_query query authorized cursor) options (world st)
     = (Threw message, w') ->
     exists st',
       backfill Date_now (S fuel) this query options start decisions
         authorized target acc cursor st = Some (Threw message, st')
       /\ world st' = w'
       /\ calls st'
          = calls st ++ [Query (engine_query query authorized cursor)
                           options]) as Hloop.
  { intros fuel start decisions authorized target acc cursor st w' Hq.
    eexists. cbn [backfill]. unfold bind at 1. unfold call_query.
    fold (engine_query query authorized cursor). rewrite Hq.
    by split. }
  split; [exact Hloop|].
  intros fuel st answers page requested requests st2 Ha Hpage Hq.
  set (decisions := zipObject requested
                      (gate_decisions this requested answers)).
  set (authorized := authorizedTypes requested decisions).
  specialize (Hq authorized).
  destruct (SearchCommon.query (searchEngine this)
              (engine_query query authorized None) options (world st2))
    as [o w'] eqn:Hcall.
  cbn [fst] in Hq. subst o.
  destruct (Hloop fuel (Date_now (world st)).1 decisions authorized
              (mul (add page one) (pageSize (config this))) [] None st2 w'
              Hcall) as (st' & Hrun & _).
  exists st'. rewrite query_spec. cbv zeta. fold requested requests.
  cbn [query_start world] in *. rewrite Ha, Hpage. fold st2.
  fold decisions authorized. by rewrite Hrun.
Qed.

(** X5. A failure of the authorizer on the requests of the filter is the
    failure of the query: in any iteration, when the engine has answered
    and the authorizer fails on the per-document requests of that answer,
    the loop ends with the authorizer's error and the results accumulated
    so far are lost. *)
Theorem filter_failure_rejects_query fuel this query options start
    decisions authorized target acc cursor st response w1 message w2 :
  fresh st ->
  let sent := engine_query query authorized cursor in
  let requests := document_requests this decisions (results response) in
  SearchCommon.query (searchEngine this) sent options (world st)
  = (Returned response, w1) ->
  requests <> [] ->
  PermissionAuthorizer.authorize (permissions this) requests options w1
  = (Threw message, w2) ->
  exists st',
    backfill Date_now (S fuel) this query options start decisions
      authorized target acc cursor st = Some (Threw message, st')
    /\ world st' = w2
    /\ calls st'
       = calls st ++ [Query sent options; Authorize requests options].
Proof.
  intros Hfresh sent requests Hq Hne Hcall.
  assert (world (after_query this sent options st) = w1) as Hw1.
  { unfold after_query. cbn [world]. by rewrite Hq. }
  eexists.
  rewrite backfill_unfold, iteration_spec by done. cbv zeta.
  fold sent. rewrite Hq. cbn [fst]. fold requests.
  pose proof (answer_threw this options requests _ message w2 Hne Hcall)
    as Ha.
  rewrite Hw1, Ha.
  cbn [fst]. split; [reflexivity|].
  unfold after_wave. rewrite Hw1, Ha.
  cbn [world calls after_query snd].
  by rewrite wave_calls_nonempty, <- app_assoc.
Qed.

(* --------------------------------------------------------------------- *)
(** ** What a query sends to its collaborators *)
(* --------------------------------------------------------------------- *)

(** X6. Every call a query makes carries the caller's options, and every
    engine call the caller's term and filters, whatever the outcome. *)
Theorem query_forwards_criteria fuel this query options st o st' :
  AuthorizedSearchEngine.query Date_now fuel this query options st
  = Some (o, st') ->
  exists new,
    calls st' = calls st ++ new /\ Forall (forwards query options) new.
Proof.
  intros Hrun. apply query_trace in Hrun. cbv zeta in Hrun.
  destruct Hrun as [[Hcalls _]|(answers & page & first & blocks & _ & _
                                & Hcalls & _)].
  - eexists. split; [exact Hcalls|]. apply wave_calls_forwards.
  - eexists. split; [exact Hcalls|].
    apply Forall_app_2; [apply wave_calls_forwards|].
    apply loop_trace_forwards.
Qed.

(** X7. The page cursor of the caller is never sent to the engine: a query
    that returns has called the engine at least once, and its first engine
    call carries no cursor. *)
Theorem first_engine_call_has_no_cursor fuel this query options st page_set
    st' :
  AuthorizedSearchEngine.query Date_now fuel this query options st
  = Some (Returned page_set, st') ->
  exists new sent rest,
    calls st' = calls st ++ new
    /\ List.filter is_engine_call new = Query sent options :: rest
    /\ pageCursor sent = None.
Proof.
  intros Hrun. apply query_trace in Hrun. cbv zeta in Hrun.
  destruct Hrun as [[_ [message Hthrew]]|(answers & page & first & blocks & _
                                         & _ & Hcalls & _)]; [done|].
  eexists _, _, _. split; [exact Hcalls|].
  rewrite List.filter_app, wave_calls_no_engine_call. unfold loop_trace.
  rewrite map_cons, concat_cons. unfold block at 1.
  cbn [app List.filter is_engine_call fst]. by split.
Qed.

Lemma gate_requests_explicit this requested :
  gate_requests this requested
  = map (fun permission =>
           {| permission := permission; resourceRef := None |})
      (omap (visibilityPermissionOf this) requested).
Proof.
  unfold gate_requests, type_request.
  induction requested as [|type l IH]; [done|]. csimpl.
  destruct (visibilityPermissionOf this type); csimpl; by rewrite IH.
Qed.

(** X8. The gate asks once, and first: whatever follows, the calls of a
    query start with the one call of the gate, which carries, in the order
    of the requested types, the visibility permission of every requested
    type that has one, without a resource reference; there is no such call
    when no requested type has a permission.  Whatever comes next starts
    with an engine call. *)
Theorem gate_asks_once_and_first fuel this query options st o st' :
  AuthorizedSearchEngine.query Date_now fuel this query options st
  = Some (o, st') ->
  let requests :=
    map (fun permission =>
           {| permission := permission; resourceRef := None |})
      (omap (visibilityPermissionOf this) (requestedTypes this query)) in
  exists rest,
    calls st'
    = calls st ++ match requests with
                  | [] => []
                  | _ => [Authorize requests options]
                  end ++ rest
    /\ forall c, head rest = Some c -> is_engine_call c = true.
Proof.
  intros Hrun requests. apply query_trace in Hrun. cbv zeta in Hrun.
  rewrite gate_requests_explicit in Hrun. fold requests in Hrun.
  change (match requests with
          | [] => []
          | _ => [Authorize requests options]
          end) with (wave_calls options requests).
  destruct Hrun as [[Hcalls _]|(answers & page & first & blocks & _ & _
                                & Hcalls & _)].
  - exists []. by rewrite app_nil_r.
  - eexists. split; [exact Hcalls|].
    unfold loop_trace. rewrite map_cons, concat_cons. unfold block at 1.
    cbn [app head]. by intros c [= <-].
Qed.

(** X9. The authorizer is called at most once for the gate and at most
    once for each engine call, whatever the number of types and of
    results. *)
Theorem authorize_calls_bounded fuel this query options st o st' :
  AuthorizedSearchEngine.query Date_now fuel this query options st
  = Some (o, st') ->
  exists new,
    calls st' = calls st ++ new
    /\ (length (List.filter is_authorize_call new)
        <= 1 + length (List.filter is_engine_call new))%nat.
Proof.
  intros Hrun. apply query_trace in Hrun. cbv zeta in Hrun.
  destruct Hrun as [[Hcalls _]|(answers & page & first & blocks & _ & _
                                & Hcalls & _)].
  - eexists. split; [exact Hcalls|].
    pose proof (wave_calls_count options
                  (gate_requests this (requestedTypes this query))). lia.
  - eexists. split; [exact Hcalls|].
    rewrite !List.filter_app, !length_app.
    pose proof (wave_calls_count options
                  (gate_requests this (requestedTypes this query))).
    match goal with
    | |- context [loop_trace ?a ?b ?c ?d ?e ?f] =>
        pose proof (proj1 (loop_trace_count a b c d e f))
    end.
    lia.
Qed.

Lemma unrestricted_permission this type :
  unrestricted this -> visibilityPermissionOf this type = None.
Proof.
  unfold unrestricted, visibilityPermissionOf.
  induction (types this) as [|[k v] l IH]; [done|].
  intros [Hv Hl]%Forall_cons. cbn [property snd] in *.
  case_bool_decide; [done|by apply IH].
Qed.

Lemma unrestricted_gate this requested :
  unrestricted this -> gate_requests this requested = [].
Proof.
  intros Hu. unfold gate_requests.
  induction requested as [|type l IH]; [done|]. csimpl.
  unfold type_request at 1. by rewrite unrestricted_permission.
Qed.

Lemma unrestricted_filter this decisions raw :
  unrestricted this -> document_requests this decisions raw = [].
Proof.
  intros Hu. unfold document_requests.
  induction raw as [|r l IH]; [done|]. csimpl.
  by rewrite document_request_unregistered
    by by apply unrestricted_permission.
Qed.

(** X10. With a registry in which no type has a visibility permission, a
    query never calls the authorizer: every call it makes is an engine
    call. *)
Theorem unrestricted_registry_never_authorizes fuel this query options st
    o st' :
  unrestricted this ->
  AuthorizedSearchEngine.query Date_now fuel this query options st
  = Some (o, st') ->
  exists new,
    calls st' = calls st ++ new
    /\ List.filter is_authorize_call new = [].
Proof.
  intros Hu Hrun. apply query_trace in Hrun. cbv zeta in Hrun.
  rewrite unrestricted_gate in Hrun by done.
  destruct Hrun as [[Hcalls _]|(answers & page & first & blocks & _ & _
                                & Hcalls & _)].
  - by eexists.
  - eexists. split; [exact Hcalls|]. cbn [wave_calls app].
    unfold loop_trace. generalize ((None, first) :: blocks).
    intros l. induction l as [|b l IH]; [done|].
    rewrite map_cons, concat_cons. unfold block at 1.
    rewrite unrestricted_filter by done. by simpl.
Qed.

(** X11. An empty list of requested types is not replaced by the
    registered types: the gate asks nothing, and every engine call asks
    for no type at all. *)
Theorem empty_types_are_not_defaulted fuel this query options st o st' :
  SearchCommon.types query = Some [] ->
  AuthorizedSearchEngine.query Date_now fuel this query options st
  = Some (o, st') ->
  exists new,
    calls st' = calls st ++ new
    /\ Forall (loop_call []) new
    /\ (new = []
        \/ exists rest, new = Query (engine_query query [] None) options
                              :: rest).
Proof.
  intros Htypes Hrun. apply query_trace in Hrun. cbv zeta in Hrun.
  unfold requestedTypes in Hrun. rewrite Htypes in Hrun.
  cbn [default gate_requests omap list_omap wave_calls authorizedTypes]
    in Hrun.
  destruct Hrun as [[Hcalls _]|(answers & page & first & blocks & _ & _
                                & Hcalls & _)].
  - exists []. split; [done|]. split; [constructor|by left].
  - eexists. split; [exact Hcalls|]. cbn [app]. split.
    + apply loop_trace_types.
    + right. unfold loop_trace. rewrite map_cons, concat_cons.
      unfold block at 1. cbn [fst app]. by eexists.
Qed.

(** X12. The filter batches its checks: one call to the authorizer, with
    one request for every result it checks, in the order of the results
    and with repeated requests repeated; no call when it checks nothing. *)
Theorem filterResults_batches_checks this options raw decisions st o st' :
  fresh st ->
  filterResults this options raw decisions st = Some (o, st') ->
  calls st'
  = calls st ++ match document_requests this decisions raw with
                | [] => []
                | requests => [Authorize requests options]
                end.
Proof.
  intros Hfresh. rewrite filterResults_spec by done.
  intros [= _ <-]. unfold after_wave. cbn [calls].
  by destruct (document_requests this decisions raw).
Qed.

(* --------------------------------------------------------------------- *)
(** ** What a query returns *)
(* --------------------------------------------------------------------- *)

(** X13. A query invents no result and keeps the engine's order.  To an
    observer that notes, in the world, every answer of the engine as it is
    given, the page a query returns is a subsequence of the results of
    the answers noted during the query, laid end to end in the order in
    which they were given. *)
Theorem results_come_from_engine_in_order fuel this query options st
    page_set st' (log : World -> list SearchResultSet) :
  records Date_now this log ->
  AuthorizedSearchEngine.query Date_now fuel this query options st
  = Some (Returned page_set, st') ->
  exists answers,
    log (world st') = log (world st) ++ answers
    /\ sublist (results page_set) (concat (map results answers)).
Proof.
  intros Hlog. rewrite query_spec. cbv zeta.
  set (requested := requestedTypes this query).
  set (requests := gate_requests this requested).
  set (st1 := query_start Date_now st).
  pose proof (wave_fresh this options requests st1
                (fresh_query_start Date_now st)) as Hfresh2.
  destruct (answer this options requests (world st1)).1
    as [answers|message]; [|done].
  destruct (decodePageCursor (pageCursor query)) as [page|message]; [|done].
  destruct (backfill _ _ _ _ _ _ _ _ _ _ _ _)
    as [[[loop|message] st3]|] eqn:Hloop; [|done|done].
  intros [= <- <-].
  destruct (backfill_log Date_now _ _ _ _ _ _ _ _ _ _ _ _ _ log Hfresh2 Hlog
              Hloop)
    as (earlier & response & kept & Hl & _ & Hk & Hs & _).
  exists (earlier ++ [response]). split.
  - rewrite Hl. unfold st1. by rewrite (gate_keeps_log Date_now _ _ _ _ _ Hlog).
  - cbn [page_of results]. etrans; [apply slice_sublist|]. by rewrite Hk.
Qed.

(** X14. With an integer page index and an integer page size, a returned
    page holds at most [pageSize] results. *)
Theorem page_has_at_most_pageSize_results fuel this query options st
    page_set st' p size :
  AuthorizedSearchEngine.query Date_now fuel this query options st
  = Some (Returned page_set, st') ->
  decodePageCursor (pageCursor query) = Returned (of_Z p) ->
  pageSize (config this) = of_Z size ->
  0 <= p -> 0 <= size -> p + 1 < 2 ^ 53 -> (p + 1) * size < 2 ^ 53 ->
  (length (results page_set) <= Z.to_nat size)%nat.
Proof.
  rewrite query_spec. cbv zeta.
  destruct (answer _ _ _ _).1 as [answers|message]; [|done].
  intros Hrun Hpage Hsize Hp Hs Hp1 Htarget. rewrite Hpage in Hrun.
  destruct (backfill _ _ _ _ _ _ _ _ _ _ _ _)
    as [[[loop|message] st3]|]; [|done|done].
  injection Hrun as <- _. cbn [page_of results]. rewrite Hsize.
  assert (size < 2 ^ 53) as Hs53 by nia.
  rewrite next_page by lia. rewrite !mul_of_Z by lia.
  rewrite slice_of_Z by nia.
  rewrite length_take. lia.
Qed.

(** The cursor of a safe integer is accepted and gives the integer. *)
Lemma encoded_cursor_decodes p :
  0 <= p < 2 ^ 53 ->
  decodePageCursor (Some (encodePageCursor (of_Z p))) = Returned (of_Z p).
Proof.
  intros Hp.
  pose proof (decoded_encoded p Hp) as Hdecoded.
  assert (exists c text, encodePageCursor (of_Z p) = String c text)
    as (c & text & Hcursor).
  { unfold encodePageCursor. rewrite toString_of_Z by done.
    rewrite from_utf8_ascii by (apply digit_ascii, decimal_digits; lia).
    apply toString_base64_nonempty, decimal_nonempty. }
  rewrite Hcursor in *. unfold decodePageCursor. rewrite Hdecoded.
  destruct (of_Z_nonneg p Hp) as (m & e & -> & Hm & He & Hv).
  assert (lt (Fin false m e) zero = false) as Hlt.
  { unfold lt.
    rewrite (compare_represents (Fin false m e) zero p 0).
    - destruct (p ?= 0) eqn:Hcmp; try done.
      change (p < 0) in Hcmp. exfalso. lia.
    - by exists false, m, e.
    - by exists false, 0, 0. }
  cbn [isNaN]. by rewrite Hlt.
Qed.

(** X15. The cursors a query returns lead to the neighbouring pages: with
    an integer page index [p], the next cursor, when there is one, decodes
    to [p + 1], the previous cursor, when there is one, decodes to [p - 1],
    and there is no previous cursor exactly on page 0. *)
Theorem returned_cursors_decode_to_neighbours fuel this query options st
    page_set st' p :
  AuthorizedSearchEngine.query Date_now fuel this query options st
  = Some (Returned page_set, st') ->
  decodePageCursor (pageCursor query) = Returned (of_Z p) ->
  0 <= p -> p + 1 < 2 ^ 53 ->
  (forall cursor,
     SearchCommon.nextPageCursor page_set = Some cursor ->
     decodePageCursor (Some cursor) = Returned (of_Z (p + 1)))
  /\ (forall cursor,
        previousPageCursor page_set = Some cursor ->
        decodePageCursor (Some cursor) = Returned (of_Z (p - 1)))
  /\ (previousPageCursor page_set = None <-> p = 0).
Proof.
  rewrite query_spec. cbv zeta.
  destruct (answer _ _ _ _).1 as [answers|message]; [|done].
  intros Hrun Hpage Hp Hp1. rewrite Hpage in Hrun.
  destruct (backfill _ _ _ _ _ _ _ _ _ _ _ _)
    as [[[loop|message] st3]|]; [|done|done].
  injection Hrun as <- _.
  cbn [page_of SearchCommon.nextPageCursor previousPageCursor].
  rewrite next_page, is_first_page by lia.
  split; [|split].
  - intros cursor. destruct (_ && _); [|done].
    intros [= <-]. apply encoded_cursor_decodes. lia.
  - intros cursor. destruct (p =? 0) eqn:Hzero; [done|].
    apply Z.eqb_neq in Hzero. rewrite previous_page by lia.
    intros [= <-]. apply encoded_cursor_decodes. lia.
  - destruct (p =? 0) eqn:Hzero.
    + apply Z.eqb_eq in Hzero. by split.
    + apply Z.eqb_neq in Hzero. by split.
Qed.

Lemma kept_results_keeps this decisions raw answers r :
  r ∈ raw ->
  document_request this decisions r = None ->
  length answers = length (document_requests this decisions raw) ->
  r ∈ kept_results this decisions raw answers.
Proof.
  intros Hin Hnone. revert answers. unfold document_requests.
  induction raw as [|r' l IH]; intros answers; [by apply elem_of_nil in Hin|].
  cbn [kept_results]. csimpl.
  apply elem_of_cons in Hin as [<-|Hin].
  - rewrite Hnone. intros _. apply list_elem_of_here.
  - destruct (document_request this decisions r') as [request|].
    + destruct answers as [|d answers]; [done|]. simpl.
      intros [= Hlen]. case_bool_decide; [apply list_elem_of_further|]; auto.
    + intros Hlen. apply list_elem_of_further. auto.
Qed.

(** X16. The filter never drops a result that has no resource reference
    (absent or empty), nor a result of a type without visibility
    permission: not even when the gate decided DENY for its type. *)
Theorem result_without_reference_is_kept this options raw decisions st kept
    st' r :
  fresh st ->
  filterResults this options raw decisions st = Some (Returned kept, st') ->
  r ∈ raw ->
  truthy (authorization (document r)) = false
  \/ visibilityPermissionOf this (type r) = None ->
  r ∈ kept.
Proof.
  intros Hfresh Hrun Hin Hr. rewrite filterResults_spec in Hrun by done.
  destruct (answer this options _ (world st)).1 as [answers|message] eqn:Ha;
    [|done].
  injection Hrun as <- _. apply answer_length in Ha.
  apply kept_results_keeps; [done| |done].
  unfold document_request. case_bool_decide; [done|].
  destruct (visibilityPermissionOf this (type r)); [|done].
  destruct Hr as [->|?]; done.
Qed.

(* --------------------------------------------------------------------- *)
(** ** The loop goes on, and ends *)
(* --------------------------------------------------------------------- *)

(** X17. The loop goes on exactly as long as it should.  With an integer
    page index [p] and page size: an iteration that leaves no further
    cursor (absent or empty), or at least [(p + 1) * pageSize] filtered
    results, is the last; an iteration that leaves a cursor, fewer results
    than that and the budget not exhausted is followed by another, which
    sends that cursor to the engine and adds to these results. *)
Theorem backfill_goes_on_while_needed fuel this query options start
    decisions authorized acc cursor st loop st' p size :
  iteration Date_now this query options start decisions authorized
    acc cursor st = Some (Returned loop, st') ->
  pageSize (config this) = of_Z size ->
  0 <= p -> 0 <= size -> p + 1 < 2 ^ 53 -> (p + 1) * size < 2 ^ 53 ->
  Z.of_nat (length (filteredResults loop)) < 2 ^ 53 ->
  let target := mul (add (of_Z p) one) (pageSize (config this)) in
  (truthy (nextPageCursor loop) = false
   \/ (p + 1) * size <= Z.of_nat (length (filteredResults loop)) ->
   backfill Date_now (S fuel) this query options start decisions authorized
     target acc cursor st = Some (Returned loop, st'))
  /\ (truthy (nextPageCursor loop) = true ->
      Z.of_nat (length (filteredResults loop)) < (p + 1) * size ->
      latencyBudgetExhausted loop = false ->
      backfill Date_now (S fuel) this query options start decisions
        authorized target acc cursor st
      = backfill Date_now fuel this query options start decisions authorized
          target (filteredResults loop) (nextPageCursor loop) st').
Proof.
  intros Hit Hsize Hp Hs Hp1 Htarget Hlen target.
  assert (size < 2 ^ 53) as Hs53 by nia.
  assert (lt (of_nat (length (filteredResults loop))) target
          = (Z.of_nat (length (filteredResults loop)) <? (p + 1) * size))
    as Hlt.
  { unfold target. rewrite Hsize, next_page, mul_of_Z by lia.
    unfold lt, of_nat.
    rewrite (compare_represents _ _
               (Z.of_nat (length (filteredResults loop))) ((p + 1) * size));
      [|apply of_Z_represents; lia|apply of_Z_represents; nia].
    unfold Z.ltb. by destruct (_ ?= _). }
  split.
  - intros Hstop. rewrite backfill_unfold, Hit. unfold continues.
    rewrite Hlt. destruct Hstop as [->|Hfull]; [done|].
    rewrite (proj2 (Z.ltb_ge _ _)) by lia. by rewrite andb_false_r.
  - intros Hmore Hfew Hbudget. rewrite backfill_unfold, Hit.
    unfold continues. rewrite Hlt, Hmore, Hbudget.
    by rewrite (proj2 (Z.ltb_lt _ _)) by lia.
Qed.

Lemma backfill_more_fuel fuel extra this query options start decisions
    authorized target acc cursor st run :
  backfill Date_now fuel this query options start decisions authorized
    target acc cursor st = Some run ->
  backfill Date_now (fuel + extra) this query options start decisions
    authorized target acc cursor st = Some run.
Proof.
  revert acc cursor st. induction fuel as [|fuel IH]; intros acc cursor st;
    [done|].
  rewrite Nat.add_succ_l, !backfill_unfold.
  destruct (iteration _ _ _ _ _ _ _ _ _ st) as [[[loop|message] st1]|];
    [|done|done].
  destruct (continues target loop); [apply IH|done].
Qed.

Section Clock.

Variable clock : World -> Z.
Variable sane : World -> Prop.
Variables (budget start : Z).
Variable this : engine.

Hypothesis Date_now_reads : forall w, Date_now w = (clock w, w).
Hypothesis clock_range : forall w, 0 <= clock w < 2 ^ 53.
Hypothesis budget_given : queryLatencyBudgetMs (config this) = of_Z budget.
Hypothesis budget_range : 0 <= budget < 2 ^ 53.
Hypothesis start_range : 0 <= start < 2 ^ 53.

(** An engine call does not put the clock back; made while the budget
    lasts, it takes a millisecond at least. *)
Hypothesis engine_takes_time :
  forall sent options w,
    let w' := (SearchCommon.query (searchEngine this) sent options w).2 in
    clock w <= clock w'
    /\ (sane w -> clock w <= start + budget ->
        clock w + 1 <= clock w' /\ sane w').

Hypothesis authorizer_keeps_time :
  forall requests options w,
    let w' := (PermissionAuthorizer.authorize (permissions this) requests
                 options w).2 in
    clock w <= clock w' /\ (sane w -> sane w').

Lemma answer_keeps_time options requests w :
  let w' := (answer this options requests w).2 in
  clock w <= clock w' /\ (sane w -> sane w').
Proof.
  unfold answer. destruct requests as [|q l]; [by split|].
  pose proof (authorizer_keeps_time (q :: l) options w) as H. cbv zeta in H.
  by destruct (PermissionAuthorizer.authorize _ _ _ _) as [[values|m] w'].
Qed.

(** One iteration always ends; when the loop goes on after it, a
    millisecond at least has passed and the budget still lasts. *)
Lemma iteration_takes_time query options decisions authorized target acc
    cursor st :
  fresh st ->
  sane (world st) \/ start + budget < clock (world st) ->
  exists o st' new,
    iteration Date_now this query options start decisions authorized
      acc cursor st = Some (o, st')
    /\ fresh st'
    /\ calls st' = calls st ++ new
    /\ length (List.filter is_engine_call new) = 1%nat
    /\ forall loop, o = Returned loop -> continues target loop = true ->
         sane (world st')
         /\ clock (world st) + 1 <= clock (world st') <= start + budget.
Proof.
  intros Hfresh Hinv.
  destruct (iteration Date_now this query options start decisions authorized
              acc cursor st) as [[o st']|] eqn:Hit.
  2:{ rewrite iteration_spec in Hit by done. cbv zeta in Hit.
      destruct (SearchCommon.query _ _ _ _).1; [|done].
      by destruct (answer _ _ _ _).1. }
  pose proof Hit as Htrace.
  apply iteration_trace in Htrace as (Hfresh' & raw & Hcalls & _); [|done].
  eexists o, st', _. split; [done|]. split; [done|]. split; [exact Hcalls|].
  split.
  { unfold block. cbn [List.filter is_engine_call].
    by rewrite wave_calls_no_engine_call. }
  intros loop -> Hgoes. rewrite iteration_spec in Hit by done.
  cbv zeta in Hit.
  unfold after_now, after_wave, after_query in Hit. cbn [world] in Hit.
  set (q := engine_query query authorized cursor) in *.
  pose proof (engine_takes_time q options (world st)) as [Hmono Hadvance].
  destruct (SearchCommon.query (searchEngine this) q options (world st))
    as [[page|message] w1]; cbn [fst snd] in *; [|done].
  set (requests := document_requests this decisions (results page)) in *.
  pose proof (answer_keeps_time options requests w1) as [Hmono2 Hsane2].
  destruct (answer this options requests w1) as [[answers|message] w2];
    cbn [fst snd] in *; [|done].
  injection Hit as <- <-. cbn [world].
  rewrite !Date_now_reads in *. cbn [fst snd] in *.
  unfold continues in Hgoes. cbn [latencyBudgetExhausted] in Hgoes.
  apply andb_prop in Hgoes as [_ Hbudget].
  rewrite budget_given in Hbudget.
  rewrite elapsed_exceeds in Hbudget; [|done|apply clock_range|lia].
  apply negb_true_iff, Z.ltb_ge in Hbudget.
  destruct Hinv as [Hsane|Hlate]; [|lia].
  destruct (Hadvance Hsane) as [Hstep Hsane1]; [lia|].
  split; [by apply Hsane2|]. lia.
Qed.

Lemma backfill_ends n query options decisions authorized target acc cursor
    st :
  fresh st ->
  sane (world st) \/ start + budget < clock (world st) ->
  start + budget <= clock (world st) + Z.of_nat n ->
  exists o st' new,
    backfill Date_now (S n) this query options start decisions authorized
      target acc cursor st = Some (o, st')
    /\ calls st' = calls st ++ new
    /\ (length (List.filter is_engine_call new) <= S n)%nat.
Proof.
  revert acc cursor st.
  induction n as [|n IH]; intros acc cursor st Hfresh Hinv Hn;
    rewrite backfill_unfold;
    destruct (iteration_takes_time query options decisions authorized target
                acc cursor st Hfresh Hinv)
      as (o & st1 & new1 & -> & Hfresh1 & Hcalls1 & Hcount1 & Hgoes);
    (destruct o as [loop|message];
     [|exists (Threw message), st1, new1; split; [done|split; [done|lia]]]);
    (destruct (continues target loop) eqn:Hc;
     [|exists (Returned loop), st1, new1; split; [done|split; [done|lia]]]);
    destruct (Hgoes loop eq_refl Hc) as (Hsane1 & Hstep & Hlast).
  - lia.
  - destruct (IH (filteredResults loop) (nextPageCursor loop) st1 Hfresh1
                (or_introl Hsane1)) as (o & st' & new & Hrun & Hcalls & Hcount);
      [lia|].
    exists o, st', (new1 ++ new). split; [done|]. split.
    + by rewrite Hcalls, Hcalls1, <- app_assoc.
    + rewrite List.filter_app, length_app. lia.
Qed.

End Clock.

(** X18. A query ends.  With a clock that [Date.now()] reads without
    changing the world, an engine whose calls never put the clock back and
    take a millisecond at least while the budget lasts (in the worlds that
    [sane] singles out and that such calls do not leave), and an authorizer
    that puts the clock back no more than the engine and leaves no sane
    world, a query started in a sane world ends, returning or failing,
    after at most [budget + 1] engine calls: [budget + 1] iterations are
    enough, and more change nothing.  (Time values and the budget are
    integers below [2^53].) *)
Theorem query_ends_within_budget (clock : World -> Z) (sane : World -> Prop)
    budget this query options st :
  (forall w, Date_now w = (clock w, w)) ->
  (forall w, 0 <= clock w < 2 ^ 53) ->
  queryLatencyBudgetMs (config this) = of_Z budget ->
  0 <= budget < 2 ^ 53 ->
  (forall sent options w,
     let w' := (SearchCommon.query (searchEngine this) sent options w).2 in
     clock w <= clock w'
     /\ (sane w -> clock w <= clock (world st) + budget ->
         clock w + 1 <= clock w' /\ sane w')) ->
  (forall requests options w,
     let w' := (PermissionAuthorizer.authorize (permissions this) requests
                  options w).2 in
     clock w <= clock w' /\ (sane w -> sane w')) ->
  sane (world st) ->
  exists o st' new,
    (forall fuel, (Z.to_nat budget < fuel)%nat ->
       AuthorizedSearchEngine.query Date_now fuel this query options st
       = Some (o, st'))
    /\ calls st' = calls st ++ new
    /\ (length (List.filter is_engine_call new) <= Z.to_nat budget + 1)%nat.
Proof.
  intros Hnow Hrange Hconfig Hbudget Hengine Hauth Hsane.
  set (requested := requestedTypes this query).
  set (requests := gate_requests this requested).
  set (st1 := query_start Date_now st).
  pose proof (wave_fresh this options requests st1
                (fresh_query_start Date_now st)) as Hfresh2.
  assert (world st1 = world st) as Hw1.
  { unfold st1, query_start. cbn [world]. by rewrite Hnow. }
  assert ((Date_now (world st)).1 = clock (world st)) as Hstart
    by by rewrite Hnow.
  pose proof (answer_keeps_time clock sane this Hauth options requests
                (world st1)) as [Hmono Hkeeps].
  assert (calls (after_wave this options requests st1)
          = calls st ++ wave_calls options requests) as Hcalls2 by done.
  assert (world (after_wave this options requests st1)
          = (answer this options requests (world st1)).2) as Hw2 by done.
  destruct (answer this options requests (world st1)).1
    as [answers|message] eqn:Ha.
  2:{ eexists (Threw message), _, _. split; [|split; [exact Hcalls2|]].
      - intros fuel _. rewrite query_spec. cbv zeta.
        fold requested requests st1. by rewrite Ha.
      - rewrite wave_calls_no_engine_call. simpl. lia. }
  destruct (decodePageCursor (pageCursor query)) as [page|message] eqn:Hpage.
  2:{ eexists (Threw message), _, _. split; [|split; [exact Hcalls2|]].
      - intros fuel _. rewrite query_spec. cbv zeta.
        fold requested requests st1. by rewrite Ha, Hpage.
      - rewrite wave_calls_no_engine_call. simpl. lia. }
  set (decisions := zipObject requested
                      (gate_decisions this requested answers)).
  set (authorized := authorizedTypes requested decisions).
  destruct (backfill_ends clock sane budget (clock (world st)) this Hnow
              Hrange Hconfig Hbudget (Hrange (world st)) Hengine Hauth
              (Z.to_nat budget) query options decisions authorized
              (mul (add page one) (pageSize (config this))) [] None
              (after_wave this options requests st1) Hfresh2)
    as (o & st' & new & Hrun & Hcalls & Hcount).
  { left. rewrite Hw2. apply Hkeeps. by rewrite Hw1. }
  { rewrite Hw2, Hw1 in *. lia. }
  exists (match o with
          | Returned loop => Returned (page_of this page loop)
          | Threw message => Threw message
          end), st', (wave_calls options requests ++ new).
  split; [|split].
  - intros fuel Hfuel. rewrite query_spec. cbv zeta.
    fold requested requests st1. rewrite Ha, Hpage.
    fold decisions authorized. rewrite Hstart.
    replace fuel with (S (Z.to_nat budget) + (fuel - S (Z.to_nat budget)))%nat
      by lia.
    rewrite (backfill_more_fuel _ _ _ _ _ _ _ _ _ _ _ _ _ Hrun).
    by destruct o.
  - by rewrite Hcalls, Hcalls2, <- app_assoc.
  - rewrite List.filter_app, length_app, wave_calls_no_engine_call.
    simpl. lia.
Qed.

(* --------------------------------------------------------------------- *)
(** ** The types asked for and the policy enforced *)
(* --------------------------------------------------------------------- *)

(** X19. Every engine call of a query asks for exactly the requested
    types that the gate did not decide DENY, in the order in which they
    were requested. *)
Theorem engine_is_asked_for_types_not_denied fuel this query options st o
    st' :
  AuthorizedSearchEngine.query Date_now fuel this query options st
  = Some (o, st') ->
  exists new,
    calls st' = calls st ++ new
    /\ forall sent options', Query sent options' ∈ new ->
       exists decisions st_gate,
         typeDecisions this (requestedTypes this query) options
           (query_start Date_now st) = Some (Returned decisions, st_gate)
         /\ SearchCommon.types sent
            = Some (filter (fun type =>
                              result <$> decisions !! type ≠ Some DENY)
                      (requestedTypes this query)).
Proof.
  intros Hrun. apply query_trace in Hrun. cbv zeta in Hrun.
  rewrite typeDecisions_spec by apply fresh_query_start.
  destruct Hrun as [[Hcalls _]|(answers & page & first & blocks & Ha & _
                                & Hcalls & _)].
  - eexists. split; [exact Hcalls|].
    intros sent options' Hin. by apply wave_calls_no_query in Hin.
  - eexists. split; [exact Hcalls|].
    intros sent options' [Hin|Hin]%elem_of_app;
      [by apply wave_calls_no_query in Hin|].
    rewrite Ha. eexists _, _. split; [reflexivity|].
    match type of Hin with
    | _ ∈ loop_trace _ _ _ ?d ?a ?b =>
        pose proof (loop_trace_types this query options d a b) as Htypes
    end.
    rewrite Forall_forall in Htypes. exact (Htypes _ Hin).
Qed.

Lemma iteration_by_policy this query options start decisions authorized acc
    cursor st policy loop st' :
  fresh st -> decides_by this policy ->
  iteration Date_now this query options start decisions authorized
    acc cursor st = Some (Returned loop, st') ->
  forall r, r ∈ filteredResults loop ->
    r ∈ acc \/ spec_keeps this decisions policy r = true.
Proof.
  intros Hfresh Hpolicy. rewrite iteration_spec by done. cbv zeta.
  destruct (SearchCommon.query _ _ _ _).1 as [page|message]; [|done].
  rewrite (answer_by_policy _ _ policy) by done.
  intros [= <- _] r. cbn [filteredResults].
  intros [Hr|Hr]%elem_of_app; [by left|right].
  rewrite kept_results_decided in Hr.
  by apply list_elem_of_In, List.filter_In in Hr as [_ Hr].
Qed.

Lemma backfill_by_policy fuel this query options start decisions authorized
    target acc cursor st policy loop st' :
  fresh st -> decides_by this policy ->
  backfill Date_now fuel this query options start decisions authorized
    target acc cursor st = Some (Returned loop, st') ->
  forall r, r ∈ filteredResults loop ->
    r ∈ acc \/ spec_keeps this decisions policy r = true.
Proof.
  intros Hfresh Hpolicy. revert acc cursor st Hfresh.
  induction fuel as [|fuel IH]; intros acc cursor st Hfresh; [done|].
  rewrite backfill_unfold.
  destruct (iteration _ _ _ _ _ _ _ _ _ st) as [[[loop1|message] st1]|] eqn:Hit;
    [|done|done].
  pose proof (iteration_by_policy _ _ _ _ _ _ _ _ _ _ _ _ Hfresh Hpolicy Hit)
    as Hkept1.
  apply iteration_trace in Hit as (Hfresh1 & _); [|done].
  destruct (continues target loop1).
  - intros Hrest r Hr.
    destruct (IH _ _ _ Hfresh1 Hrest r Hr) as [Hin|Hkept]; [|by right].
    by apply Hkept1.
  - intros [= <- <-]. exact Hkept1.
Qed.

(** X20. The page of a query holds nothing the policy denies.  With an
    authorizer that decides every request by a function [policy], every
    returned result is of a type the gate allowed outright, or has no
    visibility permission or no resource reference to check, or is itself
    allowed by the policy: [spec_keeps] under the decisions of the gate. *)
Theorem returned_results_pass_the_policy fuel this query options st
    page_set st' policy :
  decides_by this policy ->
  AuthorizedSearchEngine.query Date_now fuel this query options st
  = Some (Returned page_set, st') ->
  let requested := requestedTypes this query in
  let decisions :=
    zipObject requested (map (type_decision this policy) requested) in
  forall r, r ∈ results page_set ->
    spec_keeps this decisions policy r = true.
Proof.
  intros Hpolicy. rewrite query_spec. cbv zeta.
  set (requested := requestedTypes this query).
  set (requests := gate_requests this requested).
  set (st1 := query_start Date_now st).
  pose proof (wave_fresh this options requests st1
                (fresh_query_start Date_now st)) as Hfresh2.
  rewrite (answer_by_policy _ _ policy) by done.
  unfold requests. rewrite gate_decisions_by_policy.
  destruct (decodePageCursor (pageCursor query)) as [page|message]; [|done].
  destruct (backfill _ _ _ _ _ _ _ _ _ _ _ _)
    as [[[loop|message] st3]|] eqn:Hloop; [|done|done].
  intros [= <- _] r Hr. cbn [page_of results] in Hr.
  eapply elem_of_sublist in Hr; [|apply slice_sublist].
  destruct (backfill_by_policy _ _ _ _ _ _ _ _ _ _ _ _ _ _ Hfresh2 Hpolicy
              Hloop r Hr) as [Hin|Hkept]; [|done].
  by apply elem_of_nil in Hin.
Qed.

(** X21. The page of a query, exactly.  With an observer that notes every
    answer of the engine as it is given, an authorizer that decides every
    request by a function [policy], an integer page index [p] and an
    integer page size, the page holds the results number [p * pageSize] to
    [(p + 1) * pageSize - 1] of what the policy lets through of the
    results of the answers noted during the query, laid end to end in the
    order in which they were given. *)
Theorem page_is_window_of_filtered_answers fuel this query options st
    page_set st' (log : World -> list SearchResultSet) policy p size :
  records Date_now this log ->
  decides_by this policy ->
  AuthorizedSearchEngine.query Date_now fuel this query options st
  = Some (Returned page_set, st') ->
  decodePageCursor (pageCursor query) = Returned (of_Z p) ->
  pageSize (config this) = of_Z size ->
  0 <= p -> 0 <= size -> p + 1 < 2 ^ 53 -> (p + 1) * size < 2 ^ 53 ->
  let requested := requestedTypes this query in
  let decisions :=
    zipObject requested (map (type_decision this policy) requested) in
  exists answers,
    log (world st') = log (world st) ++ answers
    /\ results page_set
       = take (Z.to_nat size)
           (drop (Z.to_nat (p * size))
              (List.filter (spec_keeps this decisions policy)
                 (concat (map results answers)))).
Proof.
  intros Hlog Hpolicy Hrun Hpage Hsize Hp Hs Hp1 Htarget requested decisions.
  rewrite query_spec in Hrun. cbv zeta in Hrun.
  fold requested in Hrun.
  set (requests := gate_requests this requested) in *.
  set (st1 := query_start Date_now st) in *.
  pose proof (wave_fresh this options requests st1
                (fresh_query_start Date_now st)) as Hfresh2.
  rewrite (answer_by_policy _ _ policy) in Hrun by done.
  unfold requests in Hrun at 1. rewrite gate_decisions_by_policy in Hrun.
  fold decisions in Hrun. rewrite Hpage in Hrun.
  destruct (backfill _ _ _ _ _ _ _ _ _ _ _ _)
    as [[[loop|message] st3]|] eqn:Hloop; [|done|done].
  injection Hrun as <- <-.
  destruct (backfill_log Date_now _ _ _ _ _ _ _ _ _ _ _ _ _ log Hfresh2 Hlog
              Hloop)
    as (earlier & response & kept & Hl & _ & Hk & _ & Hexact).
  exists (earlier ++ [response]). split.
  - rewrite Hl. unfold st1. by rewrite (gate_keeps_log Date_now _ _ _ _ _ Hlog).
  - cbn [page_of results]. rewrite Hsize, Hk, (Hexact policy Hpolicy).
    cbn [app].
    assert (size < 2 ^ 53) as Hs53 by nia.
    rewrite next_page by lia. rewrite !mul_of_Z by lia.
    rewrite slice_of_Z by nia.
    by replace ((p + 1) * size - p * size) with size by lia.
Qed.

End Facts.

End QueryFacts.

(* ===================================================================== *)
(** * Further properties of the cursor codec *)
(* ===================================================================== *)

Module CodecFacts.
Import JsNumber JsNumberFacts CursorFacts.


Lemma represents_unique x a b : represents x a -> represents x b -> a = b.
Proof.
  intros (s & m & e & -> & _ & _ & ->).
  intros (s' & m' & e' & [= <- <- <-] & _ & _ & ->). done.
Qed.

(** X22. Distinct pages have distinct cursors: on the integers from 0 to
    [2^53 - 1] the encoding is injective. *)
Theorem encodePageCursor_injective p q :
  0 <= p < 2 ^ 53 -> 0 <= q < 2 ^ 53 ->
  encodePageCursor (of_Z p) = encodePageCursor (of_Z q) -> p = q.
Proof.
  intros Hp Hq Heq.
  pose proof (decoded_encoded p Hp) as Hdp.
  rewrite Heq, (decoded_encoded q Hq) in Hdp.
  apply (represents_unique (of_Z p)).
  - apply of_Z_represents. lia.
  - rewrite <- Hdp. apply of_Z_represents. lia.
Qed.

(** X23. The cursor of an integer page from 0 to [2^53 - 1] is the base64
    of its decimal digits. *)
Theorem encodePageCursor_is_base64_of_decimal p :
  0 <= p < 2 ^ 53 ->
  encodePageCursor (of_Z p) = Buffer.toString_base64 (decimal p).
Proof.
  intros Hp. unfold encodePageCursor. rewrite toString_of_Z by done.
  by rewrite from_utf8_ascii by (apply digit_ascii, decimal_digits; lia).
Qed.





End CodecFacts.

(* ===================================================================== *)
(** * The running example, evaluated *)
(* ===================================================================== *)

Module Examples.
Import PermissionCommon SearchCommon SearchBackendNode.
Import AuthorizedSearchEngine CursorFacts EngineFacts Scenario.
Import Observations Observers Cases Careless.

(** The largest safe integer, [2^53 - 1], as a page. *)
Lemma cursor_round_trip_witness :
  0 <= 9007199254740991 < 2 ^ 53
  /\ decodePageCursor (Some (encodePageCursor (of_Z 9007199254740991)))
     = Returned (of_Z 9007199254740991).
Proof.
  assert (H : 0 <= 9007199254740991 < 2 ^ 53) by (split; [done|reflexivity]).
  exact (conj H (cursor_round_trip 9007199254740991 H)).
Defined.

(** The cursors of the first pages. *)
Example first_cursors :
  map (fun p => encodePageCursor (of_Z p)) [0; 1; 2; 10; 25]
  = ["MA=="; "MQ=="; "Mg=="; "MTA="; "MjU="]%string.
Proof. reflexivity. Qed.

(** C5 as stated fails: the cursor [SW5maW5pdHk=] is the base64 of
    [Infinity]; its value is not a finite number, yet it is returned as
    the page. *)
Lemma infinity_cursor_is_accepted :
  ~ (forall cursor,
       isFinite (decoded cursor) = false \/ lt (decoded cursor) zero = true ->
       decodePageCursor (Some cursor) = Threw "Invalid cursor").
Proof.
  intros H.
  specialize (H "SW5maW5pdHk="%string (or_introl eq_refl)).
  vm_compute in H. discriminate H.
Qed.

(** Other payloads that are not the digits of a page and are accepted:
    [1.5], [0x10], [1e3], a blank, [-0], and base64 without padding or
    with characters outside the alphabet. *)
Example lenient_cursors :
  map (fun cursor => decodePageCursor (Some cursor))
    ["MS41"; "MHgxMA=="; "MWUz"; "IA=="; "LTA="; "MQ"; "M Q = ="; "!"]%string
  = [Returned (Fin false 3 (-1)); Returned (of_Z 16); Returned (of_Z 1000);
     Returned zero; Returned (Fin true 0 0); Returned one; Returned one;
     Returned zero].
Proof. vm_compute. reflexivity. Qed.

(** And those that are rejected. *)
Example rejected_cursors :
  map (fun cursor => decodePageCursor (Some cursor))
    ["LTE="; "YWJj"; "TmFO"; "LUluZmluaXR5"; "MSwy"]%string
  = [Threw "Invalid cursor"; Threw "Invalid cursor"; Threw "Invalid cursor";
     Threw "Invalid cursor"; Threw "Invalid cursor"].
Proof. vm_compute. reflexivity. Qed.

Lemma fresh_initial : fresh initial.
Proof.
  intros r [d Hd]. cbn [initial cacheMap] in Hd.
  by rewrite lookup_empty in Hd.
Qed.

Lemma paged_honours_types pages latency :
  honours_types (paged pages latency).
Proof.
  intros query options w page w' Hq requested Hrequested r Hr.
  simpl in Hq. injection Hq as <- _. simpl in Hr.
  rewrite Hrequested in Hr.
  apply list_elem_of_In, List.filter_In in Hr as [_ Hr].
  by apply bool_decide_eq_true in Hr.
Qed.

(** C2, evaluated.  The catalog entity [component:a] is on both raw pages,
    and its key, the same permission with the same resource reference, is
    sent to the authorizer in two separate calls: each [load] builds a new
    key object, and the loader's cache compares keys by identity. *)
Theorem dataloader_repeats_key :
  calls_of_everything
  = Some
      [Authorize [{| permission := catalog_read; resourceRef := None |};
                  {| permission := secrets_read; resourceRef := None |}]
         anonymous;
       Query (engine_query everything ["catalog"; "docs"] None) anonymous;
       Authorize [entity_a;
                  {| permission := catalog_read;
                     resourceRef := Some "component:b" |}] anonymous;
       Query (engine_query everything ["catalog"; "docs"] (Some "+"))
         anonymous;
       Authorize [entity_a] anonymous]
  /\ (length ∘ authorize_calls_with entity_a) <$> calls_of_everything
     = Some 2%nat.
Proof. split; vm_compute; reflexivity. Qed.

(** C9, evaluated.  The underlying [index] returns a rejected promise;
    awaited directly it throws, but the wrapper's promise is fulfilled. *)
Theorem index_drops_rejection :
  let this := constructor unreachable registry (deciding policy) None in
  map_outcome await (SearchCommon.index unreachable "catalog" [] 0).1
  = Returned (Threw "index unavailable")
  /\ AuthorizedSearchEngine.index this "catalog" [] 0 = (Fulfilled tt, 0).
Proof. split; reflexivity. Qed.

Lemma elem_of_by_decision {A} `{EqDecision A} (x : A) (l : list A) :
  bool_decide (x ∈ l) = true -> x ∈ l.
Proof. apply bool_decide_eq_true_1. Qed.

(** A computation known by its value has some final state. *)
Lemma run_returned {A} (run : option (outcome A * State World)) (a : A) :
  fst <$> run = Some (Returned a) ->
  exists st', run = Some (Returned a, st').
Proof.
  destruct run as [[o st']|]; simpl; [|done].
  intros [= ->]. by exists st'.
Qed.

(** A computation known by its outcome and by a reading of its final
    state. *)
Lemma run_ended_at {W A B} (reading : State W -> B)
    (run : option (outcome A * State W)) (o : outcome A) (b : B) :
  (fun r => (r.1, reading r.2)) <$> run = Some (o, b) ->
  exists st', run = Some (o, st') /\ reading st' = b.
Proof.
  destruct run as [[o' st']|]; simpl; [|done].
  intros [= -> <-]. by exists st'.
Qed.

(** A computation known by its outcome, in any world. *)
Lemma run_known {W A} (run : option (outcome A * State W)) (o : outcome A) :
  fst <$> run = Some o -> exists st', run = Some (o, st').
Proof.
  destruct run as [[o' st']|]; simpl; [|done].
  intros [= ->]. by exists st'.
Qed.

(** The observed engines note their answers and the times of their calls;
    the observed authorizers and the clock touch neither. *)
Lemma recording_records engine types authorizer config :
  records Recorded.Date_now
    (constructor (Recorded.recording engine) types
       (Recorded.observed authorizer) config)
    Recorded.answers.
Proof.
  split; [|split].
  - intros sent options w response w'. cbn.
    destruct (SearchCommon.query engine sent options (Recorded.time w))
      as [o t]. by intros [= -> <-].
  - intros requests options w. cbn.
    by destruct (PermissionAuthorizer.authorize authorizer requests options
                   (Recorded.time w)).
  - done.
Qed.

Lemma recording_times_calls engine types authorizer config :
  times_calls
    (constructor (Recorded.recording engine) types
       (Recorded.observed authorizer) config)
    Recorded.clock Recorded.began.
Proof.
  split.
  - intros sent options w. cbn.
    by destruct (SearchCommon.query engine sent options (Recorded.time w)).
  - intros requests options w. cbn.
    by destruct (PermissionAuthorizer.authorize authorizer requests options
                   (Recorded.time w)).
Qed.

(** C1 as stated fails in its second half.  The careless engine is asked
    for catalog and docs, the secrets being denied by the gate, and
    returns a secret all the same; the secret has no resource reference,
    so the filter keeps it, and it is on the page. *)
Lemma denied_result_is_returned :
  ~ (forall (this : AuthorizedSearchEngine.t World unit) query options fuel
            st decisions st_gate page_set st' t,
       typeDecisions this (requestedTypes this query) options
         (query_start Date_now st) = Some (Returned decisions, st_gate) ->
       result <$> decisions !! t = Some DENY ->
       AuthorizedSearchEngine.query Date_now fuel this query options st
       = Some (Returned page_set, st') ->
       (exists new,
          calls st' = calls st ++ new
          /\ forall sent options', Query sent options' ∈ new ->
             exists restriction,
               SearchCommon.types sent = Some restriction
               /\ t ∉ restriction)
       /\ forall r, r ∈ results page_set -> type r <> t).
Proof.
  intros H.
  destruct (run_returned
              (typeDecisions careless_wrapper
                 (requestedTypes careless_wrapper everything) anonymous
                 (query_start Date_now initial))
              gate_decided ltac:(vm_compute; reflexivity)) as [st_gate Hgate].
  destruct (run_returned
              (AuthorizedSearchEngine.query Date_now 5 careless_wrapper
                 everything anonymous initial)
              leaked_page ltac:(vm_compute; reflexivity)) as [st' Hrun].
  assert (Hdeny : result <$> gate_decided !! "secrets" = Some DENY)
    by (vm_compute; reflexivity).
  destruct (H careless_wrapper everything anonymous 5%nat initial
              gate_decided st_gate leaked_page st' "secrets"%string Hgate
              Hdeny Hrun) as [_ Hnone].
  apply (Hnone (hit "secrets" None)); [|reflexivity].
  apply list_elem_of_here.
Qed.

(** The query for everything, pages of two results: the gate denies the
    secrets, the engine is asked for catalog and docs only, and no secret
    is returned. *)
Lemma type_level_deny_excludes_type_witness :
  exists st_gate st',
    typeDecisions (wrapper 2) (requestedTypes (wrapper 2) everything)
      anonymous (query_start Date_now initial)
    = Some (Returned gate_decided, st_gate)
    /\ result <$> gate_decided !! "secrets" = Some DENY
    /\ AuthorizedSearchEngine.query Date_now 5 (wrapper 2) everything
         anonymous initial = Some (Returned first_page, st')
    /\ (exists new,
          calls st' = calls initial ++ new
          /\ forall sent options', Query sent options' ∈ new ->
             exists restriction,
               SearchCommon.types sent = Some restriction
               /\ "secrets" ∉ restriction)
    /\ forall r, r ∈ results first_page -> type r <> "secrets".
Proof.
  destruct (run_returned
              (typeDecisions (wrapper 2) (requestedTypes (wrapper 2) everything)
                 anonymous (query_start Date_now initial))
              gate_decided ltac:(vm_compute; reflexivity)) as [st_gate Hgate].
  destruct (run_returned
              (AuthorizedSearchEngine.query Date_now 5 (wrapper 2) everything
                 anonymous initial)
              first_page ltac:(vm_compute; reflexivity)) as [st' Hrun].
  assert (Hdeny : result <$> gate_decided !! "secrets" = Some DENY)
    by (vm_compute; reflexivity).
  exists st_gate, st'.
  destruct (type_level_deny_excludes_type Date_now 5 (wrapper 2) everything
              anonymous initial gate_decided st_gate (Returned first_page)
              st' "secrets" Hgate Hdeny Hrun) as [Hcalls Hresults].
  split; [exact Hgate|]. split; [exact Hdeny|]. split; [exact Hrun|].
  split; [exact Hcalls|].
  exact (Hresults (paged_honours_types _ _) first_page eq_refl).
Defined.

(** The first raw page, unrestricted, through the filter: the entity the
    policy allows, the document without a permission, and the note of an
    unregistered type are kept; the secret has a reference and is decided
    per document. *)
Lemma filterResults_keeps_authorized_subsequence_witness :
  fresh initial
  /\ (answer (wrapper 2) anonymous
        (document_requests (wrapper 2) gate_decided first_raw_page)
        (world initial)).1 = Returned first_answers
  /\ fst <$> filterResults (wrapper 2) anonymous first_raw_page gate_decided
               initial
     = Some (Returned [hit "catalog" (Some "component:a"); hit "docs" None;
                       hit "notes" None])
  /\ sublist (kept_results (wrapper 2) gate_decided first_raw_page
                first_answers) first_raw_page
  /\ kept_results (wrapper 2) gate_decided first_raw_page first_answers
     = List.filter (spec_keeps (wrapper 2) gate_decided policy)
         first_raw_page.
Proof.
  assert (Ha : (answer (wrapper 2) anonymous
                  (document_requests (wrapper 2) gate_decided first_raw_page)
                  (world initial)).1 = Returned first_answers)
    by (vm_compute; reflexivity).
  destruct (filterResults_keeps_authorized_subsequence (wrapper 2) anonymous
              first_raw_page gate_decided initial first_answers
              fresh_initial Ha)
    as (Hrun & Hsub & Hdecided).
  split; [exact fresh_initial|]. split; [exact Ha|].
  split; [rewrite Hrun; vm_compute; reflexivity|].
  split; [exact Hsub|].
  apply Hdecided. vm_compute. reflexivity.
Defined.

(** The observed endless wrapper, 600 milliseconds a call against a
    budget of a second: the second call is begun after 600 milliseconds,
    there is no third, and the page, returned after 1200, has no next
    cursor.  The slow wrapper: one engine call of two seconds. *)
Lemma latency_budget_stops_backfill_witness :
  (exists st',
     AuthorizedSearchEngine.query Recorded.Date_now 5
       (Recorded.endless_wrapper 600) everything anonymous Recorded.initial
     = Some (Returned Recorded.late_page, st')
     /\ Recorded.began (world st') = [0; 600]
     /\ 1000 < Recorded.clock (world st')
               - Recorded.clock (world Recorded.initial)
     /\ ((Recorded.began (world st')
          = Recorded.began (world Recorded.initial)
          /\ exists message, Returned Recorded.late_page = Threw message)
         \/ exists first later,
              Recorded.began (world st')
              = Recorded.began (world Recorded.initial) ++ first :: later
              /\ Forall
                   (fun t => t - Recorded.clock (world Recorded.initial)
                             <= 1000) later)
     /\ SearchCommon.nextPageCursor Recorded.late_page = None)
  /\ (exists st',
     iteration Date_now slow_wrapper everything anonymous 0 gate_decided
       ["catalog"; "docs"] [] None initial = Some (Returned overrun, st')
     /\ latencyBudgetExhausted overrun = true
     /\ backfill Date_now 7 slow_wrapper everything anonymous 0 gate_decided
          ["catalog"; "docs"] (of_Z 25) [] None initial
        = Some (Returned overrun, st')
     /\ SearchCommon.nextPageCursor (page_of slow_wrapper zero overrun) = None
     /\ exists w,
          latencyBudgetExhausted overrun
          = gt (sub (of_Z (Date_now w).1) (of_Z 0))
               (queryLatencyBudgetMs (config slow_wrapper))
          /\ world st' = (Date_now w).2)
  /\ exists page_set st' new,
       AuthorizedSearchEngine.query Date_now 1 slow_wrapper everything
         anonymous initial = Some (Returned page_set, st')
       /\ SearchCommon.nextPageCursor page_set = None
       /\ calls st' = calls initial ++ new
       /\ length (List.filter is_engine_call new) = 1%nat.
Proof.
  destruct (latency_budget_stops_backfill (World := World)
              (QueryTranslator := unit) Date_now)
    as (_ & _ & Hlast & Hflag & Hslow).
  destruct (latency_budget_stops_backfill (World := Recorded.World)
              (QueryTranslator := unit) Recorded.Date_now)
    as (Hbegan & Hover & _).
  split; [|split].
  - destruct (run_ended_at
                (fun st => (Recorded.time (world st),
                            Recorded.began (world st)))
                (AuthorizedSearchEngine.query Recorded.Date_now 5
                   (Recorded.endless_wrapper 600) everything anonymous
                   Recorded.initial)
                (Returned Recorded.late_page) (1200, [0; 600])
                ltac:(vm_compute; reflexivity)) as (st' & Hrun & Hworld).
    injection Hworld as Htime Hcalls.
    assert (Hlate : 1000 < Recorded.clock (world st')
                           - Recorded.clock (world Recorded.initial)).
    { unfold Recorded.clock. rewrite Htime. reflexivity. }
    assert (Hrange : forall w, 0 <= Recorded.clock w < 2 ^ 53).
    { intros w. unfold Recorded.clock, clock.
      change (2 ^ 53) with 9007199254740992. lia. }
    assert (Hbudget : 0 <= 1000 < 2 ^ 53) by (split; [lia|reflexivity]).
    exists st'. split; [exact Hrun|]. split; [exact Hcalls|].
    split; [exact Hlate|]. split.
    + exact (Hbegan Recorded.clock Recorded.began 1000 5%nat
               (Recorded.endless_wrapper 600) everything anonymous
               Recorded.initial (Returned Recorded.late_page) st'
               (fun w => eq_refl) Hrange Hbudget eq_refl
               (recording_times_calls _ _ _ _) Hrun).
    + exact (Hover Recorded.clock 1000 5%nat (Recorded.endless_wrapper 600)
               everything anonymous Recorded.initial Recorded.late_page st'
               (fun w => eq_refl) Hrange Hbudget eq_refl Hrun Hlate).
  - destruct (run_returned
                (iteration Date_now slow_wrapper everything anonymous 0
                   gate_decided ["catalog"; "docs"] [] None initial)
                overrun ltac:(vm_compute; reflexivity)) as [st' Hit].
    exists st'.
    destruct (Hlast 6%nat slow_wrapper everything anonymous 0 gate_decided
                ["catalog"; "docs"] (of_Z 25) [] None initial overrun st'
                Hit eq_refl) as [Hloop Hnext].
    split; [exact Hit|]. split; [reflexivity|].
    split; [exact Hloop|]. split; [apply Hnext|].
    exact (Hflag slow_wrapper everything anonymous 0 gate_decided
             ["catalog"; "docs"] [] None initial overrun st'
             fresh_initial Hit).
  - apply (Hslow clock (fun w => 0 <= w <= 2 ^ 52) 1000 0%nat slow_wrapper
             everything anonymous initial zero).
    + done.
    + intros w. unfold clock. change (2 ^ 53) with 9007199254740992. lia.
    + change (2 ^ 53) with 9007199254740992. lia.
    + reflexivity.
    + intros sent options w Hw. eexists _, _.
      split; [reflexivity|]. split; [reflexivity|].
      unfold clock. change (2 ^ 52) with 4503599627370496 in Hw. lia.
    + intros requests options w. exists w. split; [reflexivity|].
      split; [lia|done].
    + simpl. change (2 ^ 52) with 4503599627370496. lia.
    + reflexivity.
Defined.


(** Docs have no visibility permission: the filter asks nothing about the
    document of the first raw page and keeps it. *)
Lemma type_level_allow_skips_document_checks_witness :
  let others := filter (fun r => type r <> "docs") first_raw_page in
  exists st_gate,
    fresh initial
    /\ typeDecisions (wrapper 2) ["catalog"; "docs"; "secrets"] anonymous
         initial = Some (Returned gate_decided, st_gate)
    /\ "docs" ∈ ["catalog"; "docs"; "secrets"]
    /\ visibilityPermissionOf (wrapper 2) "docs" = None
    /\ document_requests (wrapper 2) gate_decided others
       = document_requests (wrapper 2) gate_decided first_raw_page
    /\ snd <$> filterResults (wrapper 2) anonymous others gate_decided initial
       = snd <$> filterResults (wrapper 2) anonymous first_raw_page
                   gate_decided initial
    /\ exists st3,
         filterResults (wrapper 2) anonymous first_raw_page gate_decided
           initial = Some (Returned first_kept, st3)
         /\ filter (fun r => type r = "docs") first_kept
            = filter (fun r => type r = "docs") first_raw_page
         /\ filterResults (wrapper 2) anonymous others gate_decided initial
            = Some (Returned (filter (fun r => type r <> "docs") first_kept),
                    st3).
Proof.
  intros others.
  destruct (run_returned
              (typeDecisions (wrapper 2) ["catalog"; "docs"; "secrets"]
                 anonymous initial)
              gate_decided ltac:(vm_compute; reflexivity)) as [st_gate Hgate].
  assert (Hin : "docs" ∈ ["catalog"; "docs"; "secrets"])
    by (apply elem_of_by_decision; vm_compute; reflexivity).
  assert (Hnone : visibilityPermissionOf (wrapper 2) "docs" = None)
    by reflexivity.
  exists st_gate.
  split; [exact fresh_initial|]. split; [exact Hgate|].
  split; [exact Hin|]. split; [exact Hnone|].
  destruct (type_level_allow_skips_document_checks (wrapper 2) anonymous
              ["catalog"; "docs"; "secrets"] initial gate_decided st_gate
              "docs" fresh_initial Hgate Hin (or_introl Hnone)
              first_raw_page initial fresh_initial)
    as (Hrequests & Hstate & Hkept).
  split; [exact Hrequests|]. split; [exact Hstate|].
  destruct (run_returned
              (filterResults (wrapper 2) anonymous first_raw_page
                 gate_decided initial)
              first_kept ltac:(vm_compute; reflexivity)) as [st3 Hrun].
  exists st3. split; [exact Hrun|]. exact (Hkept first_kept st3 Hrun).
Defined.

(** Notes are requested but unknown to the registry. *)
Lemma unregistered_type_allowed_by_default_witness :
  let requested := requestedTypes (wrapper 2) with_notes in
  let others := filter (fun type => type <> "notes") requested in
  property (types (wrapper 2)) "notes" = None
  /\ "notes" ∈ requested
  /\ gate_requests (wrapper 2) others = gate_requests (wrapper 2) requested
  /\ snd <$> typeDecisions (wrapper 2) others anonymous initial
     = snd <$> typeDecisions (wrapper 2) requested anonymous initial
  /\ (exists st_gate,
        typeDecisions (wrapper 2) requested anonymous initial
        = Some (Returned notes_decided, st_gate)
        /\ notes_decided !! "notes" = Some {| result := ALLOW |}
        /\ "notes" ∈ authorizedTypes requested notes_decided)
  /\ (exists st' new,
        AuthorizedSearchEngine.query Date_now 5 (wrapper 2) with_notes
          anonymous initial = Some (Returned notes_page, st')
        /\ hit "notes" None ∈ results notes_page
        /\ calls st' = calls initial ++ new
        /\ forall sent options', Query sent options' ∈ new ->
           exists restriction,
             SearchCommon.types sent = Some restriction
             /\ "notes" ∈ restriction)
  /\ snd <$> filterResults (wrapper 2) anonymous
               (filter (fun r => type r <> "notes") first_raw_page)
               gate_decided initial
     = snd <$> filterResults (wrapper 2) anonymous first_raw_page
                 gate_decided initial
  /\ exists st3,
       filterResults (wrapper 2) anonymous first_raw_page gate_decided
         initial = Some (Returned first_kept, st3)
       /\ filter (fun r => type r = "notes") first_kept
          = filter (fun r => type r = "notes") first_raw_page
       /\ filterResults (wrapper 2) anonymous
            (filter (fun r => type r <> "notes") first_raw_page)
            gate_decided initial
          = Some (Returned (filter (fun r => type r <> "notes") first_kept),
                  st3).
Proof.
  intros requested others.
  assert (Hunknown : property (types (wrapper 2)) "notes" = None)
    by reflexivity.
  assert (Hin : "notes" ∈ requested)
    by (apply elem_of_by_decision; vm_compute; reflexivity).
  destruct (unregistered_type_allowed_by_default Date_now (wrapper 2)
              with_notes anonymous "notes" Hunknown Hin)
    as (Hrequests & Hstate & Hgate & Hcalls & Hfilter).
  split; [exact Hunknown|]. split; [exact Hin|].
  split; [exact Hrequests|]. split; [exact (Hstate initial fresh_initial)|].
  split; [|split; [|split]].
  - destruct (run_returned
                (typeDecisions (wrapper 2) requested anonymous initial)
                notes_decided ltac:(vm_compute; reflexivity))
      as [st_gate Hrun].
    exists st_gate. split; [exact Hrun|].
    exact (Hgate initial notes_decided st_gate fresh_initial Hrun).
  - destruct (run_returned
                (AuthorizedSearchEngine.query Date_now 5 (wrapper 2)
                   with_notes anonymous initial)
                notes_page ltac:(vm_compute; reflexivity)) as [st' Hrun].
    destruct (Hcalls 5%nat initial (Returned notes_page) st' Hrun)
      as (new & Hnew & Hsent).
    exists st', new. split; [exact Hrun|].
    split; [apply elem_of_by_decision; vm_compute; reflexivity|].
    split; [exact Hnew|exact Hsent].
  - apply (Hfilter gate_decided first_raw_page initial fresh_initial).
  - destruct (run_returned
                (filterResults (wrapper 2) anonymous first_raw_page
                   gate_decided initial)
                first_kept ltac:(vm_compute; reflexivity)) as [st3 Hrun].
    exists st3. split; [exact Hrun|].
    exact (proj2 (Hfilter gate_decided first_raw_page initial fresh_initial)
             first_kept st3 Hrun).
Defined.

End Examples.

(* ===================================================================== *)
(** * The further properties on the running example *)
(* ===================================================================== *)

Module Illustrations.
Import JsNumber.
Import PermissionCommon SearchCommon SearchBackendNode.
Import AuthorizedSearchEngine CursorFacts EngineFacts Scenario Examples.
Import Observations Observers Cases QueryFacts CodecFacts.

(** A computation known by its outcome has some final state. *)
Lemma run_ended {A} (run : option (outcome A * State World)) (o : outcome A) :
  fst <$> run = Some o -> exists st', run = Some (o, st').
Proof.
  destruct run as [[o' st']|]; simpl; [|done].
  intros [= ->]. by exists st'.
Qed.

(** The cursor [LTE=] is the base64 of [-1]: the query fails without any
    iteration, after the call of the gate. *)
Lemma invalid_cursor_rejects_after_gate_witness :
  let query := everything_from "LTE=" in
  let requests :=
    gate_requests (wrapper 2) (requestedTypes (wrapper 2) query) in
  decodePageCursor (pageCursor query) = Threw "Invalid cursor"
  /\ exists thrown st',
       AuthorizedSearchEngine.query Date_now 0 (wrapper 2) query anonymous
         initial = Some (Threw thrown, st')
       /\ calls st' = calls initial ++ wave_calls anonymous requests
       /\ (forall answers,
             (answer (wrapper 2) anonymous requests
                (Date_now (world initial)).2).1 = Returned answers ->
             thrown = "Invalid cursor"%string).
Proof.
  intros query requests.
  assert (H : decodePageCursor (pageCursor query) = Threw "Invalid cursor")
    by (vm_compute; reflexivity).
  exact (conj H (invalid_cursor_rejects_after_gate Date_now 0 (wrapper 2)
                   query anonymous initial "Invalid cursor" H)).
Defined.


(** The permission backend is down: the query fails with its error. *)
Lemma gate_failure_rejects_query_witness :
  let this := guarded_by failing in
  let requests := gate_requests this (requestedTypes this everything) in
  requests <> []
  /\ PermissionAuthorizer.authorize (permissions this) requests anonymous
       (Date_now (world initial)).2
     = (Threw "permission backend unavailable", 5)
  /\ exists st',
       AuthorizedSearchEngine.query Date_now 5 this everything anonymous
         initial = Some (Threw "permission backend unavailable", st')
       /\ world st' = 5
       /\ calls st' = calls initial ++ [Authorize requests anonymous].
Proof.
  intros this requests.
  assert (Hne : requests <> []) by (vm_compute; discriminate).
  assert (Hcall : PermissionAuthorizer.authorize (permissions this) requests
                    anonymous (Date_now (world initial)).2
                  = (Threw "permission backend unavailable", 5))
    by reflexivity.
  exact (conj Hne (conj Hcall
           (gate_failure_rejects_query Date_now 5 this everything anonymous
              initial "permission backend unavailable" 5 Hne Hcall))).
Defined.

(** Two requests, no decision: the loader rejects the loads of the gate. *)
Lemma gate_wrong_count_rejects_query_witness :
  let this := guarded_by silent in
  let requests := gate_requests this (requestedTypes this everything) in
  requests <> []
  /\ PermissionAuthorizer.authorize (permissions this) requests anonymous
       (Date_now (world initial)).2 = (Returned [], 5)
  /\ length (A := AuthorizeDecision) [] <> length requests
  /\ exists thrown st',
       AuthorizedSearchEngine.query Date_now 5 this everything anonymous
         initial = Some (Threw thrown, st')
       /\ world st' = 5
       /\ calls st' = calls initial ++ [Authorize requests anonymous].
Proof.
  intros this requests.
  assert (Hne : requests <> []) by (vm_compute; discriminate).
  assert (Hcall : PermissionAuthorizer.authorize (permissions this) requests
                    anonymous (Date_now (world initial)).2
                  = (Returned [], 5)) by reflexivity.
  assert (Hlen : length (A := AuthorizeDecision) [] <> length requests)
    by (vm_compute; discriminate).
  exact (conj Hne (conj Hcall (conj Hlen
           (gate_wrong_count_rejects_query Date_now 5 this everything
              anonymous initial [] 5 Hne Hcall Hlen)))).
Defined.

(** The engine is out of reach: the loop and the query fail with its error. *)
Lemma engine_failure_rejects_query_witness :
  (exists st',
     backfill Date_now 1 down_wrapper everything anonymous 0 gate_decided
       ["catalog"; "docs"] (of_Z 25) [] None initial
     = Some (Threw "index unavailable", st')
     /\ world st' = 0
     /\ calls st'
        = calls initial
            ++ [Query (engine_query everything ["catalog"; "docs"] None)
                  anonymous])
  /\ exists st',
       AuthorizedSearchEngine.query Date_now 1 down_wrapper everything
         anonymous initial = Some (Threw "index unavailable", st').
Proof.
  destruct (engine_failure_rejects_query Date_now down_wrapper everything
              anonymous "index unavailable") as [Hloop Hquery].
  split.
  - exact (Hloop 0%nat 0 gate_decided ["catalog"; "docs"] (of_Z 25) [] None
             initial 0 eq_refl).
  - apply (Hquery 0%nat initial gate_answers zero).
    + vm_compute. reflexivity.
    + reflexivity.
    + intros authorized. reflexivity.
Defined.

(** The authorizer decides on the types and fails on the two catalog
    entities of the first answer. *)
Lemma filter_failure_rejects_query_witness :
  let this := guarded_by failing_on_documents in
  let sent := engine_query everything ["catalog"; "docs"] None in
  let requests :=
    document_requests this gate_decided (results first_response) in
  fresh initial
  /\ SearchCommon.query (searchEngine this) sent anonymous (world initial)
     = (Returned first_response, 10)
  /\ requests <> []
  /\ PermissionAuthorizer.authorize (permissions this) requests anonymous 10
     = (Threw "permission backend unavailable", 15)
  /\ exists st',
       backfill Date_now 5 this everything anonymous 0 gate_decided
         ["catalog"; "docs"] (of_Z 2) [] None initial
       = Some (Threw "permission backend unavailable", st')
       /\ world st' = 15
       /\ calls st'
          = calls initial
              ++ [Query sent anonymous; Authorize requests anonymous].
Proof.
  intros this sent requests.
  assert (Hq : SearchCommon.query (searchEngine this) sent anonymous
                 (world initial) = (Returned first_response, 10))
    by (vm_compute; reflexivity).
  assert (Hne : requests <> []) by (vm_compute; discriminate).
  assert (Hcall : PermissionAuthorizer.authorize (permissions this) requests
                    anonymous 10
                  = (Threw "permission backend unavailable", 15))
    by (vm_compute; reflexivity).
  exact (conj fresh_initial (conj Hq (conj Hne (conj Hcall
           (filter_failure_rejects_query Date_now 4 this everything
              anonymous 0 gate_decided ["catalog"; "docs"] (of_Z 2) [] None
              initial first_response 10 "permission backend unavailable" 15
              fresh_initial Hq Hne Hcall))))).
Defined.

(** The second page of everything: five calls, all with the term, the
    filters and the options of the caller. *)
Lemma query_forwards_criteria_witness :
  exists st',
    AuthorizedSearchEngine.query Date_now 5 (wrapper 2)
      (everything_from "MQ==") anonymous initial
    = Some (Returned second_page, st')
    /\ exists new,
         calls st' = calls initial ++ new
         /\ Forall (forwards (everything_from "MQ==") anonymous) new.
Proof.
  destruct (run_ended
              (AuthorizedSearchEngine.query Date_now 5 (wrapper 2)
                 (everything_from "MQ==") anonymous initial)
              (Returned second_page) ltac:(vm_compute; reflexivity))
    as [st' Hrun].
  exists st'. split; [exact Hrun|].
  exact (query_forwards_criteria Date_now 5 (wrapper 2)
           (everything_from "MQ==") anonymous initial (Returned second_page)
           st' Hrun).
Defined.

(** The cursor [MQ==] of the caller is not sent: the first engine call has
    none. *)
Lemma first_engine_call_has_no_cursor_witness :
  exists st',
    AuthorizedSearchEngine.query Date_now 5 (wrapper 2)
      (everything_from "MQ==") anonymous initial
    = Some (Returned second_page, st')
    /\ exists new sent rest,
         calls st' = calls initial ++ new
         /\ List.filter is_engine_call new = Query sent anonymous :: rest
         /\ pageCursor sent = None.
Proof.
  destruct (run_ended
              (AuthorizedSearchEngine.query Date_now 5 (wrapper 2)
                 (everything_from "MQ==") anonymous initial)
              (Returned second_page) ltac:(vm_compute; reflexivity))
    as [st' Hrun].
  exists st'. split; [exact Hrun|].
  exact (first_engine_call_has_no_cursor Date_now 5 (wrapper 2)
           (everything_from "MQ==") anonymous initial second_page st' Hrun).
Defined.

(** Three calls of the authorizer for two engine calls. *)
Lemma authorize_calls_bounded_witness :
  exists st',
    AuthorizedSearchEngine.query Date_now 5 (wrapper 2)
      (everything_from "MQ==") anonymous initial
    = Some (Returned second_page, st')
    /\ exists new,
         calls st' = calls initial ++ new
         /\ (length (List.filter is_authorize_call new)
             <= 1 + length (List.filter is_engine_call new))%nat.
Proof.
  destruct (run_ended
              (AuthorizedSearchEngine.query Date_now 5 (wrapper 2)
                 (everything_from "MQ==") anonymous initial)
              (Returned second_page) ltac:(vm_compute; reflexivity))
    as [st' Hrun].
  exists st'. split; [exact Hrun|].
  exact (authorize_calls_bounded Date_now 5 (wrapper 2)
           (everything_from "MQ==") anonymous initial (Returned second_page)
           st' Hrun).
Defined.

(** Docs and notes carry no permission: the open wrapper asks nothing. *)
Lemma unrestricted_registry_never_authorizes_witness :
  unrestricted open_wrapper
  /\ exists st',
       AuthorizedSearchEngine.query Date_now 5 open_wrapper everything
         anonymous initial = Some (Returned open_page, st')
       /\ exists new,
            calls st' = calls initial ++ new
            /\ List.filter is_authorize_call new = [].
Proof.
  assert (Hopen : unrestricted open_wrapper) by (repeat constructor).
  split; [exact Hopen|].
  destruct (run_ended
              (AuthorizedSearchEngine.query Date_now 5 open_wrapper
                 everything anonymous initial)
              (Returned open_page) ltac:(vm_compute; reflexivity))
    as [st' Hrun].
  exists st'. split; [exact Hrun|].
  exact (unrestricted_registry_never_authorizes Date_now 5 open_wrapper
           everything anonymous initial (Returned open_page) st' Hopen Hrun).
Defined.

(** The query for no type: two engine calls, both for no type. *)
Lemma empty_types_are_not_defaulted_witness :
  SearchCommon.types nothing = Some []
  /\ exists st',
       AuthorizedSearchEngine.query Date_now 5 (wrapper 2) nothing anonymous
         initial = Some (Returned empty_page, st')
       /\ exists new,
            calls st' = calls initial ++ new
            /\ Forall (loop_call []) new
            /\ (new = []
                \/ exists rest,
                     new = Query (engine_query nothing [] None) anonymous
                           :: rest).
Proof.
  split; [reflexivity|].
  destruct (run_ended
              (AuthorizedSearchEngine.query Date_now 5 (wrapper 2) nothing
                 anonymous initial)
              (Returned empty_page) ltac:(vm_compute; reflexivity))
    as [st' Hrun].
  exists st'. split; [exact Hrun|].
  exact (empty_types_are_not_defaulted Date_now 5 (wrapper 2) nothing
           anonymous initial (Returned empty_page) st' eq_refl Hrun).
Defined.

(** The first raw page: one call for its three references. *)
Lemma filterResults_batches_checks_witness :
  fresh initial
  /\ exists st',
       filterResults (wrapper 2) anonymous first_raw_page gate_decided
         initial = Some (Returned first_kept, st')
       /\ calls st'
          = calls initial
              ++ match document_requests (wrapper 2) gate_decided
                         first_raw_page with
                 | [] => []
                 | requests => [Authorize requests anonymous]
                 end.
Proof.
  split; [exact fresh_initial|].
  destruct (run_ended
              (filterResults (wrapper 2) anonymous first_raw_page
                 gate_decided initial)
              (Returned first_kept) ltac:(vm_compute; reflexivity))
    as [st' Hrun].
  exists st'. split; [exact Hrun|].
  exact (filterResults_batches_checks (wrapper 2) anonymous first_raw_page
           gate_decided initial (Returned first_kept) st' fresh_initial
           Hrun).
Defined.

(** The second page of everything, in the observed world, comes from the
    two answers the engine gave. *)
Lemma results_come_from_engine_in_order_witness :
  let this := Recorded.wrapper 10 2 in
  records Recorded.Date_now this Recorded.answers
  /\ exists st',
       AuthorizedSearchEngine.query Recorded.Date_now 5 this
         (everything_from "MQ==") anonymous Recorded.initial
       = Some (Returned second_page, st')
       /\ exists answers,
            Recorded.answers (world st')
            = Recorded.answers (world Recorded.initial) ++ answers
            /\ sublist (results second_page)
                 (concat (map results answers)).
Proof.
  intros this.
  assert (Hlog : records Recorded.Date_now this Recorded.answers)
    by apply recording_records.
  split; [exact Hlog|].
  destruct (run_known
              (AuthorizedSearchEngine.query Recorded.Date_now 5 this
                 (everything_from "MQ==") anonymous Recorded.initial)
              (Returned second_page) ltac:(vm_compute; reflexivity))
    as [st' Hrun].
  exists st'. split; [exact Hrun|].
  exact (results_come_from_engine_in_order Recorded.Date_now 5 this
           (everything_from "MQ==") anonymous Recorded.initial second_page
           st' Recorded.answers Hlog Hrun).
Defined.

(** Page 1 with two results a page. *)
Lemma page_has_at_most_pageSize_results_witness :
  decodePageCursor (pageCursor (everything_from "MQ==")) = Returned (of_Z 1)
  /\ pageSize (config (wrapper 2)) = of_Z 2
  /\ exists st',
       AuthorizedSearchEngine.query Date_now 5 (wrapper 2)
         (everything_from "MQ==") anonymous initial
       = Some (Returned second_page, st')
       /\ (length (results second_page) <= Z.to_nat 2)%nat.
Proof.
  assert (Hpage : decodePageCursor (pageCursor (everything_from "MQ=="))
                  = Returned (of_Z 1)) by (vm_compute; reflexivity).
  assert (Hsize : pageSize (config (wrapper 2)) = of_Z 2) by reflexivity.
  split; [exact Hpage|]. split; [exact Hsize|].
  destruct (run_ended
              (AuthorizedSearchEngine.query Date_now 5 (wrapper 2)
                 (everything_from "MQ==") anonymous initial)
              (Returned second_page) ltac:(vm_compute; reflexivity))
    as [st' Hrun].
  exists st'. split; [exact Hrun|].
  apply (page_has_at_most_pageSize_results Date_now 5 (wrapper 2)
           (everything_from "MQ==") anonymous initial second_page st' 1 2
           Hrun Hpage Hsize); [lia|lia|reflexivity|reflexivity].
Defined.

(** Page 1: no next cursor, and the previous one decodes to page 0. *)
Lemma returned_cursors_decode_to_neighbours_witness :
  decodePageCursor (pageCursor (everything_from "MQ==")) = Returned (of_Z 1)
  /\ exists st',
       AuthorizedSearchEngine.query Date_now 5 (wrapper 2)
         (everything_from "MQ==") anonymous initial
       = Some (Returned second_page, st')
       /\ (forall cursor,
             SearchCommon.nextPageCursor second_page = Some cursor ->
             decodePageCursor (Some cursor) = Returned (of_Z (1 + 1)))
       /\ (forall cursor,
             previousPageCursor second_page = Some cursor ->
             decodePageCursor (Some cursor) = Returned (of_Z (1 - 1)))
       /\ (previousPageCursor second_page = None <-> 1 = 0).
Proof.
  assert (Hpage : decodePageCursor (pageCursor (everything_from "MQ=="))
                  = Returned (of_Z 1)) by (vm_compute; reflexivity).
  split; [exact Hpage|].
  destruct (run_ended
              (AuthorizedSearchEngine.query Date_now 5 (wrapper 2)
                 (everything_from "MQ==") anonymous initial)
              (Returned second_page) ltac:(vm_compute; reflexivity))
    as [st' Hrun].
  exists st'. split; [exact Hrun|].
  apply (returned_cursors_decode_to_neighbours Date_now 5 (wrapper 2)
           (everything_from "MQ==") anonymous initial second_page st' 1
           Hrun Hpage); [lia|reflexivity].
Defined.

(** Secrets are denied by the gate; the secret without a reference
    passes the filter all the same. *)
Lemma result_without_reference_is_kept_witness :
  fresh initial
  /\ hit "secrets" None ∈ leaky_page
  /\ result <$> gate_decided !! "secrets" = Some DENY
  /\ exists st',
       filterResults (wrapper 2) anonymous leaky_page gate_decided initial
       = Some (Returned [hit "secrets" None], st')
       /\ hit "secrets" None ∈ [hit "secrets" None].
Proof.
  assert (Hin : hit "secrets" None ∈ leaky_page)
    by (apply elem_of_by_decision; vm_compute; reflexivity).
  split; [exact fresh_initial|]. split; [exact Hin|].
  split; [vm_compute; reflexivity|].
  destruct (run_ended
              (filterResults (wrapper 2) anonymous leaky_page gate_decided
                 initial)
              (Returned [hit "secrets" None]) ltac:(vm_compute; reflexivity))
    as [st' Hrun].
  exists st'. split; [exact Hrun|].
  exact (result_without_reference_is_kept (wrapper 2) anonymous leaky_page
           gate_decided initial [hit "secrets" None] st' (hit "secrets" None)
           fresh_initial Hrun Hin (or_introl eq_refl)).
Defined.

(** Page 25, written in two ways. *)
Lemma encodePageCursor_injective_witness :
  0 <= 25 < 2 ^ 53
  /\ encodePageCursor (of_Z 25) = encodePageCursor (of_Z (5 * 5))
  /\ 25 = 5 * 5.
Proof.
  assert (H : 0 <= 25 < 2 ^ 53) by (split; [lia|reflexivity]).
  assert (Heq : encodePageCursor (of_Z 25) = encodePageCursor (of_Z (5 * 5)))
    by reflexivity.
  exact (conj H (conj Heq (encodePageCursor_injective 25 (5 * 5) H H Heq))).
Defined.

(** Page 25. *)
Lemma encodePageCursor_is_base64_of_decimal_witness :
  0 <= 25 < 2 ^ 53
  /\ encodePageCursor (of_Z 25) = Buffer.toString_base64 (decimal 25).
Proof.
  assert (H : 0 <= 25 < 2 ^ 53) by (split; [lia|reflexivity]).
  exact (conj H (encodePageCursor_is_base64_of_decimal 25 H)).
Defined.


(** The gate of the example asks for the two permissions first. *)
Lemma gate_asks_once_and_first_witness :
  exists st',
    AuthorizedSearchEngine.query Date_now 5 (wrapper 2)
      (everything_from "MQ==") anonymous initial
    = Some (Returned second_page, st')
    /\ let requests :=
         map (fun permission =>
                {| permission := permission; resourceRef := None |})
           (omap (visibilityPermissionOf (wrapper 2))
              (requestedTypes (wrapper 2) (everything_from "MQ=="))) in
       exists rest,
         calls st'
         = calls initial ++ match requests with
                            | [] => []
                            | _ => [Authorize requests anonymous]
                            end ++ rest
         /\ forall c, head rest = Some c -> is_engine_call c = true.
Proof.
  destruct (run_ended
              (AuthorizedSearchEngine.query Date_now 5 (wrapper 2)
                 (everything_from "MQ==") anonymous initial)
              (Returned second_page) ltac:(vm_compute; reflexivity))
    as [st' Hrun].
  exists st'. split; [exact Hrun|].
  exact (gate_asks_once_and_first Date_now 5 (wrapper 2)
           (everything_from "MQ==") anonymous initial (Returned second_page)
           st' Hrun).
Defined.

(** After the first iteration of the example the loop holds two results
    and a cursor: enough for page 0, not for page 1. *)
Lemma backfill_goes_on_while_needed_witness :
  pageSize (config (wrapper 2)) = of_Z 2
  /\ exists st',
       iteration Date_now (wrapper 2) everything anonymous 0 gate_decided
         ["catalog"; "docs"] [] None initial
       = Some (Returned first_loop, st')
       /\ backfill Date_now 5 (wrapper 2) everything anonymous 0 gate_decided
            ["catalog"; "docs"]
            (mul (add (of_Z 0) one) (pageSize (config (wrapper 2))))
            [] None initial
          = Some (Returned first_loop, st')
       /\ backfill Date_now 5 (wrapper 2) everything anonymous 0 gate_decided
            ["catalog"; "docs"]
            (mul (add (of_Z 1) one) (pageSize (config (wrapper 2))))
            [] None initial
          = backfill Date_now 4 (wrapper 2) everything anonymous 0
              gate_decided ["catalog"; "docs"]
              (mul (add (of_Z 1) one) (pageSize (config (wrapper 2))))
              (filteredResults first_loop) (nextPageCursor first_loop) st'.
Proof.
  assert (Hsize : pageSize (config (wrapper 2)) = of_Z 2) by reflexivity.
  split; [exact Hsize|].
  destruct (run_ended
              (iteration Date_now (wrapper 2) everything anonymous 0
                 gate_decided ["catalog"; "docs"] [] None initial)
              (Returned first_loop) ltac:(vm_compute; reflexivity))
    as [st' Hit].
  exists st'. split; [exact Hit|]. split.
  - apply (backfill_goes_on_while_needed Date_now 4 (wrapper 2) everything
             anonymous 0 gate_decided ["catalog"; "docs"] [] None initial
             first_loop st' 0 2 Hit Hsize);
      [lia|lia|reflexivity|reflexivity|reflexivity|].
    right. simpl. lia.
  - apply (backfill_goes_on_while_needed Date_now 4 (wrapper 2) everything
             anonymous 0 gate_decided ["catalog"; "docs"] [] None initial
             first_loop st' 1 2 Hit Hsize);
      [lia|lia|reflexivity|reflexivity|reflexivity|reflexivity|
       simpl; lia|reflexivity].
Defined.

(** The paged engine takes ten milliseconds a call, the budget is a
    second: 1001 iterations are enough. *)
Lemma query_ends_within_budget_witness :
  exists o st' new,
    (forall fuel, (Z.to_nat 1000 < fuel)%nat ->
       AuthorizedSearchEngine.query Date_now fuel
         (guarded_by (deciding policy)) everything anonymous initial
       = Some (o, st'))
    /\ calls st' = calls initial ++ new
    /\ (length (List.filter is_engine_call new) <= Z.to_nat 1000 + 1)%nat.
Proof.
  apply (query_ends_within_budget Date_now clock
           (fun w => 0 <= w <= 2 ^ 52) 1000).
  - done.
  - intros w. unfold clock. change (2 ^ 53) with 9007199254740992. lia.
  - reflexivity.
  - change (2 ^ 53) with 9007199254740992. lia.
  - intros sent options w. cbv zeta. cbn [guarded_by constructor searchEngine
      paged SearchCommon.query snd world initial].
    unfold clock. change (2 ^ 52) with 4503599627370496. lia.
  - intros requests options w. cbv zeta. split; [simpl; lia|done].
  - simpl. change (2 ^ 52) with 4503599627370496. lia.
Defined.

(** Secrets are denied: the engine is asked for catalog and docs. *)
Lemma engine_is_asked_for_types_not_denied_witness :
  exists st',
    AuthorizedSearchEngine.query Date_now 5 (wrapper 2)
      (everything_from "MQ==") anonymous initial
    = Some (Returned second_page, st')
    /\ exists new,
         calls st' = calls initial ++ new
         /\ forall sent options', Query sent options' ∈ new ->
            exists decisions st_gate,
              typeDecisions (wrapper 2)
                (requestedTypes (wrapper 2) (everything_from "MQ=="))
                anonymous (query_start Date_now initial)
              = Some (Returned decisions, st_gate)
              /\ SearchCommon.types sent
                 = Some (filter (fun type =>
                                   result <$> decisions !! type ≠ Some DENY)
                           (requestedTypes (wrapper 2)
                              (everything_from "MQ=="))).
Proof.
  destruct (run_ended
              (AuthorizedSearchEngine.query Date_now 5 (wrapper 2)
                 (everything_from "MQ==") anonymous initial)
              (Returned second_page) ltac:(vm_compute; reflexivity))
    as [st' Hrun].
  exists st'. split; [exact Hrun|].
  exact (engine_is_asked_for_types_not_denied Date_now 5 (wrapper 2)
           (everything_from "MQ==") anonymous initial (Returned second_page)
           st' Hrun).
Defined.

(** The second page of everything under the policy of the example. *)
Lemma returned_results_pass_the_policy_witness :
  decides_by (wrapper 2) policy
  /\ exists st',
       AuthorizedSearchEngine.query Date_now 5 (wrapper 2)
         (everything_from "MQ==") anonymous initial
       = Some (Returned second_page, st')
       /\ let requested :=
            requestedTypes (wrapper 2) (everything_from "MQ==") in
          let decisions :=
            zipObject requested
              (map (type_decision (wrapper 2) policy) requested) in
          forall r, r ∈ results second_page ->
            spec_keeps (wrapper 2) decisions policy r = true.
Proof.
  assert (Hpolicy : decides_by (wrapper 2) policy)
    by (intros requests options w; reflexivity).
  split; [exact Hpolicy|].
  destruct (run_ended
              (AuthorizedSearchEngine.query Date_now 5 (wrapper 2)
                 (everything_from "MQ==") anonymous initial)
              (Returned second_page) ltac:(vm_compute; reflexivity))
    as [st' Hrun].
  exists st'. split; [exact Hrun|].
  exact (returned_results_pass_the_policy Date_now 5 (wrapper 2)
           (everything_from "MQ==") anonymous initial second_page st' policy
           Hpolicy Hrun).
Defined.

(** The second page of everything, in the observed world, is the second
    window of two. *)
Lemma page_is_window_of_filtered_answers_witness :
  let this := Recorded.wrapper 10 2 in
  let query := everything_from "MQ==" in
  records Recorded.Date_now this Recorded.answers
  /\ decides_by this policy
  /\ decodePageCursor (pageCursor query) = Returned (of_Z 1)
  /\ pageSize (config this) = of_Z 2
  /\ exists st',
       AuthorizedSearchEngine.query Recorded.Date_now 5 this query anonymous
         Recorded.initial = Some (Returned second_page, st')
       /\ let requested := requestedTypes this query in
          let decisions :=
            zipObject requested
              (map (type_decision this policy) requested) in
          exists answers,
            Recorded.answers (world st')
            = Recorded.answers (world Recorded.initial) ++ answers
            /\ results second_page
               = take (Z.to_nat 2)
                   (drop (Z.to_nat (1 * 2))
                      (List.filter (spec_keeps this decisions policy)
                         (concat (map results answers)))).
Proof.
  intros this query.
  assert (Hlog : records Recorded.Date_now this Recorded.answers)
    by apply recording_records.
  assert (Hpolicy : decides_by this policy)
    by (intros requests options w; reflexivity).
  assert (Hpage : decodePageCursor (pageCursor query) = Returned (of_Z 1))
    by (vm_compute; reflexivity).
  assert (Hsize : pageSize (config this) = of_Z 2) by reflexivity.
  split; [exact Hlog|]. split; [exact Hpolicy|]. split; [exact Hpage|].
  split; [exact Hsize|].
  destruct (run_known
              (AuthorizedSearchEngine.query Recorded.Date_now 5 this query
                 anonymous Recorded.initial)
              (Returned second_page) ltac:(vm_compute; reflexivity))
    as [st' Hrun].
  exists st'. split; [exact Hrun|].
  apply (page_is_window_of_filtered_answers Recorded.Date_now 5 this query
           anonymous Recorded.initial second_page st' Recorded.answers
           policy 1 2 Hlog Hpolicy Hrun Hpage Hsize);
    [lia|lia|reflexivity|reflexivity].
Defined.

End Illustrations.
